(** * tapa: Tekton Artifact Performance Analysis

    A shallow embedding of the analysis code of the repository (the
    revisions of [main.go]) and the properties its specification states.

    Conventions of the embedding:
    - [time.Time] is an instant, a [Z] count of nanoseconds since Go's zero
      time (January 1, year 1, 00:00:00 UTC), which is [0];
    - [time.Duration] is an [int64] count of nanoseconds; [Time.Sub]
      saturates at the bounds of [int64] as the Go library does;
    - [float64] is the primitive binary64 type of the kernel;
    - a Go [map[string]T] is a [gmap string T]; ranging over a map visits
      its entries in an order picked by a [RangeOracle];
    - a nil-pointer dereference is a panic, the [None] of the result. *)

From Stdlib Require Import ZArith Ascii String List Floats Uint63 Lia Bool.
From Stdlib Require Import Sorting.Sorted Sorting.Permutation.
From stdpp Require Import base option list sorting gmap strings.

Local Open Scope Z_scope.

(** ** Go's int, time and float64 *)

Module Go.

(** Two's-complement wrap-around of a 64-bit [int]. *)
Definition wrap64 (z : Z) : Z :=
  (z + 2 ^ 63) mod 2 ^ 64 - 2 ^ 63.

Definition Time := Z.
Definition Duration := Z.

(** [var t time.Time]: the zero value. *)
Definition zeroTime : Time := 0.

Definition minDuration : Duration := - 2 ^ 63.
Definition maxDuration : Duration := 2 ^ 63 - 1.

Definition Before (t u : Time) : bool := t <? u.
Definition After (t u : Time) : bool := u <? t.
Definition Equal (t u : Time) : bool := t =? u.
Definition IsZero (t : Time) : bool := t =? zeroTime.

(** [t.Sub(u)]: the difference, or the nearest bound when it does not fit
    a [Duration]. *)
Definition Sub (t u : Time) : Duration :=
  let d := t - u in
  if (minDuration <=? d) && (d <=? maxDuration) then d
  else if Before t u then minDuration else maxDuration.

Definition Second : Duration := 1000000000.

(** [float64(n)] for an [int64] of magnitude below [2^63]. *)
Definition float64_of_int (z : Z) : float :=
  if z <? 0 then PrimFloat.opp (PrimFloat.of_uint63 (Uint63.of_Z (- z)))
  else PrimFloat.of_uint63 (Uint63.of_Z z).

(** [d.Seconds()]:
    [sec := d / Second; nsec := d % Second;
     return float64(sec) + float64(nsec)/1e9]
    with Go's truncated division. *)
Definition Seconds (d : Duration) : float :=
  let sec := Z.quot d Second in
  let nsec := Z.rem d Second in
  PrimFloat.add (float64_of_int sec)
                (PrimFloat.div (float64_of_int nsec) 1e9%float).

(** [strings.HasPrefix(s, prefix)]. *)
Definition HasPrefix (s prefix : string) : bool := String.prefix prefix s.

(** The [x < y] of [sort.Float64s]: not-a-number values come first. *)
Definition float64Less (x y : float) : bool :=
  PrimFloat.ltb x y || (PrimFloat.is_nan x && negb (PrimFloat.is_nan y)).

Fixpoint insertSorted (x : float) (l : list float) : list float :=
  match l with
  | [] => [x]
  | y :: l' => if float64Less y x then y :: insertSorted x l' else x :: l
  end.

(** [sort.Float64s]: the slice in increasing order. *)
Definition Float64s (l : list float) : list float :=
  fold_right insertSorted [] l.

(** Lookup in a [map[float64]struct{}]: keys are compared with [==]. *)
Definition hasFloatKey (d : float) (set : list float) : bool :=
  existsb (PrimFloat.eqb d) set.

(** The order in which one [range] over a map yields its entries: some
    arrangement of the entries, each exactly once. Go picks the order anew
    at every [range]; a value of this type stands for the orders met
    during one run of an analysis, and two runs are given two values. *)
Record RangeOracle := {
  range_order : forall V : Type, list (string * V) -> list (string * V);
  range_order_perm : forall (V : Type) (l : list (string * V)),
      Permutation (range_order V l) l
}.

Definition range {V : Type} (o : RangeOracle) (m : gmap string V)
  : list (string * V) :=
  range_order o V (map_to_list m).

(** [v, _ := m[k]]: the zero value when the key is absent. *)
Definition timeAt (m : gmap string Time) (k : string) : Time :=
  default zeroTime (m !! k).

End Go.

Import Go.

(** ** The records read from the cluster dumps *)

(** [metav1.ObjectMeta] and the [Status] fields the analysis reads of a
    [v1beta1.PipelineRun]. [pr_Done] is the result of [pr.IsDone()]: the
    [Succeeded] condition is known. *)
Record PipelineRun := {
  pr_Kind : string;
  pr_Namespace : string;
  pr_Name : string;
  pr_StartTime : option Time;
  pr_CompletionTime : option Time;
  pr_Done : bool
}.

Record TaskRun := {
  tr_Kind : string;
  tr_Namespace : string;
  tr_Name : string;
  tr_StartTime : option Time;
  tr_CompletionTime : option Time;
  tr_Done : bool
}.

(** [corev1.ContainerStateTerminated]. *)
Record ContainerStateTerminated := {
  StartedAt : Time;
  FinishedAt : Time
}.

(** [corev1.ContainerStatus]; [cs_Terminated] is [State.Terminated], a
    pointer that is nil while the container waits or runs. *)
Record ContainerStatus := {
  cs_Name : string;
  cs_Terminated : option ContainerStateTerminated
}.

Inductive PodPhase :=
| PodPending | PodRunning | PodSucceeded | PodFailed | PodUnknown.

Record Pod := {
  pod_Kind : string;
  pod_Namespace : string;
  pod_Name : string;
  pod_Labels : gmap string string;
  pod_SpecContainers : list string;      (* Spec.Containers[i].Name *)
  pod_StartTime : option Time;
  pod_Phase : PodPhase;
  pod_ContainerStatuses : list ContainerStatus
}.

(** [pr.HasStarted()] of the Tekton API:
    [pr.Status.StartTime != nil && !pr.Status.StartTime.IsZero()]. *)
Definition startedAt (t : option Time) : bool :=
  match t with
  | Some t => negb (IsZero t)
  | None => false
  end.

Definition pr_HasStarted (pr : PipelineRun) : bool := startedAt (pr_StartTime pr).
Definition tr_HasStarted (tr : TaskRun) : bool := startedAt (tr_StartTime tr).

(** [fmt.Sprintf("%s:%s", ns, name)]. *)
Definition keyOf (ns name : string) : string := ns +:+ ":" +:+ name.

Definition prKeyOf (pr : PipelineRun) : string := keyOf (pr_Namespace pr) (pr_Name pr).
Definition trKeyOf (tr : TaskRun) : string := keyOf (tr_Namespace tr) (tr_Name tr).
Definition podKeyOf (pod : Pod) : string := keyOf (pod_Namespace pod) (pod_Name pod).

(** [fmt.Sprintf("%s:%s-%s", pod.Namespace, pod.Name, cstatus.Name)]. *)
Definition containerKeyOf (pod : Pod) (cname : string) : string :=
  pod_Namespace pod +:+ ":" +:+ pod_Name pod +:+ "-" +:+ cname.

(** ** The package-level tables *)

(** The five tables the program keeps for one kind of record:
    [xStartTimes], [xEndTimes], [xToDuration], [xDurations] and
    [xDurationsMap]. *)
Record Tables := {
  StartTimes : gmap string Time;
  EndTimes : gmap string Time;
  ToDuration : gmap string float;
  Durations : list float;
  DurationsMap : list float
}.

Definition emptyTables : Tables :=
  {| StartTimes := ∅; EndTimes := ∅; ToDuration := ∅;
     Durations := []; DurationsMap := [] |}.

(** The package-level variables of the program, and what it has written to
    [os.Stderr]. *)
Record State := {
  prTables : Tables;
  trTables : Tables;
  podTables : Tables;
  containerTables : Tables;
  containerOnly : bool;
  stderr : list string
}.

(** The variables as the program initialises them. *)
Definition initState : State :=
  {| prTables := emptyTables; trTables := emptyTables;
     podTables := emptyTables; containerTables := emptyTables;
     containerOnly := false; stderr := [] |}.

Definition prStartTimes (s : State) := StartTimes (prTables s).
Definition prEndTimes (s : State) := EndTimes (prTables s).
Definition prToDuration (s : State) := ToDuration (prTables s).
Definition prDurations (s : State) := Durations (prTables s).
Definition prDurationsMap (s : State) := DurationsMap (prTables s).
Definition trStartTimes (s : State) := StartTimes (trTables s).
Definition trEndTimes (s : State) := EndTimes (trTables s).
Definition trToDuration (s : State) := ToDuration (trTables s).
Definition trDurations (s : State) := Durations (trTables s).
Definition podStartTimes (s : State) := StartTimes (podTables s).
Definition podEndTimes (s : State) := EndTimes (podTables s).
Definition podToDuration (s : State) := ToDuration (podTables s).
Definition podDurations (s : State) := Durations (podTables s).
Definition containerStartTimes (s : State) := StartTimes (containerTables s).
Definition containerEndTimmes (s : State) := EndTimes (containerTables s).
Definition containerToDuration (s : State) := ToDuration (containerTables s).
Definition containerDurations (s : State) := Durations (containerTables s).

Definition withPr (f : Tables -> Tables) (s : State) : State :=
  {| prTables := f (prTables s); trTables := trTables s;
     podTables := podTables s; containerTables := containerTables s;
     containerOnly := containerOnly s; stderr := stderr s |}.
Definition withTr (f : Tables -> Tables) (s : State) : State :=
  {| prTables := prTables s; trTables := f (trTables s);
     podTables := podTables s; containerTables := containerTables s;
     containerOnly := containerOnly s; stderr := stderr s |}.
Definition withPod (f : Tables -> Tables) (s : State) : State :=
  {| prTables := prTables s; trTables := trTables s;
     podTables := f (podTables s); containerTables := containerTables s;
     containerOnly := containerOnly s; stderr := stderr s |}.
Definition withContainer (f : Tables -> Tables) (s : State) : State :=
  {| prTables := prTables s; trTables := trTables s;
     podTables := podTables s; containerTables := f (containerTables s);
     containerOnly := containerOnly s; stderr := stderr s |}.
Definition writeStderr (lines : list string) (s : State) : State :=
  {| prTables := prTables s; trTables := trTables s;
     podTables := podTables s; containerTables := containerTables s;
     containerOnly := containerOnly s; stderr := stderr s ++ lines |}.

(** The statements every [processX] runs on its tables:
[[
   xToDuration[key] = secs
   if _, ok := xDurationsMap[secs]; !ok {
       xDurations = append(xDurations, secs); xDurationsMap[secs] = struct{}{}
   }
   xStartTimes[key] = start; xEndTimes[key] = end
]] *)
Definition recordInterval (key : string) (start finish : Time) (secs : float)
    (t : Tables) : Tables :=
  let known := hasFloatKey secs (DurationsMap t) in
  {| StartTimes := <[key := start]> (StartTimes t);
     EndTimes := <[key := finish]> (EndTimes t);
     ToDuration := <[key := secs]> (ToDuration t);
     Durations := if known then Durations t else Durations t ++ [secs];
     DurationsMap := if known then DurationsMap t else secs :: DurationsMap t |}.

(** ** Eligibility filters *)

Definition ignorePipelineRun (pr : PipelineRun) (prFilter : string) : bool :=
  let prKey := prKeyOf pr in
  if (0 <? Z.of_nat (String.length prFilter))%Z && negb (String.eqb prKey prFilter)
  then true
  else if negb (pr_HasStarted pr) then true
  else if negb (pr_Done pr) then true
  else false.

Definition ignoreTaskRun (tr : TaskRun) (prFilter : string) : bool :=
  if negb (tr_HasStarted tr) then true
  else if negb (tr_Done tr) then true
  else
    let trKey := trKeyOf tr in
    if (0 <? Z.of_nat (String.length prFilter))%Z && negb (HasPrefix trKey prFilter)
    then true
    else false.

Definition terminalPhase (p : PodPhase) : bool :=
  match p with
  | PodSucceeded | PodFailed => true
  | _ => false
  end.

Definition ignorePod (pod : Pod) (prFilter : string) : bool :=
  match pod_StartTime pod with
  | None => true
  | Some _ =>
    if negb (terminalPhase (pod_Phase pod)) then true
    else
      match pod_Labels pod !! "tekton.dev/pipelineRun" with
      | None => true
      | Some _ =>
        let podKey := podKeyOf pod in
        if (0 <? Z.of_nat (String.length prFilter))%Z
           && negb (HasPrefix podKey prFilter)
        then true
        else false
      end
  end.

(** ** Interval extraction *)

Definition processPipelineRun (pr : PipelineRun) (s : State)
    : option (Duration * State) :=
  completion ← pr_CompletionTime pr;
  start ← pr_StartTime pr;
  let duration := Sub completion start in
  Some (duration,
        withPr (recordInterval (prKeyOf pr) start completion (Seconds duration)) s).

Definition processTaskRun (tr : TaskRun) (s : State)
    : option (Duration * State) :=
  completion ← tr_CompletionTime tr;
  start ← tr_StartTime tr;
  let duration := Sub completion start in
  Some (duration,
        withTr (recordInterval (trKeyOf tr) start completion (Seconds duration)) s).

(** The loop of [processPod] over [pod.Status.ContainerStatuses], started
    from the zero [terimnatedTime]. *)
Definition laterFinish (t : Time) (status : ContainerStatus) : Time :=
  match cs_Terminated status with
  | Some terminated =>
    if After (FinishedAt terminated) t then FinishedAt terminated else t
  | None => t
  end.

Definition terminatedTimeOf (statuses : list ContainerStatus) : Time :=
  fold_left laterFinish statuses zeroTime.

Definition processPod (pod : Pod) (s : State) : option (Duration * State) :=
  let terimnatedTime := terminatedTimeOf (pod_ContainerStatuses pod) in
  start ← pod_StartTime pod;
  let duration := Sub terimnatedTime start in
  Some (duration,
        withPod (recordInterval (podKeyOf pod) start terimnatedTime
                                (Seconds duration)) s).

(** [specNameToIndex] and [statusNameToIndex]: the index of each name, the
    last one when a name occurs twice. *)
Definition nameToIndex (names : list string) : gmap string nat :=
  fold_left (fun m '(index, name) => <[name := index]> m)
            (imap (fun index name => (index, name)) names) ∅.

(** The window [(started, finished)] that [processContainers] measures for
    the status [cstatus], whose state is [terminated]. Indexing a slice out
    of its range panics. *)
Definition containerWindow (pod : Pod) (cstatus : ContainerStatus)
    (terminated : ContainerStateTerminated) : option (Time * Time) :=
  let specNameToIndex := nameToIndex (pod_SpecContainers pod) in
  let statusNameToIndex := nameToIndex (cs_Name <$> pod_ContainerStatuses pod) in
  let started := StartedAt terminated in
  let specIndex := default 0%nat (specNameToIndex !! cs_Name cstatus) in
  started ←
    (if (specIndex =? 0)%nat then Some started
     else
       priorContainerName ← pod_SpecContainers pod !! (specIndex - 1)%nat;
       let priorContainerStatusIndex :=
         default 0%nat (statusNameToIndex !! priorContainerName) in
       priorContainerStatus ← pod_ContainerStatuses pod !! priorContainerStatusIndex;
       match cs_Terminated priorContainerStatus with
       | Some prior => Some (FinishedAt prior)
       | None => Some started
       end);
  Some (started, FinishedAt terminated).

Definition processContainerStatus (pod : Pod) (acc : option State)
    (cstatus : ContainerStatus) : option State :=
  s ← acc;
  match cs_Terminated cstatus with
  | None => Some s
  | Some terminated =>
    '(started, finished) ← containerWindow pod cstatus terminated;
    let duration := Sub finished started in
    let ckey := containerKeyOf pod (cs_Name cstatus) in
    Some (withContainer (recordInterval ckey started finished (Seconds duration)) s)
  end.

(** [processContainers] returns its [durations] slice as it made it: empty. *)
Definition processContainers (pod : Pod) (s : State)
    : option (list Duration * State) :=
  s' ← fold_left (processContainerStatus pod) (pod_ContainerStatuses pod) (Some s);
  Some ([], s').

(** ** Concurrency *)

(** The test the loop of [innerConcurrency] applies to the entry
    [(start, end)] of another key against the window [(st, en)]. *)
Definition countsAgainst (st en start finish : Time) : bool :=
  if Equal start st && Equal finish en then true
  else Before start en && After finish st.

Definition innerConcurrency (o : RangeOracle) (key : string)
    (starts ends : gmap string Time) : Z :=
  let st := timeAt starts key in
  let en := timeAt ends key in
  fold_left
    (fun total '(k, start) =>
       if String.eqb k key then total
       else if countsAgainst st en start (timeAt ends k) then total + 1
       else total)
    (range o starts) 1.

Definition determinePRConcurrency (o : RangeOracle) (s : State) (prKey : string) : Z :=
  innerConcurrency o prKey (prStartTimes s) (prEndTimes s).
Definition determineTRConcurrency (o : RangeOracle) (s : State) (trKey : string) : Z :=
  innerConcurrency o trKey (trStartTimes s) (trEndTimes s).
Definition determinePodConcurrency (o : RangeOracle) (s : State) (prKey : string) : Z :=
  innerConcurrency o prKey (podStartTimes s) (podEndTimes s).
Definition determineContainerConcurrency (o : RangeOracle) (s : State) (ckey : string) : Z :=
  innerConcurrency o ckey (containerStartTimes s) (containerEndTimmes s).

(** ** Reading the dumps *)

(** What [filepath.Walk] hands to the callback at one path of the tree, and
    what [os.ReadFile] and [json.Unmarshal] make of a file there. *)
Inductive WalkEntry (T : Type) :=
| WalkErr (msg : string)
| IsDir
| Unreadable (path msg : string)
| Undecodable
| Decoded (items : list T).
Arguments WalkErr {T} msg.
Arguments IsDir {T}.
Arguments Unreadable {T} path msg.
Arguments Undecodable {T}.
Arguments Decoded {T} items.

(** The paths [filepath.Walk] visits from a root, in its order. *)
Definition FileTree (T : Type) := string -> list (WalkEntry T).

Definition newline : string := String (Ascii.ascii_of_nat 10) EmptyString.

(** The callback the three [processXFiles] hand to [filepath.Walk]; it
    returns nil on every path, so the walk visits every path and returns
    nil. [kindOf] and [kind] are the type filter [item.Kind != kind]. *)
Definition walkFiles {T : Type} (kindOf : T -> string) (kind : string)
    (entries : list (WalkEntry T)) (s : State) : list T * option string * State :=
  let step (acc : list T * State) (e : WalkEntry T) :=
    let '(items, s) := acc in
    match e with
    | WalkErr msg =>
      (items, writeStderr ["filepath walk error: " +:+ msg +:+ newline] s)
    | IsDir => (items, s)
    | Unreadable path msg =>
      (items, writeStderr ["problem reading " +:+ path +:+ ": " +:+ msg +:+ newline] s)
    | Undecodable => (items, s)
    | Decoded l =>
      ((items ++ filter (fun item => String.eqb (kindOf item) kind = true) l)%list, s)
    end in
  let '(items, s') := fold_left step entries ([], s) in
  (items, None, s').

Definition processPRFiles (tree : FileTree PipelineRun) (fileName : string) (s : State) :=
  walkFiles pr_Kind "PipelineRun" (tree fileName) s.
Definition processTRFiles (tree : FileTree TaskRun) (fileName : string) (s : State) :=
  walkFiles tr_Kind "TaskRun" (tree fileName) s.
Definition processPodFiles (tree : FileTree Pod) (fileName : string) (s : State) :=
  walkFiles pod_Kind "Pod" (tree fileName) s.

(** ** The per-kind analyses *)

(** The four results of a [parseXList]. *)
Record Result := {
  retS : list string;
  retF : list float;
  retI : list Z;
  ok : bool
}.

Definition failed (msg : string) : Result :=
  {| retS := [msg]; retF := []; retI := []; ok := false |}.

(** The emission loops:
[[
   for _, duration := range xDurations {
       for key, value := range xToDuration {
           if value == duration { append key, value, determineXConcurrency(key) }
       }
   }
]] *)
Definition rankRows (o : RangeOracle) (durations : list float)
    (toDuration : gmap string float) (concurrency : string -> Z)
    : list (string * float * Z) :=
  flat_map
    (fun duration =>
       flat_map
         (fun '(key, value) =>
            if PrimFloat.eqb value duration
            then [(key, value, concurrency key)] else [])
         (range o toDuration))
    durations.

Definition resultOf (rows : list (string * float * Z)) : Result :=
  {| retS := (fun r => r.1.1) <$> rows;
     retF := (fun r => r.1.2) <$> rows;
     retI := (fun r => r.2) <$> rows;
     ok := true |}.

Definition sortDurations (t : Tables) : Tables :=
  {| StartTimes := StartTimes t; EndTimes := EndTimes t;
     ToDuration := ToDuration t; Durations := Float64s (Durations t);
     DurationsMap := DurationsMap t |}.

(** [for _, x := range list.Items { if ignoreX(&x, prFilter) { continue };
    processX(&x) }]. *)
Definition processAll {T : Type} (ignore : T -> bool)
    (process : T -> State -> option (Duration * State))
    (items : list T) (s : State) : option State :=
  fold_left
    (fun acc item =>
       s ← acc;
       if ignore item then Some s else snd <$> process item s)
    items (Some s).

Definition parsePipelineRunList (o : RangeOracle) (tree : FileTree PipelineRun)
    (fileName prFilter : string) (s : State) : option (Result * State) :=
  let '(prList, err, s) := processPRFiles tree fileName s in
  match err with
  | Some e =>
    Some (failed ("ERROR: problem reading file " +:+ fileName +:+ ": " +:+ e +:+ newline), s)
  | None =>
    s ← processAll (fun pr => ignorePipelineRun pr prFilter) processPipelineRun prList s;
    let s := withPr sortDurations s in
    Some (resultOf (rankRows o (prDurations s) (prToDuration s)
                             (determinePRConcurrency o s)), s)
  end.

Definition parseTaskRunList (o : RangeOracle) (tree : FileTree TaskRun)
    (fileName prFilter : string) (s : State) : option (Result * State) :=
  let '(trList, err, s) := processTRFiles tree fileName s in
  match err with
  | Some e =>
    Some (failed ("ERROR: file " +:+ fileName
                  +:+ " not marshalling into a TaskRun list: " +:+ e +:+ newline), s)
  | None =>
    s ← processAll (fun tr => ignoreTaskRun tr prFilter) processTaskRun trList s;
    let s := withTr sortDurations s in
    Some (resultOf (rankRows o (trDurations s) (trToDuration s)
                             (determineTRConcurrency o s)), s)
  end.

Definition processPodOrContainers (containerOnly : bool) (pod : Pod) (s : State)
    : option (Duration * State) :=
  if negb containerOnly then processPod pod s
  else '(_, s') ← processContainers pod s; Some (0, s').

Definition parsePodList (o : RangeOracle) (tree : FileTree Pod)
    (fileName prFilter : string) (s : State) : option (Result * State) :=
  let '(podList, err, s) := processPodFiles tree fileName s in
  match err with
  | Some e =>
    Some (failed ("ERROR: file " +:+ fileName
                  +:+ " not marshalling into a Pod list: " +:+ e +:+ newline), s)
  | None =>
    s ← processAll (fun pod => ignorePod pod prFilter)
                   (processPodOrContainers (containerOnly s)) podList s;
    if negb (containerOnly s) then
      let s := withPod sortDurations s in
      Some (resultOf (rankRows o (podDurations s) (podToDuration s)
                               (determinePodConcurrency o s)), s)
    else
      let s := withContainer sortDurations s in
      Some (resultOf (rankRows o (containerDurations s) (containerToDuration s)
                               (determineContainerConcurrency o s)), s)
  end.

(** ** Hierarchical aggregation: the [all] command *)

(** One line of the report of [ParseAllThreeLists], as the values handed to
    [printLine]. *)
Record AggregateRow := {
  row_prkey : string;
  row_prDuration : float;
  row_prConcurency : Z;
  row_totalTRDuration : float;
  row_trDelta : float;
  row_trPercent : float;
  row_maxTRConcurrency : Z;
  row_totalPodDuration : float;
  row_podDelta : float;
  row_podPercent : float;
  row_maxPodConcurrency : Z
}.

Definition indexed {A : Type} (l : list A) : list (nat * A) :=
  imap (fun i x => (i, x)) l.

(** The loop over the task runs:
[[
   for ii, trKey := range retS2 {
       if !strings.HasPrefix(trKey, prkey) { continue }
       totalTRDuration = totalTRDuration + retF2[ii]
       if retI2[ii] > maxTRConcurrency { maxTRConcurrency = retI2[ii] }
   }
]] *)
Definition taskRunTotals (prkey : string) (r2 : Result) : option (float * Z) :=
  fold_left
    (fun acc '(ii, trKey) =>
       '(totalTRDuration, maxTRConcurrency) ← acc;
       if negb (HasPrefix trKey prkey) then Some (totalTRDuration, maxTRConcurrency)
       else
         f ← retF r2 !! ii;
         c ← retI r2 !! ii;
         Some (PrimFloat.add totalTRDuration f,
               if c >? maxTRConcurrency then c else maxTRConcurrency))
    (indexed (retS r2)) (Some (0%float, 0)).

(** The loop over the pods:
[[
   for iii, podKey := range retS3 {
       if !strings.HasPrefix(podKey, prkey) { continue }
       totalPodDuration = totalPodDuration + retF3[iii]
       maxPodConcurrency = maxPodConcurrency + retI3[iii]
       if retI3[iii] > maxPodConcurrency { maxPodConcurrency = retI3[iii] }
   }
]] *)
Definition podTotals (prkey : string) (r3 : Result) : option (float * Z) :=
  fold_left
    (fun acc '(iii, podKey) =>
       '(totalPodDuration, maxPodConcurrency) ← acc;
       if negb (HasPrefix podKey prkey) then Some (totalPodDuration, maxPodConcurrency)
       else
         f ← retF r3 !! iii;
         c ← retI r3 !! iii;
         let maxPodConcurrency := wrap64 (maxPodConcurrency + c) in
         Some (PrimFloat.add totalPodDuration f,
               if c >? maxPodConcurrency then c else maxPodConcurrency))
    (indexed (retS r3)) (Some (0%float, 0)).

Definition aggregateRow (r1 r2 r3 : Result) (i : nat) (prkey : string)
    : option AggregateRow :=
  prDuration ← retF r1 !! i;
  prConcurency ← retI r1 !! i;
  '(totalTRDuration, maxTRConcurrency) ← taskRunTotals prkey r2;
  '(totalPodDuration, maxPodConcurrency) ← podTotals prkey r3;
  Some {| row_prkey := prkey;
          row_prDuration := prDuration;
          row_prConcurency := prConcurency;
          row_totalTRDuration := totalTRDuration;
          row_trDelta := PrimFloat.sub prDuration totalTRDuration;
          row_trPercent := PrimFloat.div totalTRDuration prDuration;
          row_maxTRConcurrency := maxTRConcurrency;
          row_totalPodDuration := totalPodDuration;
          row_podDelta := PrimFloat.sub prDuration totalPodDuration;
          row_podPercent := PrimFloat.div totalPodDuration prDuration;
          row_maxPodConcurrency := maxPodConcurrency |}.

(** [for i, prkey := range retS1 { ...; printLine(...) }]. *)
Definition aggregateRows (r1 r2 r3 : Result) : option (list AggregateRow) :=
  mapM (fun '(i, prkey) => aggregateRow r1 r2 r3 i prkey) (indexed (retS r1)).

(** What the commands see of the file system: [os.Stat] (is the path a
    directory, [None] when it fails with a message) and, per kind, the walk
    from a path. *)
Record FileSystem := {
  statOf : string -> string + bool;
  prFiles : FileTree PipelineRun;
  trFiles : FileTree TaskRun;
  podFiles : FileTree Pod
}.

Definition cmdUse : string :=
  "all <pr file location> <tr file location> <pod file location> [<options>]".

(** The [Run] of the [all] command: the lines it prints, and the state it
    leaves. *)
Definition ParseAllThreeLists (o : RangeOracle) (fs : FileSystem)
    (args : list string) (s : State) : option (list AggregateRow * State) :=
  let notEnough :=
    writeStderr ["ERROR: not enough arguments: " +:+ cmdUse +:+ newline] s in
  match args with
  | [] => Some ([], notEnough)
  | arg0 :: _ =>
    match statOf fs arg0 with
    | inl e =>
      Some ([], writeStderr ["ERROR: could not analyze file " +:+ arg0 +:+ ": "
                             +:+ e +:+ newline] s)
    | inr isDir =>
      if (Nat.ltb (length args) 3) && negb isDir then Some ([], notEnough)
      else
        '(prFileName, trFileName, podFileName) ←
          (if negb isDir then
             a1 ← args !! 1%nat; a2 ← args !! 2%nat; Some (arg0, a1, a2)
           else Some (arg0, arg0, arg0));
        '(r1, s) ← parsePipelineRunList o (prFiles fs) prFileName "" s;
        if negb (ok r1) then Some ([], writeStderr (retS r1) s)
        else
          '(r2, s) ← parseTaskRunList o (trFiles fs) trFileName "" s;
          if negb (ok r2) then Some ([], writeStderr (retS r2) s)
          else
            '(r3, s) ← parsePodList o (podFiles fs) podFileName "" s;
            if negb (ok r3) then Some ([], writeStderr (retS r3) s)
            else
              rows ← aggregateRows r1 r2 r3;
              Some (rows, s)
    end
  end.

(** ** Printing, and the commands that list one kind *)

Definition OutputTypeText : string := "text".
Definition OutputTypeCsv : string := "csv".

(** [printHeader]: the lines it writes to [os.Stdout], for the value the
    [outputType] variable has. *)
Definition printHeader (outputType : string) (headers : list string) : list string :=
  if String.eqb outputType OutputTypeCsv then
    [fold_left
       (fun out h =>
          if (0 <? Z.of_nat (String.length out))%Z then out +:+ ";" +:+ h else h)
       headers "" +:+ newline]
  else [].

(** The values a list command hands to [printLine] or [fmt.Fprintf] for
    one row: the key, [durations[i]] and [concurencies[i]]. Indexing a
    slice out of its range panics. *)
Definition printRows (keys : list string) (durations : list float)
    (concurencies : list Z) : option (list (string * float * Z)) :=
  mapM (fun '(i, key) =>
          d ← durations !! i; c ← concurencies !! i; Some (key, d, c))
       (indexed keys).

(** [printList]: the header lines and the rows it prints. *)
Definition printList (outputType resource : string) (keys : list string)
    (durations : list float) (concurencies : list Z)
    : option (list string * list (string * float * Z)) :=
  let header := printHeader outputType [resource; "Duration"; "Concurrency"] in
  rows ← printRows keys durations concurencies;
  Some (header, rows).

(** The [Run] of [prlist]: the header lines and the rows written to
    [os.Stdout], and the state it leaves. There is no [return] after the
    messages of a failed analysis. *)
Definition ParsePipelineRunList (o : RangeOracle) (outputType : string)
    (tree : FileTree PipelineRun) (args : list string) (s : State)
    : option (list string * list (string * float * Z) * State) :=
  match args with
  | [] =>
    Some ([], [],
          writeStderr ["ERROR: not enough arguments: "
                       +:+ "prlist <file location or directory tree with files> [<options>]"
                       +:+ newline] s)
  | fileName :: _ =>
    '(r, s) ← parsePipelineRunList o tree fileName "" s;
    let s := if negb (ok r) then writeStderr (retS r) s else s in
    '(header, rows) ← printList outputType "PipelineRun" (retS r) (retF r) (retI r);
    Some (header, rows, s)
  end.

(** The [Run] of [podlist]. *)
Definition ParsePodList (o : RangeOracle) (outputType : string)
    (tree : FileTree Pod) (args : list string) (s : State)
    : option (list string * list (string * float * Z) * State) :=
  match args with
  | [] =>
    Some ([], [],
          writeStderr ["ERROR: not enough arguments: "
                       +:+ "podlist <file location or directory tree with files> [<options>]"
                       +:+ newline] s)
  | fileName :: _ =>
    '(r, s) ← parsePodList o tree fileName "" s;
    if negb (ok r) then Some ([], [], writeStderr (retS r) s)
    else
      '(header, rows) ← printList outputType "Pod" (retS r) (retF r) (retI r);
      Some (header, rows, s)
  end.

(** The [Run] of [trlist]. *)
Definition ParseTaskRunList (o : RangeOracle) (outputType : string)
    (tree : FileTree TaskRun) (args : list string) (s : State)
    : option (list string * list (string * float * Z) * State) :=
  match args with
  | [] =>
    Some ([], [],
          writeStderr ["ERROR: not enough arguments: "
                       +:+ "trlist <file location or directory tree with files> [<options>]"
                       +:+ newline] s)
  | fileName :: _ =>
    '(r, s) ← parseTaskRunList o tree fileName "" s;
    if negb (ok r) then Some ([], [], writeStderr (retS r) s)
    else
      '(header, rows) ← printList outputType "TaskRun" (retS r) (retF r) (retI r);
      Some (header, rows, s)
  end.

(** ** The revision that reads one file per kind

    Its tables, filters, [processX], [innerConcurrency] and emission loops
    are the ones above; it has no container analysis, and its [parseXList]
    read a single file with [os.ReadFile] and [json.Unmarshal]. *)

(** What [os.ReadFile] followed by [json.Unmarshal] makes of a path; a
    decoding that fails may have filled some items before it did. *)
Inductive FileRead (T : Type) :=
| ReadError (msg : string)
| UnmarshalError (msg : string) (partial : list T)
| Loaded (items : list T).
Arguments ReadError {T} msg.
Arguments UnmarshalError {T} msg partial.
Arguments Loaded {T} items.

Module ReadFile.

Definition prOwns (kidns kidname prns prname : string) : bool :=
  if negb (String.eqb kidns prns) then false
  else if negb (HasPrefix kidname prname) then false
  else true.

Record FileSystem := {
  prFile : string -> FileRead PipelineRun;
  trFile : string -> FileRead TaskRun;
  podFile : string -> FileRead Pod
}.

Definition parseList {T : Type} (o : RangeOracle) (what : string)
    (ignore : T -> bool) (process : T -> State -> option (Duration * State))
    (sorted : State -> State) (rows : State -> list (string * float * Z))
    (file : FileRead T) (fileName : string) (s : State) : option (Result * State) :=
  match file with
  | ReadError e =>
    Some (failed ("ERROR: problem reading file " +:+ fileName +:+ ": " +:+ e +:+ newline), s)
  | UnmarshalError e _ =>
    Some (failed ("ERROR: file " +:+ fileName +:+ " not marshalling into a "
                  +:+ what +:+ " list: " +:+ e +:+ newline), s)
  | Loaded items =>
    s ← processAll ignore process items s;
    let s := sorted s in
    Some (resultOf (rows s), s)
  end.

Definition parsePipelineRunList (o : RangeOracle) (fs : FileSystem)
    (fileName prFilter : string) (s : State) : option (Result * State) :=
  parseList o "PipelineRun" (fun pr => ignorePipelineRun pr prFilter)
    processPipelineRun (withPr sortDurations)
    (fun s => rankRows o (prDurations s) (prToDuration s) (determinePRConcurrency o s))
    (prFile fs fileName) fileName s.

Definition parseTaskRunList (o : RangeOracle) (fs : FileSystem)
    (fileName prFilter : string) (s : State) : option (Result * State) :=
  parseList o "TaskRun" (fun tr => ignoreTaskRun tr prFilter)
    processTaskRun (withTr sortDurations)
    (fun s => rankRows o (trDurations s) (trToDuration s) (determineTRConcurrency o s))
    (trFile fs fileName) fileName s.

Definition parsePodList (o : RangeOracle) (fs : FileSystem)
    (fileName prFilter : string) (s : State) : option (Result * State) :=
  parseList o "Pod" (fun pod => ignorePod pod prFilter)
    processPod (withPod sortDurations)
    (fun s => rankRows o (podDurations s) (podToDuration s) (determinePodConcurrency o s))
    (podFile fs fileName) fileName s.

(** The [Run] of the [all] command of this revision. *)
Definition ParseAllThreeLists (o : RangeOracle) (fs : FileSystem)
    (args : list string) (s : State) : option (list AggregateRow * State) :=
  match args with
  | prFileName :: trFileName :: podFileName :: _ =>
    '(r1, s) ← parsePipelineRunList o fs prFileName "" s;
    if negb (ok r1) then Some ([], writeStderr (retS r1) s)
    else
      '(r2, s) ← parseTaskRunList o fs trFileName "" s;
      if negb (ok r2) then Some ([], writeStderr (retS r2) s)
      else
        '(r3, s) ← parsePodList o fs podFileName "" s;
        if negb (ok r3) then Some ([], writeStderr (retS r3) s)
        else
          rows ← aggregateRows r1 r2 r3;
          Some (rows, s)
  | _ =>
    Some ([], writeStderr ["ERROR: not enough arguments: " +:+ cmdUse +:+ newline] s)
  end.

(** The [Run] of [prlist] of this revision: the rows written to
    [os.Stdout], the rows written to [os.Stderr], and the state it leaves.
    After the messages of a failed analysis there is no [return]: the loop
    over [retS] runs with [w = os.Stderr]. *)
Definition ParsePipelineRunList (o : RangeOracle) (fs : FileSystem)
    (args : list string) (s : State)
    : option (list (string * float * Z) * list (string * float * Z) * State) :=
  match args with
  | [] =>
    Some ([], [],
          writeStderr ["ERROR: not enough arguments: "
                       +:+ "prlist <file location> [<options>]" +:+ newline] s)
  | fileName :: _ =>
    '(r, s) ← parsePipelineRunList o fs fileName "" s;
    if negb (ok r) then
      let s := writeStderr (retS r) s in
      rows ← printRows (retS r) (retF r) (retI r);
      Some ([], rows, s)
    else
      rows ← printRows (retS r) (retF r) (retI r);
      Some (rows, [], s)
  end.

(** The [Run] of [podlist] of this revision. *)
Definition ParsePodList (o : RangeOracle) (fs : FileSystem)
    (args : list string) (s : State)
    : option (list (string * float * Z) * list (string * float * Z) * State) :=
  match args with
  | [] =>
    Some ([], [],
          writeStderr ["ERROR: not enough arguments: "
                       +:+ "podlist <file location> [<options>]" +:+ newline] s)
  | fileName :: _ =>
    '(r, s) ← parsePodList o fs fileName "" s;
    if negb (ok r) then Some ([], [], writeStderr (retS r) s)
    else
      rows ← printRows (retS r) (retF r) (retI r);
      Some (rows, [], s)
  end.

(** The [Run] of [trlist] of this revision. *)
Definition ParseTaskRunList (o : RangeOracle) (fs : FileSystem)
    (args : list string) (s : State)
    : option (list (string * float * Z) * list (string * float * Z) * State) :=
  match args with
  | [] =>
    Some ([], [],
          writeStderr ["ERROR: not enough arguments: "
                       +:+ "trlist <file location> [<options>]" +:+ newline] s)
  | fileName :: _ =>
    '(r, s) ← parseTaskRunList o fs fileName "" s;
    if negb (ok r) then Some ([], [], writeStderr (retS r) s)
    else
      rows ← printRows (retS r) (retF r) (retI r);
      Some (rows, [], s)
  end.

End ReadFile.

(** ** The revision with the analyses written inside the commands

    [main.go]: every command keeps its tables in local variables, and the
    [all] command walks pipeline run, task run and pod in nested loops. *)

Module Inline.

(** The items a command works on: it goes on after a failed read or a
    failed decoding with whatever the list holds. *)
Definition itemsOf {T : Type} (file : FileRead T) : list T :=
  match file with
  | ReadError _ => []
  | UnmarshalError _ partial => partial
  | Loaded items => items
  end.

(** The local variables of the [Run] of [all]. *)
Record Locals := {
  prToDuration : gmap string float;
  prToTaskDurations : gmap string float;
  prToPodDurations : gmap string float;
  prDurations : list float;
  prDurationsMap : list float
}.

Definition noLocals : Locals :=
  {| prToDuration := ∅; prToTaskDurations := ∅; prToPodDurations := ∅;
     prDurations := []; prDurationsMap := [] |}.

(** [x, ok = m[key]; if !ok { x = secs } else { x = x + secs }; m[key] = x]. *)
Definition accumulate (m : gmap string float) (key : string) (secs : float)
    : gmap string float :=
  match m !! key with
  | None => <[key := secs]> m
  | Some x => <[key := PrimFloat.add x secs]> m
  end.

(** The loop over the container statuses of a pod: every terminated status
    assigns [duration]. *)
Definition podDuration (start : Time) (duration : Duration)
    (statuses : list ContainerStatus) : Duration :=
  fold_left
    (fun duration status =>
       match cs_Terminated status with
       | Some terminated => Sub (FinishedAt terminated) start
       | None => duration
       end)
    statuses duration.

(** The loop over the pods, inside one task run of one pipeline run. *)
Definition podLoop (prKey : string) (tr : TaskRun) (pods : list Pod)
    (duration : Duration) (l : Locals) : Duration * Locals :=
  fold_left
    (fun '(duration, l) pod =>
       if negb (String.eqb (pod_Namespace pod) (tr_Namespace tr)) then (duration, l)
       else if negb (HasPrefix (pod_Name pod) (tr_Name tr)) then (duration, l)
       else
         match pod_StartTime pod with
         | None => (duration, l)
         | Some start =>
           if negb (terminalPhase (pod_Phase pod)) then (duration, l)
           else
             let duration := podDuration start duration (pod_ContainerStatuses pod) in
             (duration,
              {| prToDuration := prToDuration l;
                 prToTaskDurations := prToTaskDurations l;
                 prToPodDurations :=
                   accumulate (prToPodDurations l) prKey (Seconds duration);
                 prDurations := prDurations l;
                 prDurationsMap := prDurationsMap l |})
         end)
    pods (duration, l).

(** The loop over the task runs, inside one pipeline run. *)
Definition taskRunLoop (pr : PipelineRun) (prKey : string) (trs : list TaskRun)
    (pods : list Pod) (duration : Duration) (l : Locals)
    : option (Duration * Locals) :=
  fold_left
    (fun acc tr =>
       '(duration, l) ← acc;
       if negb (String.eqb (tr_Namespace tr) (pr_Namespace pr)) then Some (duration, l)
       else if negb (HasPrefix (tr_Name tr) (pr_Name pr)) then Some (duration, l)
       else if negb (tr_HasStarted tr) then Some (duration, l)
       else if negb (tr_Done tr) then Some (duration, l)
       else
         completion ← tr_CompletionTime tr;
         start ← tr_StartTime tr;
         let duration := Sub completion start in
         let l :=
           {| prToDuration := prToDuration l;
              prToTaskDurations :=
                accumulate (prToTaskDurations l) prKey (Seconds duration);
              prToPodDurations := prToPodDurations l;
              prDurations := prDurations l;
              prDurationsMap := prDurationsMap l |} in
         Some (podLoop prKey tr pods duration l))
    trs (Some (duration, l)).

(** The loop over the pipeline runs. *)
Definition pipelineRunLoop (prs : list PipelineRun) (trs : list TaskRun)
    (pods : list Pod) : option Locals :=
  fold_left
    (fun acc pr =>
       l ← acc;
       if negb (pr_HasStarted pr) then Some l
       else if negb (pr_Done pr) then Some l
       else
         let prKey := prKeyOf pr in
         completion ← pr_CompletionTime pr;
         start ← pr_StartTime pr;
         let duration := Sub completion start in
         let known := hasFloatKey (Seconds duration) (prDurationsMap l) in
         let l :=
           {| prToDuration := <[prKey := Seconds duration]> (prToDuration l);
              prToTaskDurations := prToTaskDurations l;
              prToPodDurations := prToPodDurations l;
              prDurations :=
                if known then prDurations l else prDurations l ++ [Seconds duration];
              prDurationsMap :=
                if known then prDurationsMap l
                else Seconds duration :: prDurationsMap l |} in
         snd <$> taskRunLoop pr prKey trs pods duration l)
    prs (Some noLocals).

(** One printed line: the values handed to [fmt.Fprintf]. *)
Record Line := {
  line_key : string;
  line_value : float;
  line_trDurations : float;
  line_trDelta : float;
  line_trPercent : float;
  line_podDurations : float;
  line_podDelta : float;
  line_podPercent : float
}.

Definition lineOf (l : Locals) (key : string) (value : float) : Line :=
  let trDurations := default 0%float (prToTaskDurations l !! key) in
  let podDurations := default 0%float (prToPodDurations l !! key) in
  {| line_key := key;
     line_value := value;
     line_trDurations := trDurations;
     line_trDelta := PrimFloat.sub value trDurations;
     line_trPercent := PrimFloat.div trDurations value;
     line_podDurations := podDurations;
     line_podDelta := PrimFloat.sub value podDurations;
     line_podPercent := PrimFloat.div podDurations value |}.

(** The [Run] of the [all] command: the lines written to [os.Stdout] and to
    [os.Stderr]. The bodies of its [if perr != nil], [if terr != nil] and
    [if pderr != nil] are empty. *)
Definition ParseAllThreeLists (o : RangeOracle)
    (prFile : string -> FileRead PipelineRun)
    (trFile : string -> FileRead TaskRun)
    (podFile : string -> FileRead Pod)
    (args : list string) : option (list Line * list string) :=
  match args with
  | prFileName :: trFileName :: podFileName :: _ =>
    let prList := itemsOf (prFile prFileName) in
    let trList := itemsOf (trFile trFileName) in
    let podList := itemsOf (podFile podFileName) in
    l ← pipelineRunLoop prList trList podList;
    let durations := Float64s (prDurations l) in
    Some (flat_map
            (fun duration =>
               flat_map
                 (fun '(key, value) =>
                    if PrimFloat.eqb value duration then [lineOf l key value] else [])
                 (range o (prToDuration l)))
            durations,
          [])
  | _ => Some ([], ["ERROR: not enough arguments: " +:+ cmdUse +:+ newline])
  end.

(** The local variables of the [Run] of a command that lists one kind:
    [prToDuration] ([podToDuration], [trToDuration]), [durations] and
    [durationsMap]. *)
Record ListLocals := {
  xToDuration : gmap string float;
  durations : list float;
  durationsMap : list float
}.

Definition noListLocals : ListLocals :=
  {| xToDuration := ∅; durations := []; durationsMap := [] |}.

(** [xToDuration[key] = secs; if _, ok := durationsMap[secs]; !ok { ... }]. *)
Definition recordDuration (key : string) (secs : float) (l : ListLocals)
    : ListLocals :=
  let known := hasFloatKey secs (durationsMap l) in
  {| xToDuration := <[key := secs]> (xToDuration l);
     durations := if known then durations l else durations l ++ [secs];
     durationsMap := if known then durationsMap l else secs :: durationsMap l |}.

(** The lines a list command prints, as the key and the value handed to
    [fmt.Fprintf]. *)
Definition printed (o : RangeOracle) (l : ListLocals) : list (string * float) :=
  flat_map
    (fun duration =>
       flat_map
         (fun '(key, value) =>
            if PrimFloat.eqb value duration then [(key, value)] else [])
         (range o (xToDuration l)))
    (Float64s (durations l)).

(** What a list command does with its file: a message and [return] when it
    cannot be read or decoded, the loops otherwise. *)
Definition listCommand {T : Type} (o : RangeOracle) (use what : string)
    (loop : list T -> option ListLocals) (file : string -> FileRead T)
    (args : list string) : option (list (string * float) * list string) :=
  match args with
  | [] => Some ([], ["ERROR: not enough arguments: " +:+ use +:+ newline])
  | fileName :: _ =>
    match file fileName with
    | ReadError e =>
      Some ([], ["ERROR: problem reading file " +:+ fileName +:+ ": " +:+ e +:+ newline])
    | UnmarshalError e _ =>
      Some ([], ["ERROR: file " +:+ fileName +:+ " not marshalling into a "
                 +:+ what +:+ " list: " +:+ e +:+ newline])
    | Loaded items =>
      l ← loop items;
      Some (printed o l, [])
    end
  end.

Definition prListLoop (prs : list PipelineRun) : option ListLocals :=
  fold_left
    (fun acc pr =>
       l ← acc;
       if negb (pr_HasStarted pr) then Some l
       else if negb (pr_Done pr) then Some l
       else
         completion ← pr_CompletionTime pr;
         start ← pr_StartTime pr;
         let duration := Sub completion start in
         Some (recordDuration (prKeyOf pr) (Seconds duration) l))
    prs (Some noListLocals).

Definition trListLoop (trs : list TaskRun) : option ListLocals :=
  fold_left
    (fun acc tr =>
       l ← acc;
       if negb (tr_HasStarted tr) then Some l
       else if negb (tr_Done tr) then Some l
       else
         completion ← tr_CompletionTime tr;
         start ← tr_StartTime tr;
         let duration := Sub completion start in
         Some (recordDuration (trKeyOf tr) (Seconds duration) l))
    trs (Some noListLocals).

Definition podListLoop (pods : list Pod) : option ListLocals :=
  fold_left
    (fun acc pod =>
       l ← acc;
       match pod_StartTime pod with
       | None => Some l
       | Some start =>
         if negb (terminalPhase (pod_Phase pod)) then Some l
         else
           let duration := podDuration start 0 (pod_ContainerStatuses pod) in
           Some (recordDuration (podKeyOf pod) (Seconds duration) l)
       end)
    pods (Some noListLocals).

(** The [Run] of [prlist], of [podlist] and of [trlist]: the lines written
    to [os.Stdout] and to [os.Stderr]. *)
Definition ParsePipelineRunList (o : RangeOracle)
    (prFile : string -> FileRead PipelineRun) (args : list string) :=
  listCommand o "prlist <file location> [<options>]" "PipelineRun" prListLoop
              prFile args.

Definition ParsePodList (o : RangeOracle)
    (podFile : string -> FileRead Pod) (args : list string) :=
  listCommand o "podlist <file location> [<options>]" "Pod" podListLoop
              podFile args.

Definition ParseTaskRunList (o : RangeOracle)
    (trFile : string -> FileRead TaskRun) (args : list string) :=
  listCommand o "trlist <file location> [<options>]" "TaskRun" trListLoop
              trFile args.

End Inline.

(** ** Range orders and sample data *)

(** The range order that yields the entries as [map_to_list] lists them. *)
Program Definition inOrder : RangeOracle :=
  {| range_order := fun _ l => l |}.
Next Obligation. reflexivity. Qed.

(** The range order that yields them backwards. *)
Program Definition backwards : RangeOracle :=
  {| range_order := fun _ l => rev l |}.
Next Obligation. intros. symmetry. apply Permutation_rev. Qed.

Definition seconds (n : Z) : Time := n * Second.

Definition tektonLabels : gmap string string :=
  {["tekton.dev/pipelineRun" := "run-1"]}.

Definition mkPR (ns name : string) (start finish : Z) : PipelineRun :=
  {| pr_Kind := "PipelineRun"; pr_Namespace := ns; pr_Name := name;
     pr_StartTime := Some (seconds start);
     pr_CompletionTime := Some (seconds finish); pr_Done := true |}.

Definition mkTR (ns name : string) (start finish : Z) : TaskRun :=
  {| tr_Kind := "TaskRun"; tr_Namespace := ns; tr_Name := name;
     tr_StartTime := Some (seconds start);
     tr_CompletionTime := Some (seconds finish); tr_Done := true |}.

Definition terminatedAt (name : string) (start finish : Z) : ContainerStatus :=
  {| cs_Name := name;
     cs_Terminated := Some {| StartedAt := seconds start; FinishedAt := seconds finish |} |}.

Definition waiting (name : string) : ContainerStatus :=
  {| cs_Name := name; cs_Terminated := None |}.

Definition mkPod (ns name : string) (start : Z) (spec : list string)
    (statuses : list ContainerStatus) : Pod :=
  {| pod_Kind := "Pod"; pod_Namespace := ns; pod_Name := name;
     pod_Labels := tektonLabels; pod_SpecContainers := spec;
     pod_StartTime := Some (seconds start); pod_Phase := PodSucceeded;
     pod_ContainerStatuses := statuses |}.

(** A tree with one file per kind. *)
Definition oneFile {T : Type} (items : list T) : FileTree T :=
  fun _ => [Decoded items].

(** * Vocabulary of the properties *)

Local Set Warnings "-inexact-float".

(** ** Keys *)

(** A colon-free string: what a Kubernetes namespace name is. *)
Fixpoint colonFree (s : string) : bool :=
  match s with
  | EmptyString => true
  | String c s' => negb (Ascii.eqb c ":"%char) && colonFree s'
  end.

(** ** Concurrency counts *)

(** Whether the loop of [innerConcurrency] for [key] counts the entry [e]
    of [starts]. *)
Definition counted (key : string) (starts ends : gmap string Time)
    (e : string * Time) : bool :=
  negb (String.eqb e.1 key)
  && countsAgainst (timeAt starts key) (timeAt ends key) e.2 (timeAt ends e.1).

Fixpoint tally {A : Type} (f : A -> bool) (l : list A) : Z :=
  match l with
  | [] => 0
  | x :: l' => (if f x then 1 else 0) + tally f l'
  end.

(** The windows [(s1, e1)] and [(s2, e2)] are disjoint. *)
Definition disjoint (s1 e1 s2 e2 : Time) : Prop := e1 <= s2 \/ e2 <= s1.

(** ** Child totals *)

(** The rows of a result whose key has the key of the parent as a prefix:
    the matched children. *)
Definition matched (prkey : string) (rows : list (string * float * Z))
    : list (string * float * Z) :=
  List.filter (fun r => HasPrefix r.1.1 prkey) rows.

Definition durationsOf (rows : list (string * float * Z)) : list float :=
  (fun r => r.1.2) <$> rows.
Definition concurrenciesOf (rows : list (string * float * Z)) : list Z :=
  (fun r => r.2) <$> rows.

(** The sum of durations, added up from zero in the order of the rows. *)
Definition sumDurations (l : list float) : float :=
  fold_left PrimFloat.add l 0%float.

(** The maximum of concurrency values, [0] when there is none. *)
Definition maxConcurrency (l : list Z) : Z := fold_left Z.max l 0.

(** What the loop over the pods leaves in [maxPodConcurrency]. *)
Definition podConcurrencyFold (l : list Z) : Z :=
  fold_left
    (fun m c => let m' := wrap64 (m + c) in if c >? m' then c else m') l 0.

Definition childLoop (g : float -> Z -> float -> Z -> float * Z) (prkey : string)
    (F : list float) (I : list Z) (keys : list (nat * string))
    (acc : option (float * Z)) : option (float * Z) :=
  fold_left
    (fun acc '(ii, key) =>
       '(total, top) ← acc;
       if negb (HasPrefix key prkey) then Some (total, top)
       else f ← F !! ii; c ← I !! ii; Some (g total top f c))
    keys acc.

Definition childSpec (g : float -> Z -> float -> Z -> float * Z) (prkey : string)
    (rows : list (string * float * Z)) (a : float * Z) : float * Z :=
  fold_left (fun a r => g a.1 a.2 r.1.2 r.2) (matched prkey rows) a.

Definition trUpdate (total : float) (top : Z) (f : float) (c : Z) : float * Z :=
  (PrimFloat.add total f, if c >? top then c else top).

Definition podUpdate (total : float) (top : Z) (f : float) (c : Z) : float * Z :=
  (PrimFloat.add total f,
   let top' := wrap64 (top + c) in if c >? top' then c else top').

Definition sumZ (l : list Z) : Z := fold_left Z.add l 0.

(** The line of the report for the parent row [p], in the words of the
    specification: child totals are sums over the matched children, the
    delta is the parent duration minus the child total, the percentage is
    the child total divided by the parent duration. The last field of each
    half is what the code reports as the maximum of the child concurrency. *)
Definition attribution (rows2 rows3 : list (string * float * Z))
    (p : string * float * Z) : AggregateRow :=
  let '(prkey, D, C) := p in
  let trTotal := sumDurations (durationsOf (matched prkey rows2)) in
  let podTotal := sumDurations (durationsOf (matched prkey rows3)) in
  {| row_prkey := prkey;
     row_prDuration := D;
     row_prConcurency := C;
     row_totalTRDuration := trTotal;
     row_trDelta := PrimFloat.sub D trTotal;
     row_trPercent := PrimFloat.div trTotal D;
     row_maxTRConcurrency := maxConcurrency (concurrenciesOf (matched prkey rows2));
     row_totalPodDuration := podTotal;
     row_podDelta := PrimFloat.sub D podTotal;
     row_podPercent := PrimFloat.div podTotal D;
     row_maxPodConcurrency :=
       podConcurrencyFold (concurrenciesOf (matched prkey rows3)) |}.

(** The task run half of a line. *)
Definition trHalf (row : AggregateRow) : string * float * float * float * float :=
  (row_prkey row, row_prDuration row, row_totalTRDuration row,
   row_trDelta row, row_trPercent row).

Definition trHalfInline (l : Inline.Line) : string * float * float * float * float :=
  (Inline.line_key l, Inline.line_value l, Inline.line_trDurations l,
   Inline.line_trDelta l, Inline.line_trPercent l).

Definition maxHalves (row : AggregateRow) : string * Z * Z :=
  (row_prkey row, row_maxTRConcurrency row, row_maxPodConcurrency row).

(** ** Container statuses of a pod *)

(** The [finishedAt] of the terminated statuses, in their order. *)
Definition finishedAts (statuses : list ContainerStatus) : list Time :=
  omap (fun status => FinishedAt <$> cs_Terminated status) statuses.


(** ** float64 values *)

(** The position of a value on the extended real line: the class (minus
    infinity, negative, zero, positive, plus infinity), then the exponent
    and the mantissa, both negated for a negative value. *)
Definition orderKey (f : spec_float) : option (Z * Z * Z) :=
  match f with
  | S754_nan => None
  | S754_zero _ => Some (0, 0, 0)
  | S754_infinity false => Some (2, 0, 0)
  | S754_infinity true => Some (-2, 0, 0)
  | S754_finite false m e => Some (1, e, Zpos m)
  | S754_finite true m e => Some (-1, - e, Zneg m)
  end.

Definition floatKey (x : float) : option (Z * Z * Z) := orderKey (Prim2SF x).

Definition lexLt (k1 k2 : Z * Z * Z) : Prop :=
  k1.1.1 < k2.1.1
  \/ (k1.1.1 = k2.1.1 /\ (k1.1.2 < k2.1.2 \/ (k1.1.2 = k2.1.2 /\ k1.2 < k2.2))).

Definition lexCompare (k1 k2 : Z * Z * Z) : comparison :=
  match k1.1.1 ?= k2.1.1 with
  | Eq => match k1.1.2 ?= k2.1.2 with
          | Eq => k1.2 ?= k2.2
          | c => c
          end
  | c => c
  end.

(** A value that is not NaN, with the sign [s]. *)
Definition signed (s : bool) (f : spec_float) : Prop :=
  match f with
  | S754_nan => False
  | S754_zero s' | S754_infinity s' | S754_finite s' _ _ => s' = s
  end.

Definition isNumber (x : float) : Prop := PrimFloat.is_nan x = false.

(** [x <= y] between numbers. *)
Definition floatLe (x y : float) : Prop :=
  exists kx ky, floatKey x = Some kx /\ floatKey y = Some ky
                /\ (kx = ky \/ lexLt kx ky).

Definition floatLt (x y : float) : Prop := PrimFloat.ltb x y = true.

(** ** Tables and entries *)

(** [v] is [==] to a member of [ds]. *)
Definition knownTo (ds : list float) (v : float) : Prop :=
  exists d, d ∈ ds /\ PrimFloat.eqb v d = true.

(** What holds of the tables of a kind whenever the program is between two
    statements of a [parseXList]: the distinct durations are numbers, no two
    of them are [==], the slice and the set hold the same values, and the
    duration of every key is [==] to one of them. *)
Record TablesOK (t : Tables) : Prop := {
  ok_numbers : Forall isNumber (Durations t);
  ok_distinct : NoDup (floatKey <$> Durations t);
  ok_set : Permutation (Durations t) (DurationsMap t);
  ok_known : forall k v, ToDuration t !! k = Some v -> knownTo (Durations t) v
}.

(** A key with its window [(start, end)]. *)
Abbreviation Entry := (string * (Time * Time))%type.

Definition entrySeconds (e : Entry) : float := Seconds (Sub e.2.2 e.2.1).

Definition recordEntry (t : Tables) (e : Entry) : Tables :=
  recordInterval e.1 e.2.1 e.2.2 (entrySeconds e) t.

Definition recordAll (es : list Entry) (t : Tables) : Tables :=
  fold_left recordEntry es t.

Definition prEntry (pr : PipelineRun) : option Entry :=
  completion ← pr_CompletionTime pr;
  start ← pr_StartTime pr;
  Some (prKeyOf pr, (start, completion)).

Definition trEntry (tr : TaskRun) : option Entry :=
  completion ← tr_CompletionTime tr;
  start ← tr_StartTime tr;
  Some (trKeyOf tr, (start, completion)).

Definition podEntry (pod : Pod) : option Entry :=
  start ← pod_StartTime pod;
  Some (podKeyOf pod, (start, terminatedTimeOf (pod_ContainerStatuses pod))).

(** The entries of the items that pass the filter, in their order. *)
Definition entriesOf {T : Type} (ignore : T -> bool) (entry : T -> option Entry)
    (items : list T) : list Entry :=
  omap (fun x => if ignore x then None else entry x) items.

(** Every item that passes the filter carries the timestamps [processX]
    dereferences. *)
Definition complete {T : Type} (ignore : T -> bool) (entry : T -> option Entry)
    (items : list T) : Prop :=
  forall x, x ∈ items -> ignore x = false -> is_Some (entry x).

(** The items a walk hands on: the decoded items of the wanted kind, file
    after file. *)
Definition walkedItems {T : Type} (kindOf : T -> string) (kind : string)
    (entries : list (WalkEntry T)) : list T :=
  flat_map
    (fun e => match e with
              | Decoded l => filter (fun item => String.eqb (kindOf item) kind = true) l
              | _ => []
              end)
    entries.

(** The rows of a result, side by side. *)
Definition rowsOf (r : Result) : list (string * float * Z) :=
  zip (zip (retS r) (retF r)) (retI r).

(** The groups the emission loops emit, one for each distinct duration. *)
Definition groupsOf (o : RangeOracle) (ds : list float) (m : gmap string float)
    (conc : string -> Z) : list (list (string * float * Z)) :=
  (fun d => rankRows o [d] m conc) <$> ds.

(** The seconds [processPipelineRun] measures for a pipeline run. *)
Definition prSeconds (pr : PipelineRun) : option float := entrySeconds <$> prEntry pr.

Definition keysAndDurations (r : Result * State) : list string * list float :=
  (retS r.1, retF r.1).

(** ** Sample dumps *)

(** Two pipeline runs that start and complete within the same second. *)
Definition instantRuns : list PipelineRun :=
  [mkPR "ns" "a" 63800000000 63800000000; mkPR "ns" "b" 63800000000 63800000000].

(** A dump with a pipeline run of 100 seconds that owns task runs of 30 and
    40 seconds and two pods of 10 seconds that do not overlap, and a
    pipeline run of 10 seconds whose task run is measured at 30 seconds. *)
Definition samplePRs : list PipelineRun :=
  [mkPR "ns" "build" 63800000000 63800000100;
   mkPR "ns" "quick" 63800000200 63800000210].
Definition sampleTRs : list TaskRun :=
  [mkTR "ns" "build-a" 63800000000 63800000030;
   mkTR "ns" "build-b" 63800000050 63800000090;
   mkTR "ns" "quick-a" 63800000200 63800000230].
Definition samplePods : list Pod :=
  [mkPod "ns" "build-a-pod" 63800000000 ["step"] [terminatedAt "step" 63800000001 63800000010];
   mkPod "ns" "build-b-pod" 63800000050 ["step"] [terminatedAt "step" 63800000051 63800000060]].

Definition sampleFS : FileSystem :=
  {| statOf := fun _ => inr false;
     prFiles := oneFile samplePRs;
     trFiles := oneFile sampleTRs;
     podFiles := oneFile samplePods |}.

Definition sampleArgs : list string := ["prs.json"; "trs.json"; "pods.json"].

(** A pod whose first declared container finishes after the second one. *)
Definition sidecarPod : Pod :=
  mkPod "ns" "build-a-pod" 63800000000 ["sidecar"; "step"]
        [terminatedAt "sidecar" 63800000001 63800000050;
         terminatedAt "step" 63800000001 63800000020].


Definition twoStepPod : Pod :=
  mkPod "ns" "p" 63800000000 ["init"; "app"]
        [terminatedAt "init" 63800000000 63800000005;
         terminatedAt "app" 63800000000 63800000012].

(** A failed pod whose first container never reached the [Terminated]
    state, while the second ran from second 3 to second 12. *)
Definition evictedPod : Pod :=
  {| pod_Kind := "Pod"; pod_Namespace := "ns"; pod_Name := "p";
     pod_Labels := tektonLabels; pod_SpecContainers := ["init"; "app"];
     pod_StartTime := Some (seconds 63800000000); pod_Phase := PodFailed;
     pod_ContainerStatuses :=
       [waiting "init"; terminatedAt "app" 63800000003 63800000012] |}.

(** Two dumps: the first one holds the pipeline run [ns:build], the second
    one the pipeline run [ns:quick]. *)
Definition twoDumps : FileTree PipelineRun :=
  fun fileName =>
    if String.eqb fileName "first.json"
    then [Decoded [mkPR "ns" "build" 63800000000 63800000100]]
    else [Decoded [mkPR "ns" "quick" 63800000200 63800000210]].

Definition unreadable {T : Type} : string -> FileRead T :=
  fun _ => ReadError "open trs.json: no such file or directory".

Definition missingTaskRuns : FileSystem :=
  {| statOf := fun _ => inr false;
     prFiles := oneFile samplePRs;
     trFiles := fun _ => [WalkErr "lstat trs.json: no such file or directory"];
     podFiles := oneFile samplePods |}.

(** ** Invariants of the tables *)

(** The start, end and duration tables of a kind hold the same keys, and
    the duration of a key is the seconds from its start to its end. *)
Definition consistent (t : Tables) : Prop :=
  forall k,
    (is_Some (StartTimes t !! k) <-> is_Some (ToDuration t !! k))
    /\ (is_Some (EndTimes t !! k) <-> is_Some (ToDuration t !! k))
    /\ (forall s e v,
           StartTimes t !! k = Some s -> EndTimes t !! k = Some e ->
           ToDuration t !! k = Some v -> v = Seconds (Sub e s)).

(** What the five tables of a kind satisfy between any two statements of
    the analyses: no distinct duration is NaN, no two of them are [==], the
    slice and the set of distinct durations hold the same values, the
    duration of every key is [==] to one of them, and the three maps are
    [consistent]. *)
Definition tablesInvariant (t : Tables) : Prop :=
  Forall isNumber (Durations t)
  /\ (forall i j x y,
         Durations t !! i = Some x -> Durations t !! j = Some y ->
         PrimFloat.eqb x y = true -> i = j)
  /\ Permutation (Durations t) (DurationsMap t)
  /\ (forall k v, ToDuration t !! k = Some v -> knownTo (Durations t) v)
  /\ consistent t.

Definition stateInvariant (s : State) : Prop :=
  tablesInvariant (prTables s) /\ tablesInvariant (trTables s)
  /\ tablesInvariant (podTables s) /\ tablesInvariant (containerTables s).

(** ** Walks *)

(** The lines a walk writes to [os.Stderr]: one for every path
    [filepath.Walk] could not visit and one for every file that could not
    be read, in the order of the walk. *)
Definition walkMessages {T : Type} (entries : list (WalkEntry T)) : list string :=
  flat_map
    (fun e => match e with
              | WalkErr msg => ["filepath walk error: " +:+ msg +:+ newline]
              | Unreadable path msg =>
                ["problem reading " +:+ path +:+ ": " +:+ msg +:+ newline]
              | _ => []
              end)
    entries.

(** ** Range orders *)

(** Two outcomes of an analysis that differ at most in the order of the
    rows within a group of [==] durations: either both panic, or they leave
    the same state and return the same groups in the same order, each
    group of the one an arrangement of the group of the other. *)
Definition sameUpToOrder (a b : option (Result * State)) : Prop :=
  match a, b with
  | Some (r1, s1), Some (r2, s2) =>
    s1 = s2 /\ ok r1 = ok r2
    /\ exists groups1 groups2,
        rowsOf r1 = concat groups1 /\ rowsOf r2 = concat groups2
        /\ Forall2 Permutation groups1 groups2
        /\ Forall (fun g => forall x y : string * float * Z,
                       x ∈ g -> y ∈ g -> PrimFloat.eqb x.1.2 y.1.2 = true)
                  groups1
  | None, None => True
  | _, _ => False
  end.

(** ** Local and package-level tables *)

(** What the package-level tables of a kind hold of the local variables of
    a list command of the first revision. *)
Definition localsOf (t : Tables) : Inline.ListLocals :=
  {| Inline.xToDuration := ToDuration t;
     Inline.durations := Durations t;
     Inline.durationsMap := DurationsMap t |}.

(** The key and the duration of a row. *)
Definition keyAndDuration (row : string * float * Z) : string * float :=
  (row.1.1, row.1.2).

(** ** Growth of the tables *)



(** ** Containers *)

(** The key and the window [processContainers] records for a status, when
    it is in the [Terminated] state. *)
Definition containerEntry (pod : Pod) (cstatus : ContainerStatus) : option Entry :=
  terminated ← cs_Terminated cstatus;
  window ← containerWindow pod cstatus terminated;
  Some (containerKeyOf pod (cs_Name cstatus), window).

(** The entries of the statuses of the pods that pass the filter, pod
    after pod and status after status. *)
Definition containerEntries (ignore : Pod -> bool) (pods : list Pod) : list Entry :=
  flat_map
    (fun pod =>
       if ignore pod then []
       else omap (containerEntry pod) (pod_ContainerStatuses pod))
    pods.

(** The variables as the program initialises them, with
    [--containers-only] given. *)
Definition containersOnly : State :=
  {| prTables := emptyTables; trTables := emptyTables;
     podTables := emptyTables; containerTables := emptyTables;
     containerOnly := true; stderr := [] |}.

(** ** The pod half of a line, and dumps around one pipeline run *)

(** The pod half of a line. *)
Definition podHalf (row : AggregateRow) : string * float * float * float * float :=
  (row_prkey row, row_prDuration row, row_totalPodDuration row,
   row_podDelta row, row_podPercent row).

Definition podHalfInline (l : Inline.Line) : string * float * float * float * float :=
  (Inline.line_key l, Inline.line_value l, Inline.line_podDurations l,
   Inline.line_podDelta l, Inline.line_podPercent l).

(** In a line of the command with nested loops, both deltas are the
    duration of the pipeline run minus the total and both percentages the
    total divided by that duration. *)
Definition deltasAndPercentages (l : Inline.Line) : Prop :=
  Inline.line_trDelta l = PrimFloat.sub (Inline.line_value l) (Inline.line_trDurations l)
  /\ Inline.line_trPercent l
     = PrimFloat.div (Inline.line_trDurations l) (Inline.line_value l)
  /\ Inline.line_podDelta l
     = PrimFloat.sub (Inline.line_value l) (Inline.line_podDurations l)
  /\ Inline.line_podPercent l
     = PrimFloat.div (Inline.line_podDurations l) (Inline.line_value l).

(** One pipeline run of 100 seconds. *)
Definition onePipelineRun : list PipelineRun :=
  [mkPR "ns" "build" 63800000000 63800000100].

(** Two task runs of it, of 30 and 40 seconds, the name of the first a
    prefix of the name of the second. *)
Definition prefixedTRs : list TaskRun :=
  [mkTR "ns" "build-a" 63800000000 63800000030;
   mkTR "ns" "build-a2" 63800000050 63800000090].

(** The one pod, of the second task run: 10 seconds. *)
Definition sharedPod : list Pod :=
  [mkPod "ns" "build-a2-pod" 63800000050 ["step"]
         [terminatedAt "step" 63800000051 63800000060]].

(** A succeeded pod of the task run [build-a] with no status in the
    [Terminated] state. *)
Definition stuckChild : list Pod :=
  [mkPod "ns" "build-a-pod" 63800000000 ["step"] [waiting "step"]].

(** Three files, one per kind. *)
Definition dumpOf (prs : list PipelineRun) (trs : list TaskRun) (pods : list Pod)
    : FileSystem :=
  {| statOf := fun _ => inr false;
     prFiles := oneFile prs; trFiles := oneFile trs; podFiles := oneFile pods |}.

(** * Properties *)

(** ** Strings and keys *)

Section Strings.

Implicit Types s p a rest : string.

Lemma append_cons c s p : String c s +:+ p = String c (s +:+ p).
Proof. reflexivity. Qed.

Lemma append_assoc s p rest : (s +:+ p) +:+ rest = s +:+ (p +:+ rest).
Proof.
  induction s as [|c s IH]; [reflexivity|].
  rewrite !append_cons. now f_equal.
Qed.


Lemma HasPrefix_inv s p : HasPrefix s p = true -> exists rest, s = p +:+ rest.
Proof.
  unfold HasPrefix. revert s. induction p as [|c p IH]; intros s H.
  - now exists s.
  - destruct s as [|d s]; simpl in H; [discriminate|].
    destruct (Ascii.ascii_dec c d) as [->|]; [|discriminate].
    destruct (IH s H) as [rest ->]. now exists rest.
Qed.


(** A common front part is skipped by the test. *)
Lemma HasPrefix_skip a s p : HasPrefix (a +:+ s) (a +:+ p) = HasPrefix s p.
Proof.
  unfold HasPrefix. induction a as [|c a IH]; simpl; [reflexivity|].
  destruct (Ascii.ascii_dec c c) as [_|ne]; [exact IH | now destruct ne].
Qed.

Lemma HasPrefix_keyOf ns kid parent :
  HasPrefix (keyOf ns kid) (keyOf ns parent) = HasPrefix kid parent.
Proof.
  unfold keyOf. rewrite HasPrefix_skip. apply (HasPrefix_skip ":").
Qed.

Lemma String_eqb_true s p : String.eqb s p = true <-> s = p.
Proof. apply String.eqb_eq. Qed.

End Strings.

(** ** Ownership *)

(** The part of a key before its first colon is its namespace. *)
Lemma colonFree_split ns1 ns2 x y :
  colonFree ns1 = true -> colonFree ns2 = true ->
  ns1 +:+ String ":" x = ns2 +:+ String ":" y -> ns1 = ns2.
Proof.
  revert ns2. induction ns1 as [|c ns1 IH]; intros [|d ns2] H1 H2 E;
    simpl in *; try reflexivity.
  - injection E as <- _. rewrite Ascii.eqb_refl in H2. discriminate.
  - injection E as -> _. rewrite Ascii.eqb_refl in H1. discriminate.
  - injection E as -> E.
    apply andb_prop in H1 as [_ H1]. apply andb_prop in H2 as [_ H2].
    f_equal. now apply IH with (2 := H2).
Qed.

(** Over keys, two keys agree up to the end of the shorter one only when
    their colon-free namespaces are equal. *)
Lemma HasPrefix_keys_namespace ns1 ns2 kid parent :
  colonFree ns1 = true -> colonFree ns2 = true ->
  HasPrefix (keyOf ns1 kid) (keyOf ns2 parent) = true -> ns1 = ns2.
Proof.
  intros H1 H2 H. apply HasPrefix_inv in H as [rest E].
  unfold keyOf in E. rewrite append_assoc in E.
  exact (colonFree_split ns1 ns2 kid (parent +:+ rest) H1 H2 E).
Qed.

(** The test of the [all] command on keys is [prOwns] on the names, for
    namespaces without a colon. *)
Lemma HasPrefix_keys_prOwns kidns kidname prns prname :
  colonFree kidns = true -> colonFree prns = true ->
  HasPrefix (keyOf kidns kidname) (keyOf prns prname)
  = ReadFile.prOwns kidns kidname prns prname.
Proof.
  intros H1 H2. unfold ReadFile.prOwns.
  destruct (String.eqb kidns prns) eqn:E; simpl.
  - apply String.eqb_eq in E as ->. rewrite HasPrefix_keyOf.
    now destruct (HasPrefix kidname prname).
  - apply String.eqb_neq in E.
    destruct (HasPrefix (keyOf kidns kidname) (keyOf prns prname)) eqn:P; [|reflexivity].
    destruct E. eapply HasPrefix_keys_namespace; eassumption.
Qed.


(** ** Concurrency *)

Section Tally.

Context {A : Type} (f : A -> bool).

Lemma tally_nonneg l : 0 <= tally f l.
Proof. induction l as [|x l IH]; simpl; [lia|]. destruct (f x); lia. Qed.

Lemma tally_Permutation l l' : Permutation l l' -> tally f l = tally f l'.
Proof.
  induction 1 as [|x l l' _ IH|x y l|l l' l'' _ IH1 _ IH2]; simpl; lia.
Qed.

Lemma tally_ext (g : A -> bool) l :
  (forall x, x ∈ l -> f x = g x) -> tally f l = tally g l.
Proof.
  induction l as [|x l IH]; intros H; simpl; [reflexivity|].
  rewrite (H x) by left. rewrite IH; [reflexivity|].
  intros y Hy. apply H. now right.
Qed.

End Tally.

Lemma innerConcurrency_fold key st en ends (l : list (string * Time)) total :
  fold_left
    (fun total '(k, start) =>
       if String.eqb k key then total
       else if countsAgainst st en start (timeAt ends k) then total + 1
       else total) l total
  = total + tally (fun e => negb (String.eqb e.1 key)
                            && countsAgainst st en e.2 (timeAt ends e.1)) l.
Proof.
  revert total. induction l as [|[k start] l IH]; intros total; simpl; [lia|].
  rewrite IH. destruct (String.eqb k key); simpl; [lia|].
  destruct (countsAgainst st en start (timeAt ends k)); lia.
Qed.

(** The count does not depend on the order of the range: it is one plus the
    number of other entries the test accepts. *)
Lemma innerConcurrency_tally o key starts ends :
  innerConcurrency o key starts ends
  = 1 + tally (counted key starts ends) (map_to_list starts).
Proof.
  unfold innerConcurrency. rewrite innerConcurrency_fold. f_equal.
  apply tally_Permutation, range_order_perm.
Qed.

(** [concurrency(key) >= 1]. *)
Lemma innerConcurrency_positive o key starts ends :
  1 <= innerConcurrency o key starts ends.
Proof.
  rewrite innerConcurrency_tally.
  pose proof (tally_nonneg (counted key starts ends) (map_to_list starts)). lia.
Qed.

(** Windows that are disjoint and are not one and the same window fail
    the test, whichever of the two is the one looked at. *)
Lemma countsAgainst_disjoint s1 e1 s2 e2 :
  disjoint s1 e1 s2 e2 -> ~ (s1 = s2 /\ e1 = e2) ->
  countsAgainst s1 e1 s2 e2 = false /\ countsAgainst s2 e2 s1 e1 = false.
Proof.
  unfold disjoint, countsAgainst, Equal, Before, After. intros D N.
  split.
  - destruct (Z.eqb_spec s2 s1), (Z.eqb_spec e2 e1); simpl;
      try (exfalso; apply N; split; congruence);
      apply andb_false_iff; rewrite !Z.ltb_ge; lia.
  - destruct (Z.eqb_spec s1 s2), (Z.eqb_spec e1 e2); simpl;
      try (exfalso; apply N; split; congruence);
      apply andb_false_iff; rewrite !Z.ltb_ge; lia.
Qed.

(** Taking an entry that is not counted out of the tables leaves the count
    of another key as it was. *)
Lemma innerConcurrency_delete o key other starts ends start :
  other <> key -> starts !! other = Some start ->
  counted key starts ends (other, start) = false ->
  innerConcurrency o key starts ends
  = innerConcurrency o key (delete other starts) (delete other ends).
Proof.
  intros Hne Hin Hc. rewrite !innerConcurrency_tally. f_equal.
  rewrite <- (tally_Permutation _ _ _ (map_to_list_delete starts other start Hin)).
  simpl. rewrite Hc. simpl. apply tally_ext.
  intros [k t] Hk. apply elem_of_map_to_list in Hk.
  unfold counted, timeAt. simpl.
  rewrite !(lookup_delete_ne _ other key) by exact Hne.
  destruct (decide (k = other)) as [->|Hk'].
  - rewrite lookup_delete_eq in Hk. discriminate.
  - now rewrite (lookup_delete_ne ends other k) by congruence.
Qed.

(** C6, as the code has it. Two entries with disjoint windows
    ([A.end <= B.start] or [B.end <= A.start], the boundary included) that
    are not one and the same window do not count for each other: the
    concurrency of each is what it is with the other taken out of the
    tables. *)
Theorem disjoint_windows_not_counted (o : RangeOracle) (A B : string)
    (starts ends : gmap string Time) (sA eA sB eB : Time) :
  A <> B ->
  starts !! A = Some sA -> ends !! A = Some eA ->
  starts !! B = Some sB -> ends !! B = Some eB ->
  disjoint sA eA sB eB -> ~ (sA = sB /\ eA = eB) ->
  innerConcurrency o A starts ends
  = innerConcurrency o A (delete B starts) (delete B ends)
  /\ innerConcurrency o B starts ends
     = innerConcurrency o B (delete A starts) (delete A ends).
Proof.
  intros Hne HsA HeA HsB HeB D N.
  destruct (countsAgainst_disjoint sA eA sB eB D N) as [C1 C2].
  split.
  - apply innerConcurrency_delete with (start := sB); [congruence|assumption|].
    unfold counted, timeAt. simpl. rewrite HsA, HeA, HeB. simpl.
    rewrite C1. apply andb_false_r.
  - apply innerConcurrency_delete with (start := sA); [congruence|assumption|].
    unfold counted, timeAt. simpl. rewrite HsB, HeB, HeA. simpl.
    rewrite C2. apply andb_false_r.
Qed.

Lemma disjoint_windows_not_counted_witness :
  let starts : gmap string Time := {["ns:a" := 0; "ns:b" := 10]} in
  let ends : gmap string Time := {["ns:a" := 10; "ns:b" := 15]} in
  innerConcurrency inOrder "ns:a" starts ends
  = innerConcurrency inOrder "ns:a" (delete "ns:b" starts) (delete "ns:b" ends)
  /\ innerConcurrency inOrder "ns:b" starts ends
     = innerConcurrency inOrder "ns:b" (delete "ns:a" starts) (delete "ns:a" ends).
Proof.
  intros starts ends.
  apply (disjoint_windows_not_counted inOrder "ns:a" "ns:b" starts ends 0 10 10 15).
  - discriminate.
  - reflexivity.
  - reflexivity.
  - reflexivity.
  - reflexivity.
  - left. reflexivity.
  - intros [H _]. discriminate H.
Defined.

(** C6 as stated fails: two runs whose windows are the same instant are
    disjoint by the boundary rule, and each counts the other. *)
Lemma identical_instants_are_counted :
  let t := seconds 63800000000 in
  let starts : gmap string Time := {["ns:a" := t; "ns:b" := t]} in
  let ends : gmap string Time := {["ns:a" := t; "ns:b" := t]} in
  disjoint t t t t
  /\ innerConcurrency inOrder "ns:a" starts ends = 2
  /\ innerConcurrency inOrder "ns:a" (delete "ns:b" starts) (delete "ns:b" ends) = 1
  /\ (retI ∘ fst <$> parsePipelineRunList inOrder (oneFile instantRuns) "prs" "" initState)
     = Some [2; 2].
Proof.
  intros t starts ends. split; [left; unfold t; lia|].
  split; [vm_compute; reflexivity|]. split; vm_compute; reflexivity.
Qed.

(** ** Aggregation *)

Section ChildLoop.

(** The two loops over the children differ in the update [g] only. *)
Variable g : float -> Z -> float -> Z -> float * Z.
Variable prkey : string.

Lemma childLoop_rows (pre rows : list (string * float * Z)) (a : float * Z) :
  childLoop g prkey (durationsOf (pre ++ rows)) (concurrenciesOf (pre ++ rows))
            (imap (fun i x => ((length pre + i)%nat, x)) ((fun r => r.1.1) <$> rows))
            (Some a)
  = Some (childSpec g prkey rows a).
Proof.
  revert pre a. induction rows as [|r rows IH]; intros pre a; [reflexivity|].
  unfold childLoop, childSpec, matched in *. simpl. destruct a as [total top]. simpl.
  destruct (HasPrefix r.1.1 prkey) eqn:P; simpl.
  - unfold durationsOf, concurrenciesOf.
    rewrite !fmap_app, !fmap_cons.
    rewrite !lookup_app_r by (rewrite length_fmap; lia).
    rewrite !length_fmap, Nat.add_0_r, Nat.sub_diag. simpl.
    specialize (IH (pre ++ [r]) (g total top r.1.2 r.2)).
    rewrite <- app_assoc in IH. simpl in IH.
    unfold durationsOf, concurrenciesOf in IH.
    rewrite !fmap_app, !fmap_cons in IH.
    rewrite <- IH. f_equal. apply imap_ext. intros i x _. simpl.
    rewrite length_app. simpl. f_equal. lia.
  - specialize (IH (pre ++ [r]) (total, top)).
    rewrite <- app_assoc in IH. simpl in IH.
    rewrite <- IH. f_equal. apply imap_ext. intros i x _. simpl.
    rewrite length_app. simpl. f_equal. lia.
Qed.

End ChildLoop.

Lemma taskRunTotals_childLoop prkey r2 :
  taskRunTotals prkey r2
  = childLoop trUpdate prkey (retF r2) (retI r2) (indexed (retS r2)) (Some (0%float, 0)).
Proof. reflexivity. Qed.

Lemma podTotals_childLoop prkey r3 :
  podTotals prkey r3
  = childLoop podUpdate prkey (retF r3) (retI r3) (indexed (retS r3)) (Some (0%float, 0)).
Proof. reflexivity. Qed.

Lemma childSpec_trUpdate prkey rows total top :
  childSpec trUpdate prkey rows (total, top)
  = (fold_left PrimFloat.add (durationsOf (matched prkey rows)) total,
     fold_left Z.max (concurrenciesOf (matched prkey rows)) top).
Proof.
  unfold childSpec. generalize (matched prkey rows) as l. intros l.
  revert total top. induction l as [|r l IH]; intros total top; [reflexivity|].
  simpl. unfold trUpdate at 2. simpl. rewrite IH. f_equal. f_equal.
  destruct (Z.gtb_spec r.2 top); lia.
Qed.

Lemma childSpec_podUpdate prkey rows total top :
  childSpec podUpdate prkey rows (total, top)
  = (fold_left PrimFloat.add (durationsOf (matched prkey rows)) total,
     fold_left (fun m c => let m' := wrap64 (m + c) in if c >? m' then c else m')
               (concurrenciesOf (matched prkey rows)) top).
Proof.
  unfold childSpec. generalize (matched prkey rows) as l. intros l.
  revert total top. induction l as [|r l IH]; intros total top; [reflexivity|].
  simpl. unfold podUpdate at 2. simpl. now rewrite IH.
Qed.

(** The totals of the task runs under a parent: the sum of the durations
    and the maximum of the concurrency values of the matched rows. *)
Lemma taskRunTotals_rows prkey rows :
  taskRunTotals prkey (resultOf rows)
  = Some (sumDurations (durationsOf (matched prkey rows)),
          maxConcurrency (concurrenciesOf (matched prkey rows))).
Proof.
  rewrite taskRunTotals_childLoop. unfold sumDurations, maxConcurrency.
  rewrite <- childSpec_trUpdate. apply (childLoop_rows trUpdate prkey [] rows).
Qed.

(** The totals of the pods under a parent: the sum of the durations, and
    what the loop makes of the concurrency values. *)
Lemma podTotals_rows prkey rows :
  podTotals prkey (resultOf rows)
  = Some (sumDurations (durationsOf (matched prkey rows)),
          podConcurrencyFold (concurrenciesOf (matched prkey rows))).
Proof.
  rewrite podTotals_childLoop. unfold sumDurations, podConcurrencyFold.
  rewrite <- childSpec_podUpdate. apply (childLoop_rows podUpdate prkey [] rows).
Qed.

Lemma wrap64_small z : - 2 ^ 63 <= z < 2 ^ 63 -> wrap64 z = z.
Proof.
  intros H. unfold wrap64. rewrite Z.mod_small; lia.
Qed.

Lemma fold_add_nonneg l a : Forall (fun c => 0 <= c) l -> 0 <= a -> a <= fold_left Z.add l a.
Proof.
  revert a. induction l as [|c l IH]; intros a H Ha; simpl; [lia|].
  inversion H as [|? ? Hc Hl]; subst.
  specialize (IH (a + c) Hl). lia.
Qed.

Lemma podFold_sum l a :
  0 <= a -> Forall (fun c => 0 <= c) l -> fold_left Z.add l a < 2 ^ 63 ->
  fold_left (fun m c => let m' := wrap64 (m + c) in if c >? m' then c else m') l a
  = fold_left Z.add l a.
Proof.
  revert a. induction l as [|c l IH]; intros a Ha H B; [reflexivity|]. simpl in *.
  inversion H as [|? ? Hc Hl]; subst.
  pose proof (fold_add_nonneg l (a + c) Hl ltac:(lia)).
  rewrite wrap64_small by lia.
  destruct (Z.gtb_spec c (a + c)); [lia|].
  apply IH; [lia|assumption|assumption].
Qed.

(** On concurrency values, which are positive, and as long as the sum fits
    an [int], the loop over the pods adds the values up. *)
Lemma podConcurrencyFold_sum l :
  Forall (fun c => 0 <= c) l -> sumZ l < 2 ^ 63 ->
  podConcurrencyFold l = sumZ l.
Proof. intros H B. apply podFold_sum; [lia|assumption|assumption]. Qed.

Lemma aggregateRow_rows rows1 rows2 rows3 i prkey D C :
  rows1 !! i = Some (prkey, D, C) ->
  aggregateRow (resultOf rows1) (resultOf rows2) (resultOf rows3) i prkey
  = Some (attribution rows2 rows3 (prkey, D, C)).
Proof.
  intros H. unfold aggregateRow.
  rewrite taskRunTotals_rows, podTotals_rows. simpl.
  rewrite !list_lookup_fmap, H. reflexivity.
Qed.

(** The loop of the [all] command over the rows of the pipeline runs never
    indexes out of range, and prints one line per row. *)
Lemma aggregateRows_rows rows1 rows2 rows3 :
  aggregateRows (resultOf rows1) (resultOf rows2) (resultOf rows3)
  = Some (attribution rows2 rows3 <$> rows1).
Proof.
  unfold aggregateRows. apply mapM_Some.
  apply Forall2_same_length_lookup_2.
  - unfold indexed. simpl. rewrite length_imap, !length_fmap. reflexivity.
  - intros i [j prkey] row Hi Hrow. unfold indexed in Hi. simpl in Hi.
    rewrite list_lookup_imap in Hi.
    rewrite list_lookup_fmap in Hi. rewrite list_lookup_fmap in Hrow.
    destruct (rows1 !! i) as [[[k D] C]|] eqn:E; [|discriminate].
    simpl in Hi, Hrow. injection Hi as <- <-. injection Hrow as <-.
    now apply aggregateRow_rows.
Qed.

(** The lines of the command with nested loops are made by [lineOf]. *)
Lemma Inline_lines_deltas o prFile trFile podFile args lines err :
  Inline.ParseAllThreeLists o prFile trFile podFile args = Some (lines, err) ->
  Forall deltasAndPercentages lines.
Proof.
  unfold Inline.ParseAllThreeLists.
  destruct args as [|a0 [|a1 [|a2 rest]]]; try (intros [= <- _]; constructor).
  destruct (Inline.pipelineRunLoop _ _ _) as [l|]; simpl; [|discriminate].
  intros [= <- _]. apply Forall_forall. intros line H.
  apply list_elem_of_In, in_flat_map in H as (d & _ & H).
  apply in_flat_map in H as ([k v] & _ & H).
  destruct (PrimFloat.eqb v d); [|inversion H].
  destruct H as [<-|[]]. repeat split.
Qed.

(** C7. In the [all] command on tables every row of the pipeline run
    result gets one line of the report; its child total is the sum of the
    durations of the matched children, its delta the parent duration minus
    the child total, whatever the sign, and its percentage the child total
    divided by the parent duration: a parent of 100 seconds with children
    of 30 and 40 seconds is reported with 70, 30 and 0.70, a parent of 10
    seconds with a child of 30 seconds with a delta of -20. The [all]
    command with nested loops computes deltas and percentages in the same
    way, and reports 70, 30 and 0.70 for the task runs of the example; but
    its pod total is not the sum of the durations of the matched pods. The
    one pod [build-a2-pod] of 10 seconds is added under the task run
    [build-a] and again under the task run [build-a2]: 20 seconds are
    reported, where the command on tables reports 10. And a pod without a
    terminated status, which the [podlist] command of the same revision
    measures at 0 seconds, is added with the 30 seconds of its task run. *)
Theorem child_total_delta_percentage :
  (forall rows1 rows2 rows3 : list (string * float * Z),
      exists out,
        aggregateRows (resultOf rows1) (resultOf rows2) (resultOf rows3) = Some out
        /\ length out = length rows1
        /\ forall i prkey D C,
            rows1 !! i = Some (prkey, D, C) ->
            exists row,
              out !! i = Some row
              /\ row_prkey row = prkey /\ row_prDuration row = D
              /\ row_totalTRDuration row
                 = sumDurations (durationsOf (matched prkey rows2))
              /\ row_trDelta row = PrimFloat.sub D (row_totalTRDuration row)
              /\ row_trPercent row = PrimFloat.div (row_totalTRDuration row) D
              /\ row_totalPodDuration row
                 = sumDurations (durationsOf (matched prkey rows3))
              /\ row_podDelta row = PrimFloat.sub D (row_totalPodDuration row)
              /\ row_podPercent row = PrimFloat.div (row_totalPodDuration row) D)
  /\ ((fun r : list AggregateRow * State => trHalf <$> r.1)
        <$> ParseAllThreeLists inOrder sampleFS sampleArgs initState)
     = Some [("ns:quick", 10, 30, -20, 3); ("ns:build", 100, 70, 30, 0.7)]%float
  /\ ((fun r : list Inline.Line * list string => trHalfInline <$> r.1)
        <$> Inline.ParseAllThreeLists inOrder (fun _ => Loaded samplePRs)
              (fun _ => Loaded sampleTRs) (fun _ => Loaded samplePods) sampleArgs)
     = Some [("ns:quick", 10, 30, -20, 3); ("ns:build", 100, 70, 30, 0.7)]%float
  /\ (forall o prFile trFile podFile args lines err,
         Inline.ParseAllThreeLists o prFile trFile podFile args = Some (lines, err) ->
         Forall deltasAndPercentages lines)
  /\ Inline.ParsePodList inOrder (fun _ => Loaded sharedPod) ["pods.json"]
     = Some ([("ns:build-a2-pod", 10%float)], [])
  /\ ((fun r : list Inline.Line * list string =>
         (trHalfInline <$> r.1, podHalfInline <$> r.1))
        <$> Inline.ParseAllThreeLists inOrder (fun _ => Loaded onePipelineRun)
              (fun _ => Loaded prefixedTRs) (fun _ => Loaded sharedPod) sampleArgs)
     = Some ([("ns:build", 100, 70, 30, 0.7)], [("ns:build", 100, 20, 80, 0.2)])%float
  /\ ((fun r : list AggregateRow * State => (trHalf <$> r.1, podHalf <$> r.1))
        <$> ParseAllThreeLists inOrder (dumpOf onePipelineRun prefixedTRs sharedPod)
              sampleArgs initState)
     = Some ([("ns:build", 100, 70, 30, 0.7)], [("ns:build", 100, 10, 90, 0.1)])%float
  /\ ((fun r : list AggregateRow * State => podHalf <$> r.1)
        <$> ReadFile.ParseAllThreeLists inOrder
              {| ReadFile.prFile := fun _ => Loaded onePipelineRun;
                 ReadFile.trFile := fun _ => Loaded prefixedTRs;
                 ReadFile.podFile := fun _ => Loaded sharedPod |}
              sampleArgs initState)
     = Some [("ns:build", 100, 10, 90, 0.1)]%float
  /\ Inline.ParsePodList inOrder (fun _ => Loaded stuckChild) ["pods.json"]
     = Some ([("ns:build-a-pod", 0%float)], [])
  /\ ((fun r : list Inline.Line * list string => podHalfInline <$> r.1)
        <$> Inline.ParseAllThreeLists inOrder (fun _ => Loaded onePipelineRun)
              (fun _ => Loaded [mkTR "ns" "build-a" 63800000000 63800000030])
              (fun _ => Loaded stuckChild) sampleArgs)
     = Some [("ns:build", 100, 30, 70, 0.3)]%float.
Proof.
  split.
  { intros rows1 rows2 rows3. exists (attribution rows2 rows3 <$> rows1).
    split; [apply aggregateRows_rows|]. split; [apply length_fmap|].
    intros i prkey D C H. exists (attribution rows2 rows3 (prkey, D, C)).
    split; [now rewrite list_lookup_fmap, H|].
    simpl. repeat split; reflexivity. }
  split; [vm_compute; reflexivity|].
  split; [vm_compute; reflexivity|].
  split; [exact Inline_lines_deltas|].
  split; [vm_compute; reflexivity|].
  split; [vm_compute; reflexivity|].
  split; [vm_compute; reflexivity|].
  split; [vm_compute; reflexivity|].
  split; vm_compute; reflexivity.
Qed.

(** ** Maximum child concurrency *)

Lemma fold_max_bounds l a :
  a <= fold_left Z.max l a
  /\ (forall c, c ∈ l -> c <= fold_left Z.max l a)
  /\ (fold_left Z.max l a = a \/ fold_left Z.max l a ∈ l).
Proof.
  revert a. induction l as [|x l IH]; intros a; simpl.
  - split; [lia|]. split; [|now left]. intros c H. inversion H.
  - destruct (IH (Z.max a x)) as (B & U & W). split; [lia|]. split.
    + intros c H. inversion H; subst; [lia|]. now apply U.
    + destruct W as [W|W]; [|right; now right].
      rewrite W. destruct (Z.max_spec a x) as [[_ ->]|[_ ->]];
        [right; left|now left].
Qed.

(** [maxConcurrency] is the maximum: [0] for no value, and otherwise an
    upper bound that is [0] or one of the values. *)
Lemma maxConcurrency_spec l :
  maxConcurrency [] = 0
  /\ (forall c, c ∈ l -> c <= maxConcurrency l)
  /\ (maxConcurrency l = 0 \/ maxConcurrency l ∈ l).
Proof.
  split; [reflexivity|]. destruct (fold_max_bounds l 0) as (_ & U & W).
  now split.
Qed.

(** For the task runs the line of the report carries the maximum of the
    concurrency values of the matched children. *)
Lemma maxTRConcurrency_is_max rows1 rows2 rows3 :
  exists out,
    aggregateRows (resultOf rows1) (resultOf rows2) (resultOf rows3) = Some out
    /\ forall i prkey D C,
        rows1 !! i = Some (prkey, D, C) ->
        (row_maxTRConcurrency <$> out !! i)
        = Some (maxConcurrency (concurrenciesOf (matched prkey rows2))).
Proof.
  exists (attribution rows2 rows3 <$> rows1). split; [apply aggregateRows_rows|].
  intros i prkey D C H. now rewrite list_lookup_fmap, H.
Qed.

Lemma fold_add_shift l a : fold_left Z.add l a = a + sumZ l.
Proof.
  unfold sumZ. revert a. induction l as [|c l IH]; intros a; [simpl; lia|].
  change (fold_left Z.add l (a + c) = a + fold_left Z.add l (0 + c)).
  rewrite (IH (a + c)), (IH (0 + c)). lia.
Qed.

Lemma sumZ_cons c l : sumZ (c :: l) = c + sumZ l.
Proof. unfold sumZ. simpl. apply fold_add_shift. Qed.

Lemma sumZ_matched_le prkey rows :
  Forall (fun c => 0 <= c) (concurrenciesOf rows) ->
  Forall (fun c => 0 <= c) (concurrenciesOf (matched prkey rows))
  /\ sumZ (concurrenciesOf (matched prkey rows)) <= sumZ (concurrenciesOf rows).
Proof.
  unfold concurrenciesOf, matched.
  induction rows as [|r rows IH]; intros H; simpl; [split; [constructor|lia]|].
  rewrite fmap_cons in H. inversion H as [|? ? Hr Hrest]; subst.
  destruct (IH Hrest) as [IH1 IH2].
  destruct (HasPrefix r.1.1 prkey); simpl.
  - split; [now constructor|]. rewrite !sumZ_cons.
    apply Z.add_le_mono_l. exact IH2.
  - split; [assumption|]. rewrite sumZ_cons.
    etransitivity; [exact IH2|]. apply Z.le_sub_le_add_r. now rewrite Z.sub_diag.
Qed.

(** For the pods it carries the sum of the concurrency values of the
    matched children, as long as the sum fits an [int]. *)
Lemma maxPodConcurrency_is_sum rows1 rows2 rows3 :
  Forall (fun c => 0 <= c) (concurrenciesOf rows3) ->
  sumZ (concurrenciesOf rows3) < 2 ^ 63 ->
  exists out,
    aggregateRows (resultOf rows1) (resultOf rows2) (resultOf rows3) = Some out
    /\ forall i prkey D C,
        rows1 !! i = Some (prkey, D, C) ->
        (row_maxPodConcurrency <$> out !! i)
        = Some (sumZ (concurrenciesOf (matched prkey rows3))).
Proof.
  intros Hpos Hsum.
  exists (attribution rows2 rows3 <$> rows1). split; [apply aggregateRows_rows|].
  intros i prkey D C H. rewrite list_lookup_fmap, H. simpl. f_equal.
  destruct (sumZ_matched_le prkey rows3 Hpos) as [Hm Hle].
  apply podConcurrencyFold_sum; [exact Hm|lia].
Qed.

(** C1 at a failing input. The two pods of [ns:build] do not overlap, so each
    has concurrency 1 and the maximum is 1, and the report says 2; for its
    two task runs, which do not overlap either, it says 1. The revision
    that reads one file per kind reports the same. *)
Theorem pod_max_concurrency_sums_up :
  ((fun r : Result * State => (retS r.1, retI r.1))
     <$> parsePodList inOrder (oneFile samplePods) "pods.json" "" initState)
  = Some (["ns:build-a-pod"; "ns:build-b-pod"], [1; 1])
  /\ ((fun r : list AggregateRow * State => maxHalves <$> r.1)
        <$> ParseAllThreeLists inOrder sampleFS sampleArgs initState)
     = Some [("ns:quick", 1, 0); ("ns:build", 1, 2)]
  /\ ((fun r : list AggregateRow * State => maxHalves <$> r.1)
        <$> ReadFile.ParseAllThreeLists inOrder
              {| ReadFile.prFile := fun _ => Loaded samplePRs;
                 ReadFile.trFile := fun _ => Loaded sampleTRs;
                 ReadFile.podFile := fun _ => Loaded samplePods |}
              sampleArgs initState)
     = Some [("ns:quick", 1, 0); ("ns:build", 1, 2)].
Proof. repeat split; vm_compute; reflexivity. Qed.

(** ** The end of a pod *)

Lemma terminatedTimeOf_fold statuses t :
  fold_left laterFinish statuses t = fold_left Z.max (finishedAts statuses) t.
Proof.
  revert t. induction statuses as [|status statuses IH]; intros t; [reflexivity|].
  simpl. rewrite IH. unfold finishedAts. simpl. unfold laterFinish, After.
  destruct (cs_Terminated status) as [terminated|]; simpl; [|reflexivity].
  f_equal. destruct (Z.ltb_spec t (FinishedAt terminated)); lia.
Qed.

Lemma fold_max_Permutation l l' a :
  Permutation l l' -> fold_left Z.max l a = fold_left Z.max l' a.
Proof.
  intros P. revert a.
  induction P as [|x l l' _ IH|x y l|l l' l'' _ IH1 _ IH2]; intros a; simpl.
  - reflexivity.
  - apply IH.
  - f_equal. lia.
  - now rewrite IH1.
Qed.

(** The end [processPod] extracts is an upper bound of every [finishedAt]
    of a terminated status, and is the zero time or one of them; it is one
    of them, the latest, as soon as one is not before the zero time. It
    does not depend on the order of the statuses. *)
Lemma terminatedTimeOf_latest statuses :
  (forall f, f ∈ finishedAts statuses -> f <= terminatedTimeOf statuses)
  /\ (terminatedTimeOf statuses = zeroTime
      \/ terminatedTimeOf statuses ∈ finishedAts statuses)
  /\ ((exists f, f ∈ finishedAts statuses /\ zeroTime <= f) ->
      terminatedTimeOf statuses ∈ finishedAts statuses)
  /\ (forall statuses', Permutation statuses statuses' ->
      terminatedTimeOf statuses' = terminatedTimeOf statuses).
Proof.
  unfold terminatedTimeOf. rewrite terminatedTimeOf_fold.
  destruct (fold_max_bounds (finishedAts statuses) zeroTime) as (B & U & W).
  split; [exact U|]. split; [exact W|]. split.
  - intros (f & Hf & Hpos). destruct W as [W|W]; [|exact W].
    pose proof (U f Hf) as Hle. rewrite W in Hle |- *.
    assert (f = zeroTime) as <- by lia. exact Hf.
  - intros statuses' P. rewrite terminatedTimeOf_fold.
    symmetry. apply fold_max_Permutation.
    unfold finishedAts. now apply omap_Permutation.
Qed.

(** What [processPod] records for a pod: its end is [terminatedTimeOf], its
    duration the seconds from its start to that end. *)
Lemma processPod_records pod s start :
  pod_StartTime pod = Some start ->
  exists s',
    processPod pod s
    = Some (Sub (terminatedTimeOf (pod_ContainerStatuses pod)) start, s')
    /\ podStartTimes s' !! podKeyOf pod = Some start
    /\ podEndTimes s' !! podKeyOf pod
       = Some (terminatedTimeOf (pod_ContainerStatuses pod))
    /\ podToDuration s' !! podKeyOf pod
       = Some (Seconds (Sub (terminatedTimeOf (pod_ContainerStatuses pod)) start)).
Proof.
  intros H. unfold processPod. rewrite H. simpl. eexists. split; [reflexivity|].
  unfold podStartTimes, podEndTimes, podToDuration. simpl.
  now rewrite !lookup_insert_eq.
Qed.

(** C3 at a failing input. For a pod whose statuses are declared as
    [sidecar] (finished 50 seconds after the start of the pod) and [step]
    (finished 20 seconds after it), [processPod] measures 50 seconds, in
    this order of the statuses and in the other one, and the pod analysis
    reports 50; the [all] command with nested loops takes the status
    declared last and reports 20 seconds of pods. *)
Theorem nested_loops_take_last_status :
  (fst <$> processPod sidecarPod initState) = Some (seconds 50)
  /\ terminatedTimeOf (rev (pod_ContainerStatuses sidecarPod))
     = terminatedTimeOf (pod_ContainerStatuses sidecarPod)
  /\ ((fun r : Result * State => retF r.1)
        <$> parsePodList inOrder (oneFile [sidecarPod]) "pods.json" "" initState)
     = Some [50%float]
  /\ Inline.podDuration (seconds 63800000000) 0 (pod_ContainerStatuses sidecarPod)
     = seconds 20
  /\ ((fun r : list Inline.Line * list string =>
         (fun l => (Inline.line_key l, Inline.line_podDurations l)) <$> r.1)
        <$> Inline.ParseAllThreeLists inOrder (fun _ => Loaded samplePRs)
              (fun _ => Loaded sampleTRs) (fun _ => Loaded [sidecarPod]) sampleArgs)
     = Some [("ns:quick", 0%float); ("ns:build", 20%float)].
Proof. repeat split; vm_compute; reflexivity. Qed.

(** ** float64 comparisons *)

Lemma SFcompare_orderKey f1 f2 :
  SFcompare f1 f2
  = match orderKey f1, orderKey f2 with
    | Some k1, Some k2 => Some (lexCompare k1 k2)
    | _, _ => None
    end.
Proof.
  destruct f1 as [s1|s1| |s1 m1 e1], f2 as [s2|s2| |s2 m2 e2];
    try destruct s1; try destruct s2; try reflexivity.
  - simpl. unfold lexCompare. simpl.
    rewrite Z.compare_opp, (Z.compare_antisym e1 e2).
    destruct (e1 ?= e2); reflexivity.
Qed.

Lemma lexCompare_Eq k1 k2 : lexCompare k1 k2 = Eq <-> k1 = k2.
Proof.
  destruct k1 as [[a b] c], k2 as [[a' b'] c']. unfold lexCompare. simpl.
  destruct (Z.compare_spec a a'), (Z.compare_spec b b'), (Z.compare_spec c c');
    split; intros G; try discriminate; try reflexivity;
    try (injection G; intros; lia); subst; reflexivity.
Qed.

Lemma lexCompare_Lt k1 k2 : lexCompare k1 k2 = Lt <-> lexLt k1 k2.
Proof.
  destruct k1 as [[a b] c], k2 as [[a' b'] c']. unfold lexCompare, lexLt. simpl.
  destruct (Z.compare_spec a a'), (Z.compare_spec b b'), (Z.compare_spec c c');
    split; intros G; try discriminate; try reflexivity; try lia.
Qed.

Lemma eqb_floatKey x y :
  PrimFloat.eqb x y = true <-> exists k, floatKey x = Some k /\ floatKey y = Some k.
Proof.
  rewrite FloatAxioms.eqb_spec. unfold SFeqb, floatKey. rewrite SFcompare_orderKey.
  destruct (orderKey (Prim2SF x)) as [k1|], (orderKey (Prim2SF y)) as [k2|].
  - destruct (lexCompare k1 k2) eqn:E.
    + apply lexCompare_Eq in E as ->. split; [eauto|reflexivity].
    + split; [discriminate|]. intros (k & [= ->] & [= ->]).
      assert (lexCompare k k = Eq) by now apply lexCompare_Eq. congruence.
    + split; [discriminate|]. intros (k & [= ->] & [= ->]).
      assert (lexCompare k k = Eq) by now apply lexCompare_Eq. congruence.
  - split; [discriminate|]. now intros (k & _ & ?).
  - split; [discriminate|]. now intros (k & ? & _).
  - split; [discriminate|]. now intros (k & ? & _).
Qed.

Lemma ltb_floatKey x y :
  PrimFloat.ltb x y = true
  <-> exists k1 k2, floatKey x = Some k1 /\ floatKey y = Some k2 /\ lexLt k1 k2.
Proof.
  rewrite FloatAxioms.ltb_spec. unfold SFltb, floatKey. rewrite SFcompare_orderKey.
  destruct (orderKey (Prim2SF x)) as [k1|], (orderKey (Prim2SF y)) as [k2|].
  - destruct (lexCompare k1 k2) eqn:E.
    + split; [discriminate|]. intros (? & ? & [= <-] & [= <-] & L).
      apply lexCompare_Lt in L. congruence.
    + apply lexCompare_Lt in E. split; [eauto 6|reflexivity].
    + split; [discriminate|]. intros (? & ? & [= <-] & [= <-] & L).
      apply lexCompare_Lt in L. congruence.
  - split; [discriminate|]. now intros (? & ? & _ & ? & _).
  - split; [discriminate|]. now intros (? & ? & ? & _).
  - split; [discriminate|]. now intros (? & ? & ? & _).
Qed.

Lemma is_nan_floatKey x : PrimFloat.is_nan x = false <-> is_Some (floatKey x).
Proof.
  unfold PrimFloat.is_nan. rewrite negb_false_iff, eqb_floatKey. split.
  - intros (k & H & _). eauto.
  - intros [k H]. eauto.
Qed.

(** ** [Seconds] is a number *)

Section Rounding.

Variables prec emax : Z.

Lemma shr_1_nonneg mrs : 0 <= shr_m mrs -> 0 <= shr_m (shr_1 mrs).
Proof.
  destruct mrs as [m r s]. simpl. intros H.
  destruct m as [|[p|p|]|p]; simpl; lia.
Qed.

Lemma iter_pos_shr_1_nonneg p mrs :
  0 <= shr_m mrs -> 0 <= shr_m (SpecFloat.iter_pos shr_1 p mrs).
Proof.
  revert mrs. induction p as [p IH|p IH|]; intros mrs H; simpl.
  - apply IH, IH. now apply shr_1_nonneg.
  - now apply IH, IH.
  - now apply shr_1_nonneg.
Qed.

Lemma shr_fexp_nonneg m e l :
  0 <= m -> 0 <= shr_m (shr_fexp prec emax m e l).1.
Proof.
  intros H. unfold shr_fexp, shr.
  assert (0 <= shr_m (shr_record_of_loc m l)) by (destruct l as [|[]]; exact H).
  destruct (fexp prec emax (Zdigits2 m + e) - e); simpl; try assumption.
  now apply iter_pos_shr_1_nonneg.
Qed.

Lemma round_nearest_even_nonneg m l : 0 <= m -> 0 <= round_nearest_even m l.
Proof.
  intros H. destruct l as [|[]]; simpl; try lia. destruct (Z.even m); lia.
Qed.

Lemma binary_round_aux_signed sx mx ex lx :
  0 <= mx -> signed sx (binary_round_aux prec emax sx mx ex lx).
Proof.
  intros H. unfold binary_round_aux.
  pose proof (shr_fexp_nonneg mx ex lx H) as H1.
  destruct (shr_fexp prec emax mx ex lx) as [mrs' e']. simpl in H1.
  pose proof (shr_fexp_nonneg _ e' loc_Exact
                (round_nearest_even_nonneg _ (loc_of_shr_record mrs') H1)) as H2.
  destruct (shr_fexp prec emax _ e' loc_Exact) as [mrs'' e'']. simpl in H2.
  destruct (shr_m mrs'') as [|m|m]; simpl; [reflexivity| |lia].
  destruct (e'' <=? emax - prec); reflexivity.
Qed.

Lemma binary_round_signed sx mx ex : signed sx (binary_round prec emax sx mx ex).
Proof.
  unfold binary_round. destruct (shl_align _ _ _) as [mz ez].
  apply binary_round_aux_signed. lia.
Qed.

Lemma binary_normalize_nonneg m e :
  0 <= m -> signed false (binary_normalize prec emax m e false).
Proof.
  intros H. destruct m as [|m|m]; simpl; [reflexivity| |lia].
  apply binary_round_signed.
Qed.

Lemma SFopp_signed s f : signed s f -> signed (negb s) (SFopp f).
Proof. destruct f; simpl; congruence. Qed.

(** A quotient by a positive finite value keeps the sign. *)
Lemma SFdiv_signed s f my ey :
  signed s f -> signed s (SFdiv prec emax f (S754_finite false my ey)).
Proof.
  destruct f as [s'|s'| |s' mx ex]; simpl; intros H; try contradiction; subst.
  - apply xorb_false_r.
  - apply xorb_false_r.
  - rewrite xorb_false_r. unfold SFdiv_core_binary.
    set (m' := match _ with Z0 => Z.pos mx | Z.pos _ => _ | Z.neg _ => 0 end).
    assert (Hm : 0 <= m').
    { unfold m'. destruct (_ - _); try lia. apply Z.shiftl_nonneg. lia. }
    pose proof (Z_div_mod m' (Z.pos my) ltac:(lia)) as D.
    destruct (Z.div_eucl m' (Z.pos my)) as [q r].
    apply binary_round_aux_signed. nia.
Qed.

(** A sum is NaN for two infinities of opposite signs only. *)
Lemma SFadd_signed s1 s2 f1 f2 :
  signed s1 f1 -> signed s2 f2 ->
  (s1 = s2 \/ f1 = S754_zero s1 \/ f2 = S754_zero s2) ->
  SFadd prec emax f1 f2 <> S754_nan.
Proof.
  destruct f1 as [a|a| |a m1 e1], f2 as [b|b| |b m2 e2]; simpl;
    intros H1 H2 H; try contradiction; subst; try discriminate.
  - destruct s1, s2; discriminate.
  - destruct H as [->|[H|H]]; try discriminate. destruct s2; discriminate.
  - intros N.
    set (m := cond_Zopp s1 _ + cond_Zopp s2 _) in N.
    pose proof (binary_round_signed false) as P.
    pose proof (binary_round_signed true) as Q.
    destruct m as [|m|m]; simpl in N; [discriminate| |].
    + specialize (P m (Z.min e1 e2)). now rewrite N in P.
    + specialize (Q m (Z.min e1 e2)). now rewrite N in Q.
Qed.

End Rounding.

Lemma of_uint63_signed n : signed false (Prim2SF (PrimFloat.of_uint63 n)).
Proof.
  rewrite FloatAxioms.of_uint63_spec. apply binary_normalize_nonneg.
  apply Uint63.to_Z_bounded.
Qed.

Lemma float64_of_int_signed z : signed (z <? 0) (Prim2SF (float64_of_int z)).
Proof.
  unfold float64_of_int. destruct (z <? 0).
  - rewrite FloatAxioms.opp_spec. apply (SFopp_signed false), of_uint63_signed.
  - apply of_uint63_signed.
Qed.

Lemma not_nan_Prim2SF x : Prim2SF x <> S754_nan -> PrimFloat.is_nan x = false.
Proof.
  intros H. apply is_nan_floatKey. unfold floatKey.
  destruct (Prim2SF x) as [s|s| |s m e]; try destruct s; simpl; eauto.
  now destruct H.
Qed.

(** [d.Seconds()] is never NaN. *)
Lemma Seconds_not_nan d : PrimFloat.is_nan (Seconds d) = false.
Proof.
  apply not_nan_Prim2SF. unfold Seconds. rewrite FloatAxioms.add_spec, FloatAxioms.div_spec.
  assert (E : exists m e, Prim2SF 1e9%float = S754_finite false m e)
    by (eexists _, _; vm_compute; reflexivity).
  destruct E as (m & e & ->).
  set (sec := Z.quot d Second). set (nsec := Z.rem d Second).
  apply SFadd_signed with (s1 := sec <? 0) (s2 := nsec <? 0).
  - apply float64_of_int_signed.
  - apply SFdiv_signed, float64_of_int_signed.
  - assert (Hs : Second <> 0) by discriminate.
    destruct (Z.ltb_spec sec 0) as [Hsec|Hsec], (Z.ltb_spec nsec 0) as [Hn|Hn];
      try (now left); right.
    + right. assert (nsec = 0) as ->.
      { destruct (Z.le_gt_cases 0 d) as [Hd|Hd].
        - pose proof (Z.quot_pos d Second Hd ltac:(unfold Second; lia)).
          unfold sec in Hsec. lia.
        - pose proof (Z.rem_nonpos d Second Hs ltac:(lia)). unfold nsec in *. lia. }
      reflexivity.
    + left. assert (sec = 0) as ->.
      { destruct (Z.le_gt_cases 0 d) as [Hd|Hd].
        - pose proof (Z.rem_nonneg d Second Hs Hd). unfold nsec in Hn. lia.
        - assert (Hq : Z.quot d Second = - Z.quot (- d) Second).
          { rewrite Z.quot_opp_l by exact Hs. lia. }
          pose proof (Z.quot_pos (- d) Second ltac:(lia) ltac:(unfold Second; lia)).
          unfold sec in *. lia. }
      reflexivity.
Qed.

(** ** The order of float64 values that are numbers *)

Lemma isNumber_floatKey x : isNumber x -> exists k, floatKey x = Some k.
Proof. intros H. now apply is_nan_floatKey in H as [k H]; eauto. Qed.

Lemma eqb_refl_number x : isNumber x -> PrimFloat.eqb x x = true.
Proof. intros [k H]%isNumber_floatKey. apply eqb_floatKey. eauto. Qed.

Lemma eqb_sym x y : PrimFloat.eqb x y = true -> PrimFloat.eqb y x = true.
Proof. rewrite !eqb_floatKey. intros (k & ? & ?). eauto. Qed.

Lemma eqb_trans x y z :
  PrimFloat.eqb x y = true -> PrimFloat.eqb y z = true -> PrimFloat.eqb x z = true.
Proof.
  rewrite !eqb_floatKey. intros (k & Hx & Hy) (k' & Hy' & Hz).
  exists k. split; congruence.
Qed.

Lemma eqb_false_keys x y kx ky :
  floatKey x = Some kx -> floatKey y = Some ky ->
  PrimFloat.eqb x y = false <-> kx <> ky.
Proof.
  intros Hx Hy. rewrite <- not_true_iff_false, eqb_floatKey. split.
  - intros N ->. apply N. eauto.
  - intros N (k & ? & ?). congruence.
Qed.

Lemma lexLt_trichotomy k1 k2 : lexLt k1 k2 \/ k1 = k2 \/ lexLt k2 k1.
Proof.
  destruct k1 as [[a b] c], k2 as [[a' b'] c']. unfold lexLt. simpl.
  destruct (Z.lt_trichotomy a a') as [?|[->|?]]; [lia| |lia].
  destruct (Z.lt_trichotomy b b') as [?|[->|?]]; [lia| |lia].
  destruct (Z.lt_trichotomy c c') as [?|[->|?]]; [lia| |lia].
  right. now left.
Qed.

Lemma lexLt_trans k1 k2 k3 : lexLt k1 k2 -> lexLt k2 k3 -> lexLt k1 k3.
Proof. unfold lexLt. lia. Qed.

Lemma lexLt_irrefl k : ~ lexLt k k.
Proof. unfold lexLt. lia. Qed.

Lemma floatLe_trans x y z : floatLe x y -> floatLe y z -> floatLe x z.
Proof.
  intros (kx & ky & Hx & Hy & H1) (ky' & kz & Hy' & Hz & H2).
  assert (ky' = ky) as -> by congruence.
  exists kx, kz. split; [assumption|]. split; [assumption|].
  destruct H1 as [->|H1], H2 as [<-|H2]; auto.
  right. eapply lexLt_trans; eassumption.
Qed.

(** The test of the sort between numbers. *)
Lemma float64Less_true x y :
  isNumber x -> float64Less x y = true -> floatLe x y.
Proof.
  unfold float64Less. intros Hx H. rewrite Hx in H. simpl in H.
  rewrite orb_false_r in H. apply ltb_floatKey in H as (kx & ky & ? & ? & ?).
  exists kx, ky. auto.
Qed.

Lemma float64Less_false x y :
  isNumber x -> isNumber y -> float64Less x y = false -> floatLe y x.
Proof.
  unfold float64Less.
  intros Hx Hy H. apply orb_false_elim in H as [H _].
  destruct (isNumber_floatKey x Hx) as [kx Kx].
  destruct (isNumber_floatKey y Hy) as [ky Ky].
  exists ky, kx. split; [assumption|]. split; [assumption|].
  destruct (lexLt_trichotomy kx ky) as [L|[->|L]]; auto.
  assert (PrimFloat.ltb x y = true) by (apply ltb_floatKey; eauto 6). congruence.
Qed.

(** Numbers in order that are pairwise different under [==] are in strict
    order. *)
Lemma floatLe_strict x y :
  floatLe x y -> floatKey x <> floatKey y -> floatLt x y.
Proof.
  intros (kx & ky & Hx & Hy & [->|L]) N; [congruence|].
  apply ltb_floatKey. eauto 6.
Qed.

(** ** [sort.Float64s] *)

Lemma insertSorted_Permutation x l : Permutation (insertSorted x l) (x :: l).
Proof.
  induction l as [|y l IH]; simpl; [reflexivity|].
  destruct (float64Less y x); [|reflexivity].
  rewrite IH. apply perm_swap.
Qed.

Lemma Float64s_Permutation l : Permutation (Float64s l) l.
Proof.
  induction l as [|x l IH]; simpl; [reflexivity|].
  rewrite insertSorted_Permutation. now constructor.
Qed.

Lemma insertSorted_sorted x l :
  isNumber x -> Forall isNumber l ->
  StronglySorted floatLe l -> StronglySorted floatLe (insertSorted x l).
Proof.
  intros Hx Hl S. induction S as [|y l S IH F]; simpl.
  - repeat constructor.
  - inversion Hl as [|? ? Hy Hl']; subst.
    destruct (float64Less y x) eqn:E.
    + constructor; [now apply IH|].
      rewrite insertSorted_Permutation. constructor; [|assumption].
      now apply float64Less_true.
    + pose proof (float64Less_false y x Hy Hx E) as Lxy.
      constructor; [now constructor|]. constructor; [assumption|].
      eapply Forall_impl; [exact F|]. intros z Lyz.
      eapply floatLe_trans; eassumption.
Qed.

Lemma Float64s_sorted l :
  Forall isNumber l -> StronglySorted floatLe (Float64s l).
Proof.
  induction l as [|x l IH]; intros H; simpl; [constructor|].
  inversion H as [|? ? Hx Hl]; subst.
  apply insertSorted_sorted; [assumption| |now apply IH].
  now rewrite Float64s_Permutation.
Qed.

Lemma StronglySorted_strict l :
  StronglySorted floatLe l -> NoDup (floatKey <$> l) -> StronglySorted floatLt l.
Proof.
  induction 1 as [|x l S IH F]; intros N; [constructor|].
  rewrite fmap_cons in N. apply NoDup_cons in N as [Nx Nl].
  constructor; [now apply IH|].
  apply Forall_forall. intros y Hy.
  apply floatLe_strict; [now apply (proj1 (Forall_forall _ _) F)|].
  intros E. apply Nx. rewrite E. now apply list_elem_of_fmap_2.
Qed.

(** ** The tables of one kind *)

Lemma hasFloatKey_spec d set :
  hasFloatKey d set = true <-> knownTo set d.
Proof.
  unfold hasFloatKey, knownTo. rewrite existsb_exists. split.
  - intros (x & Hx & E). exists x. split; [now apply list_elem_of_In|assumption].
  - intros (x & Hx & E). exists x. split; [now apply list_elem_of_In|assumption].
Qed.

Lemma knownTo_Permutation ds ds' v : Permutation ds ds' -> knownTo ds v -> knownTo ds' v.
Proof. intros P (d & Hd & E). exists d. split; [now rewrite <- P|assumption]. Qed.

Lemma knownTo_key ds v :
  isNumber v -> knownTo ds v <-> floatKey v ∈ floatKey <$> ds.
Proof.
  intros [k Hk]%isNumber_floatKey. split.
  - intros (d & Hd & E). apply eqb_floatKey in E as (k' & E1 & E2).
    rewrite E1, <- E2. now apply list_elem_of_fmap_2.
  - intros (d & E & Hd)%list_elem_of_fmap. exists d. split; [assumption|].
    apply eqb_floatKey. exists k. split; congruence.
Qed.

Lemma TablesOK_empty : TablesOK emptyTables.
Proof.
  split; simpl; [constructor|constructor|reflexivity|].
  intros k v H. rewrite lookup_empty in H. discriminate.
Qed.

Lemma TablesOK_recordInterval key start finish secs t :
  isNumber secs -> TablesOK t -> TablesOK (recordInterval key start finish secs t).
Proof.
  intros Hs [N D P K]. unfold recordInterval.
  destruct (hasFloatKey secs (DurationsMap t)) eqn:E; split; simpl; try assumption.
  - intros k v H. destruct (decide (k = key)) as [->|Hk].
    + rewrite lookup_insert_eq in H. injection H as <-.
      apply hasFloatKey_spec in E. now apply (knownTo_Permutation _ _ _ (symmetry P)).
    + rewrite lookup_insert_ne in H by congruence. exact (K k v H).
  - apply Forall_app. split; [assumption|]. now repeat constructor.
  - rewrite fmap_app. apply NoDup_app. split; [assumption|]. split.
    + intros x Hx [->|H]%elem_of_cons; [|inversion H].
      apply knownTo_key in Hx; [|assumption].
      apply (knownTo_Permutation _ _ _ P), hasFloatKey_spec in Hx. congruence.
    + apply NoDup_singleton.
  - rewrite <- P. symmetry. apply Permutation_cons_append.
  - intros k v H. destruct (decide (k = key)) as [->|Hk].
    + rewrite lookup_insert_eq in H. injection H as <-.
      exists secs. split; [apply elem_of_app; right; now left|].
      now apply eqb_refl_number.
    + rewrite lookup_insert_ne in H by congruence.
      destruct (K k v H) as (d & Hd & Ed). exists d.
      split; [apply elem_of_app; now left|assumption].
Qed.

Lemma TablesOK_sortDurations t : TablesOK t -> TablesOK (sortDurations t).
Proof.
  intros [N D P K]. split; simpl.
  - now rewrite Float64s_Permutation.
  - now rewrite Float64s_Permutation.
  - now rewrite Float64s_Permutation.
  - intros k v H. apply (knownTo_Permutation (Durations t)); [|exact (K k v H)].
    symmetry. apply Float64s_Permutation.
Qed.

(** After the sort the distinct durations are in strict ascending order. *)
Lemma sortDurations_ascending t :
  TablesOK t -> StronglySorted floatLt (Durations (sortDurations t)).
Proof.
  intros [N D P K]. simpl. apply StronglySorted_strict.
  - now apply Float64s_sorted.
  - now rewrite Float64s_Permutation.
Qed.

(** ** The emission loops *)

Section Ranking.

Context {A B : Type}.

Lemma flat_map_app_Permutation (f g : A -> list B) l :
  Permutation (flat_map (fun x => f x ++ g x) l) (flat_map f l ++ flat_map g l).
Proof.
  induction l as [|x l IH]; simpl; [reflexivity|].
  rewrite IH, <- !app_assoc. apply Permutation_app_head.
  rewrite !app_assoc. apply Permutation_app_tail, Permutation_app_comm.
Qed.

Lemma flat_map_Permutation_arg (f : A -> list B) l l' :
  Permutation l l' -> Permutation (flat_map f l) (flat_map f l').
Proof.
  induction 1 as [|x l l' _ IH|x y l|l l' l'' _ IH1 _ IH2]; simpl.
  - reflexivity.
  - now apply Permutation_app_head.
  - rewrite !app_assoc. apply Permutation_app_tail, Permutation_app_comm.
  - now rewrite IH1.
Qed.

End Ranking.

(** A value [==] to none of the distinct durations is emitted in no group. *)
Lemma group_none {B : Type} (x : B) v ds :
  (forall d, d ∈ ds -> PrimFloat.eqb v d = false) ->
  flat_map (fun d => if PrimFloat.eqb v d then [x] else []) ds = [].
Proof.
  induction ds as [|d ds IH]; intros H; simpl; [reflexivity|].
  rewrite (H d) by left. simpl. apply IH. intros d' Hd'. apply H. now right.
Qed.

(** A value known to the distinct durations is emitted in one group, once. *)
Lemma group_once {B : Type} (x : B) v ds :
  Forall isNumber ds -> NoDup (floatKey <$> ds) -> knownTo ds v ->
  flat_map (fun d => if PrimFloat.eqb v d then [x] else []) ds = [x].
Proof.
  induction ds as [|d ds IH]; intros N D (d0 & Hd0 & E0); [inversion Hd0|].
  rewrite fmap_cons in D. apply NoDup_cons in D as [Dd D].
  inversion N as [|? ? Nd N']; subst. simpl.
  destruct (PrimFloat.eqb v d) eqn:E; simpl.
  - f_equal. apply group_none. intros d' Hd'.
    destruct (PrimFloat.eqb v d') eqn:E'; [|reflexivity].
    destruct Dd. apply eqb_sym in E. pose proof (eqb_trans _ _ _ E E') as Edd.
    apply eqb_floatKey in Edd as (k & -> & <-). now apply list_elem_of_fmap_2.
  - apply IH; [assumption|assumption|].
    apply elem_of_cons in Hd0 as [->|Hd0]; [congruence|]. now exists d0.
Qed.

(** The emission loops emit every entry of the table once: what they emit
    is an arrangement of the entries of the table, with the concurrency of
    each key. *)
Lemma rankRows_Permutation o ds (m : gmap string float) conc :
  Forall isNumber ds -> NoDup (floatKey <$> ds) ->
  (forall k v, m !! k = Some v -> knownTo ds v) ->
  Permutation (rankRows o ds m conc)
              ((fun e => (e.1, e.2, conc e.1)) <$> map_to_list m).
Proof.
  intros N D K. unfold rankRows, range.
  transitivity ((fun e : string * float => (e.1, e.2, conc e.1))
                  <$> range_order o float (map_to_list m));
    [|apply fmap_Permutation, range_order_perm].
  assert (H : forall e, e ∈ range_order o float (map_to_list m) -> knownTo ds e.2).
  { intros [k v] He. rewrite range_order_perm in He.
    apply elem_of_map_to_list in He. exact (K k v He). }
  induction (range_order o float (map_to_list m)) as [|[k v] l IH]; simpl.
  - clear N D K H. induction ds as [|d ds IHd]; simpl; [reflexivity|exact IHd].
  - rewrite (flat_map_app_Permutation
               (fun d => if PrimFloat.eqb v d then [(k, v, conc k)] else [])).
    rewrite group_once; [|assumption|assumption|apply (H (k, v)); now left].
    simpl. constructor. apply IH. intros e He. apply H. now right.
Qed.

(** ** What a run of [processX] over a list leaves in the tables *)

Lemma recordAll_OK es t : TablesOK t -> TablesOK (recordAll es t).
Proof.
  revert t. induction es as [|e es IH]; intros t H; simpl; [assumption|].
  apply IH, TablesOK_recordInterval; [apply Seconds_not_nan|assumption].
Qed.

Lemma recordAll_app es es' t : recordAll (es ++ es') t = recordAll es' (recordAll es t).
Proof. apply fold_left_app. Qed.

(** A key keeps what was there when no entry has it. *)
Lemma recordAll_other es t k :
  k ∉ es.*1 ->
  StartTimes (recordAll es t) !! k = StartTimes t !! k
  /\ EndTimes (recordAll es t) !! k = EndTimes t !! k
  /\ ToDuration (recordAll es t) !! k = ToDuration t !! k.
Proof.
  revert t. induction es as [|e es IH]; intros t H; simpl; [auto|].
  rewrite fmap_cons in H. apply not_elem_of_cons in H as [Hk H].
  destruct (IH (recordEntry t e) H) as (-> & -> & ->). simpl.
  now rewrite !lookup_insert_ne by congruence.
Qed.

(** The last entry of a key is what the tables hold for it. *)
Lemma recordAll_last es e es' t :
  e.1 ∉ es'.*1 ->
  StartTimes (recordAll (es ++ e :: es') t) !! e.1 = Some e.2.1
  /\ EndTimes (recordAll (es ++ e :: es') t) !! e.1 = Some e.2.2
  /\ ToDuration (recordAll (es ++ e :: es') t) !! e.1 = Some (entrySeconds e).
Proof.
  intros H. rewrite recordAll_app. simpl.
  destruct (recordAll_other es' (recordEntry (recordAll es t) e) e.1 H)
    as (-> & -> & ->).
  simpl. now rewrite !lookup_insert_eq.
Qed.

(** Every key of the tables was there before or is the key of an entry,
    with the window and the duration of that entry. *)
Lemma recordAll_lookup es t k v :
  ToDuration (recordAll es t) !! k = Some v ->
  ToDuration t !! k = Some v
  \/ exists e, e ∈ es /\ e.1 = k /\ v = entrySeconds e
               /\ StartTimes (recordAll es t) !! k = Some e.2.1
               /\ EndTimes (recordAll es t) !! k = Some e.2.2.
Proof.
  induction es as [|e es IH] using rev_ind; intros H; [now left|].
  destruct (decide (e.1 = k)) as [<-|Hk].
  - right. exists e.
    destruct (recordAll_last es e [] t) as (Hs & He & Hd); [apply not_elem_of_nil|].
    rewrite Hd in H. injection H as <-.
    split; [apply elem_of_app; right; now left|]. auto.
  - rewrite recordAll_app in H |- *. simpl in H |- *.
    rewrite !lookup_insert_ne in * by congruence.
    destruct (IH H) as [?|(e' & He' & ? & ? & ? & ?)]; [now left|right].
    exists e'. split; [apply elem_of_app; now left|]. auto.
Qed.

Lemma recordAll_dom es t k :
  is_Some (ToDuration (recordAll es t) !! k)
  <-> is_Some (ToDuration t !! k) \/ k ∈ es.*1.
Proof.
  revert t. induction es as [|e es IH]; intros t.
  - split; [now left|]. intros [?|H]; [assumption|inversion H].
  - change (recordAll (e :: es) t) with (recordAll es (recordEntry t e)).
    rewrite IH, fmap_cons, elem_of_cons.
    assert (ToDuration (recordEntry t e) = <[e.1 := entrySeconds e]> (ToDuration t))
      as -> by reflexivity.
    destruct (decide (k = e.1)) as [->|Hk].
    + rewrite lookup_insert_eq. split; [auto|]. intros _. left. eauto.
    + rewrite lookup_insert_ne by congruence. tauto.
Qed.

(** Every distinct duration was there before or is the duration of an
    entry. *)
Lemma recordAll_durations es t d :
  d ∈ Durations (recordAll es t) ->
  d ∈ Durations t \/ exists e, e ∈ es /\ d = entrySeconds e.
Proof.
  revert t. induction es as [|e es IH]; intros t H; simpl in *; [now left|].
  destruct (IH _ H) as [H'|(e' & He' & ->)].
  - simpl in H'. destruct (hasFloatKey _ _); [now left|].
    apply elem_of_app in H' as [?|H']; [now left|]. right. exists e.
    apply list_elem_of_singleton in H'. split; [now left|assumption].
  - right. exists e'. split; [now right|reflexivity].
Qed.

Section ProcessAll.

Context {T : Type} (ignore : T -> bool)
        (process : T -> State -> option (Duration * State))
        (entry : T -> option Entry)
        (lift : (Tables -> Tables) -> State -> State).

Hypothesis process_entry : forall x s,
  process x s
  = (fun e : Entry => (Sub e.2.2 e.2.1, lift (fun t => recordEntry t e) s)) <$> entry x.
Hypothesis lift_lift : forall f g s, lift f (lift g s) = lift (fun t => f (g t)) s.
Hypothesis lift_id : forall s, lift (fun t => t) s = s.

Lemma processAll_entries items s :
  complete ignore entry items ->
  processAll ignore process items s
  = Some (lift (recordAll (entriesOf ignore entry items)) s).
Proof using process_entry lift_lift lift_id.
  unfold processAll, entriesOf. revert s.
  induction items as [|x items IH]; intros s C; simpl.
  - now rewrite lift_id.
  - assert (C' : complete ignore entry items) by (intros y Hy; apply C; now right).
    destruct (ignore x) eqn:I; simpl; [now apply IH|].
    destruct (C x ltac:(left) I) as [e He].
    rewrite process_entry, He. simpl. rewrite IH by assumption.
    now rewrite lift_lift.
Qed.

(** An item that passes the filter without them makes the run panic. *)
Lemma processAll_panics items s x :
  x ∈ items -> ignore x = false -> entry x = None ->
  processAll ignore process items s = None.
Proof using process_entry.
  unfold processAll. intros Hx I E.
  assert (N : forall l, fold_left
             (fun acc item =>
                s ← acc; if ignore item then Some s else snd <$> process item s)
             l None = None) by (induction l; simpl; auto).
  revert s. induction items as [|y items IH]; intros s; [inversion Hx|].
  simpl. apply elem_of_cons in Hx as [<-|Hx].
  - rewrite I, process_entry, E. simpl. apply N.
  - destruct (ignore y); [now apply IH|].
    destruct (process y s) as [[d s']|]; simpl; [now apply IH|apply N].
Qed.

End ProcessAll.

Lemma processPipelineRun_entry pr s :
  processPipelineRun pr s
  = (fun e : Entry => (Sub e.2.2 e.2.1, withPr (fun t => recordEntry t e) s))
      <$> prEntry pr.
Proof.
  unfold processPipelineRun, prEntry.
  destruct (pr_CompletionTime pr), (pr_StartTime pr); reflexivity.
Qed.

Lemma processTaskRun_entry tr s :
  processTaskRun tr s
  = (fun e : Entry => (Sub e.2.2 e.2.1, withTr (fun t => recordEntry t e) s))
      <$> trEntry tr.
Proof.
  unfold processTaskRun, trEntry.
  destruct (tr_CompletionTime tr), (tr_StartTime tr); reflexivity.
Qed.

Lemma processPod_entry pod s :
  processPod pod s
  = (fun e : Entry => (Sub e.2.2 e.2.1, withPod (fun t => recordEntry t e) s))
      <$> podEntry pod.
Proof. unfold processPod, podEntry. destruct (pod_StartTime pod); reflexivity. Qed.

Lemma withPr_id s : withPr (fun t => t) s = s.
Proof. now destruct s. Qed.
Lemma withTr_id s : withTr (fun t => t) s = s.
Proof. now destruct s. Qed.
Lemma withPod_id s : withPod (fun t => t) s = s.
Proof. now destruct s. Qed.

(** A walk never returns an error and leaves the tables alone. *)
Lemma walkFiles_items {T : Type} (kindOf : T -> string) kind entries s :
  exists s',
    walkFiles kindOf kind entries s = (walkedItems kindOf kind entries, None, s')
    /\ prTables s' = prTables s /\ trTables s' = trTables s
    /\ podTables s' = podTables s /\ containerTables s' = containerTables s
    /\ containerOnly s' = containerOnly s.
Proof.
  unfold walkFiles.
  set (step := fun (acc : list T * State) (e : WalkEntry T) => _).
  assert (G : forall items s, exists s',
             fold_left step entries (items, s)
             = (items ++ walkedItems kindOf kind entries, s')
             /\ prTables s' = prTables s /\ trTables s' = trTables s
             /\ podTables s' = podTables s /\ containerTables s' = containerTables s
             /\ containerOnly s' = containerOnly s).
  { induction entries as [|e entries IH]; intros items s0; simpl.
    - exists s0. now rewrite app_nil_r.
    - destruct e as [msg| |path msg| |l].
      + destruct (IH items (writeStderr ["filepath walk error: " +:+ msg +:+ newline] s0))
          as (s' & E & ?).
        exists s'. split; [exact E|assumption].
      + destruct (IH items s0) as (s' & E & ?).
        exists s'. split; [exact E|assumption].
      + destruct (IH items (writeStderr
                              ["problem reading " +:+ path +:+ ": " +:+ msg +:+ newline] s0))
          as (s' & E & ?).
        exists s'. split; [exact E|assumption].
      + destruct (IH items s0) as (s' & E & ?).
        exists s'. split; [exact E|assumption].
      + destruct (IH (items ++ filter (fun item => String.eqb (kindOf item) kind = true) l) s0)
          as (s' & E & ?).
        exists s'. split; [|assumption].
        rewrite <- app_assoc in E. exact E. }
  destruct (G [] s) as (s' & -> & H). exists s'. split; [reflexivity|exact H].
Qed.

Lemma recordEntry_durations_mono t e d :
  d ∈ Durations t -> d ∈ Durations (recordEntry t e).
Proof.
  intros H. simpl. destruct (hasFloatKey _ _); [assumption|].
  apply elem_of_app. now left.
Qed.

Lemma recordAll_durations_mono es t d :
  d ∈ Durations t -> d ∈ Durations (recordAll es t).
Proof.
  revert t. induction es as [|e es IH]; intros t H; simpl; [assumption|].
  now apply IH, recordEntry_durations_mono.
Qed.

(** The duration of every entry is [==] to one of the distinct durations,
    also when a later entry of the same key has replaced it in the table. *)
Lemma recordAll_known es t e :
  TablesOK t -> e ∈ es -> knownTo (Durations (recordAll es t)) (entrySeconds e).
Proof.
  revert t. induction es as [|e' es IH]; intros t H He; [inversion He|].
  apply elem_of_cons in He as [<-|He]; [|apply IH; [|assumption]].
  - pose proof (TablesOK_recordInterval e.1 e.2.1 e.2.2 (entrySeconds e) t
                  (Seconds_not_nan _) H) as H'.
    destruct (ok_known _ H' e.1 (entrySeconds e)) as (d & Hd & E).
    { simpl. apply lookup_insert_eq. }
    exists d. split; [|assumption]. simpl. now apply recordAll_durations_mono.
  - apply TablesOK_recordInterval; [apply Seconds_not_nan|assumption].
Qed.

Lemma entriesOf_elem {T : Type} (ignore : T -> bool) entry (items : list T) e :
  e ∈ entriesOf ignore entry items
  <-> exists x, x ∈ items /\ ignore x = false /\ entry x = Some e.
Proof.
  unfold entriesOf. rewrite list_elem_of_omap. split.
  - intros (x & Hx & H). exists x. destruct (ignore x); [discriminate|auto].
  - intros (x & Hx & I & H). exists x. now rewrite I.
Qed.

Lemma rowsOf_resultOf rows : rowsOf (resultOf rows) = rows.
Proof.
  unfold rowsOf. simpl. induction rows as [|[[k v] c] rows IH]; simpl; [reflexivity|].
  f_equal. exact IH.
Qed.

Lemma rankRows_groups o ds m conc :
  rankRows o ds m conc = concat (groupsOf o ds m conc)
  /\ Forall2 (fun d g => Forall (fun row => PrimFloat.eqb row.1.2 d = true) g)
             ds (groupsOf o ds m conc).
Proof.
  unfold groupsOf, rankRows. split.
  - induction ds as [|d ds IH]; simpl; [reflexivity|].
    now rewrite app_nil_r, IH.
  - apply Forall2_fmap_r, Forall_Forall2_diag, Forall_forall.
    intros d _. simpl. rewrite app_nil_r. apply Forall_forall.
    intros row Hrow. apply list_elem_of_In, in_flat_map in Hrow as ([k v] & _ & Hrow).
    destruct (PrimFloat.eqb v d) eqn:E; [|inversion Hrow].
    destruct Hrow as [<-|[]]. exact E.
Qed.

(** What the analysis of one kind returns when it starts on empty tables
    and records the entries [es]. *)
Lemma ranked_from_empty o (es : list Entry) conc :
  let t := sortDurations (recordAll es emptyTables) in
  let rows := rankRows o (Durations t) (ToDuration t) conc in
  StronglySorted floatLt (Durations t)
  /\ (forall d, d ∈ Durations t -> exists e, e ∈ es /\ d = entrySeconds e)
  /\ (forall e, e ∈ es -> knownTo (Durations t) (entrySeconds e))
  /\ NoDup (retS (resultOf rows))
  /\ (forall k, k ∈ retS (resultOf rows) <-> k ∈ es.*1)
  /\ (forall k v c, (k, v, c) ∈ rows ->
        c = conc k /\ exists e, e ∈ es /\ e.1 = k /\ v = entrySeconds e).
Proof.
  intros t rows.
  pose proof (recordAll_OK es emptyTables TablesOK_empty) as OK0.
  pose proof (TablesOK_sortDurations _ OK0) as OK.
  assert (P : Permutation rows
                ((fun e => (e.1, e.2, conc e.1)) <$> map_to_list (ToDuration t))).
  { apply rankRows_Permutation; [apply OK|apply OK|apply OK]. }
  split; [now apply sortDurations_ascending|]. split; [|split; [|split; [|split]]].
  - intros d Hd. simpl in Hd. rewrite Float64s_Permutation in Hd.
    apply recordAll_durations in Hd as [Hd|Hd]; [inversion Hd|exact Hd].
  - intros e He. apply (knownTo_Permutation (Durations (recordAll es emptyTables))).
    + symmetry. apply Float64s_Permutation.
    + now apply recordAll_known; [apply TablesOK_empty|].
  - change (retS (resultOf rows)) with ((fun r => r.1.1) <$> rows).
    rewrite P, <- list_fmap_compose.
    apply (NoDup_fst_map_to_list (ToDuration t)).
  - intros k. change (retS (resultOf rows)) with ((fun r => r.1.1) <$> rows).
    rewrite P, <- list_fmap_compose.
    change (k ∈ (map_to_list (ToDuration t)).*1 <-> k ∈ es.*1).
    transitivity (is_Some (ToDuration (recordAll es emptyTables) !! k)).
    + split.
      * intros ([k' v] & -> & H)%list_elem_of_fmap.
        apply elem_of_map_to_list in H. eauto.
      * intros [v H]. apply list_elem_of_fmap. exists (k, v).
        split; [reflexivity|]. now apply elem_of_map_to_list.
    + rewrite recordAll_dom. simpl. rewrite lookup_empty. split; [|now right].
      intros [[? H]|H]; [discriminate|assumption].
  - intros k v c H. rewrite P in H.
    apply list_elem_of_fmap in H as ([k' v'] & [= -> -> ->] & H).
    split; [reflexivity|]. apply elem_of_map_to_list in H.
    apply recordAll_lookup in H as [H|(e & He & Hk & Hv & _)].
    + simpl in H. rewrite lookup_empty in H. discriminate.
    + exists e. auto.
Qed.

(** ** The analysis of the pipeline runs *)

Lemma parsePipelineRunList_run o tree fileName prFilter s :
  let items := walkedItems pr_Kind "PipelineRun" (tree fileName) in
  let ignore := fun pr => ignorePipelineRun pr prFilter in
  complete ignore prEntry items ->
  exists s',
    parsePipelineRunList o tree fileName prFilter s
    = Some (resultOf (rankRows o (prDurations s') (prToDuration s')
                               (determinePRConcurrency o s')), s')
    /\ prTables s' = sortDurations (recordAll (entriesOf ignore prEntry items) (prTables s)).
Proof.
  intros items ignore C. unfold parsePipelineRunList, processPRFiles.
  destruct (walkFiles_items pr_Kind "PipelineRun" (tree fileName) s)
    as (s1 & -> & Hpr & _).
  fold items. fold ignore.
  rewrite (processAll_entries ignore processPipelineRun prEntry withPr
             processPipelineRun_entry (fun f g s => eq_refl) withPr_id items s1 C).
  simpl. eexists. split; [reflexivity|]. simpl. now rewrite Hpr.
Qed.

(** A pipeline run that passes the filter has started: it has a start
    time. Its completion time is what [processPipelineRun] needs besides. *)
Lemma eligible_prEntry pr prFilter :
  ignorePipelineRun pr prFilter = false -> is_Some (pr_CompletionTime pr) ->
  is_Some (prEntry pr).
Proof.
  unfold ignorePipelineRun, pr_HasStarted, startedAt, prEntry.
  intros I [c ->]. destruct (_ && _); [discriminate|].
  destruct (pr_StartTime pr) as [t|]; simpl in *; [eauto|discriminate].
Qed.



(** ** The analysis of the pods *)

(** A pod that passes the filter has its start time: [processPod] never
    dereferences nil. *)
Lemma eligible_podEntry pod prFilter :
  ignorePod pod prFilter = false -> is_Some (podEntry pod).
Proof.
  unfold ignorePod, podEntry. destruct (pod_StartTime pod); [eauto|discriminate].
Qed.

Lemma parsePodList_run o tree fileName prFilter s :
  let items := walkedItems pod_Kind "Pod" (tree fileName) in
  let ignore := fun pod => ignorePod pod prFilter in
  containerOnly s = false ->
  exists s',
    parsePodList o tree fileName prFilter s
    = Some (resultOf (rankRows o (podDurations s') (podToDuration s')
                               (determinePodConcurrency o s')), s')
    /\ podTables s' = sortDurations (recordAll (entriesOf ignore podEntry items) (podTables s)).
Proof.
  intros items ignore Hc. unfold parsePodList, processPodFiles.
  destruct (walkFiles_items pod_Kind "Pod" (tree fileName) s)
    as (s1 & -> & _ & _ & Hpod & _ & Hc1).
  fold items. fold ignore. rewrite Hc1, Hc.
  change (processPodOrContainers false) with processPod.
  assert (C : complete ignore podEntry items).
  { intros pod _ I. now apply (eligible_podEntry pod prFilter). }
  rewrite (processAll_entries ignore processPod podEntry withPod
             processPod_entry (fun f g s => eq_refl) withPod_id items s1 C).
  simpl. rewrite Hc1, Hc. simpl. eexists. split; [reflexivity|]. simpl.
  now rewrite Hpod.
Qed.






(** ** Container windows *)

Lemma nameToIndex_snoc names name :
  nameToIndex (names ++ [name]) = <[name := length names]> (nameToIndex names).
Proof.
  unfold nameToIndex. rewrite imap_app, fold_left_app. simpl.
  now rewrite Nat.add_0_r.
Qed.

(** An index found in the map is an index of the name. *)
Lemma nameToIndex_lookup names name i :
  nameToIndex names !! name = Some i -> names !! i = Some name.
Proof.
  induction names as [|x names IH] using rev_ind; intros H.
  - unfold nameToIndex in H. simpl in H. rewrite lookup_empty in H. discriminate.
  - rewrite nameToIndex_snoc in H.
    destruct (decide (name = x)) as [->|Hne].
    + rewrite lookup_insert_eq in H. injection H as <-.
      apply list_lookup_middle. reflexivity.
    + rewrite lookup_insert_ne in H by congruence.
      apply lookup_app_l_Some. now apply IH.
Qed.

(** Among distinct names, the map gives the index of every name. *)
Lemma nameToIndex_NoDup names name i :
  NoDup names -> names !! i = Some name -> nameToIndex names !! name = Some i.
Proof.
  intros N H. destruct (nameToIndex names !! name) as [j|] eqn:E.
  - apply nameToIndex_lookup in E. f_equal. eapply NoDup_lookup; eassumption.
  - exfalso. clear N. revert i H E.
    induction names as [|x names IH] using rev_ind; intros i H E.
    + inversion H.
    + rewrite nameToIndex_snoc in E.
      destruct (decide (name = x)) as [->|Hne].
      * rewrite lookup_insert_eq in E. discriminate.
      * rewrite lookup_insert_ne in E by congruence.
        apply lookup_app_Some in H as [H|[_ H]]; [now apply (IH i)|].
        apply list_lookup_singleton_Some in H as [_ ->]. congruence.
Qed.

(** C4, as the code has it. In a pod whose containers have distinct names,
    in the spec and in the statuses, take a status in the [Terminated]
    state. If its container is the first of the spec, its window starts at
    its own [startedAt]. If its container comes later in the spec and the
    container right before it has a status, its window starts at the
    [finishedAt] of that status when that one is terminated, and at its own
    [startedAt] when it is not. The window ends at its own [finishedAt],
    and is what [processContainers] records under the key of the
    container. With [init] terminated at 5 seconds and [app] at 12, [app]
    is measured at 7 seconds. *)
Theorem container_window_start (pod : Pod) (cstatus : ContainerStatus)
    (terminated : ContainerStateTerminated) :
  NoDup (pod_SpecContainers pod) ->
  NoDup (cs_Name <$> pod_ContainerStatuses pod) ->
  cstatus ∈ pod_ContainerStatuses pod ->
  cs_Terminated cstatus = Some terminated ->
  (pod_SpecContainers pod !! 0%nat = Some (cs_Name cstatus) ->
   containerWindow pod cstatus terminated
   = Some (StartedAt terminated, FinishedAt terminated))
  /\ (forall i priorStatus,
         pod_SpecContainers pod !! S i = Some (cs_Name cstatus) ->
         priorStatus ∈ pod_ContainerStatuses pod ->
         pod_SpecContainers pod !! i = Some (cs_Name priorStatus) ->
         containerWindow pod cstatus terminated
         = Some (match cs_Terminated priorStatus with
                 | Some prior => FinishedAt prior
                 | None => StartedAt terminated
                 end, FinishedAt terminated))
  /\ (forall s window,
         containerWindow pod cstatus terminated = Some window ->
         exists s',
           processContainerStatus pod (Some s) cstatus = Some s'
           /\ containerStartTimes s' !! containerKeyOf pod (cs_Name cstatus)
              = Some window.1
           /\ containerEndTimmes s' !! containerKeyOf pod (cs_Name cstatus)
              = Some window.2
           /\ containerToDuration s' !! containerKeyOf pod (cs_Name cstatus)
              = Some (Seconds (Sub window.2 window.1)))
  /\ ((fun r : Result * State => (retS r.1, retF r.1))
        <$> parsePodList inOrder
              (oneFile [mkPod "ns" "p" 63800000000 ["init"; "app"]
                          [terminatedAt "init" 63800000000 63800000005;
                           terminatedAt "app" 63800000000 63800000012]])
              "pods.json" ""
              {| prTables := emptyTables; trTables := emptyTables;
                 podTables := emptyTables; containerTables := emptyTables;
                 containerOnly := true; stderr := [] |})
     = Some (["ns:p-init"; "ns:p-app"], [5%float; 7%float]).
Proof.
  intros Nspec Nstat Hin Hterm. split; [|split; [|split]].
  - intros H0. unfold containerWindow.
    now rewrite (nameToIndex_NoDup _ _ _ Nspec H0).
  - intros i priorStatus Hi Hprior Hpi. unfold containerWindow.
    rewrite (nameToIndex_NoDup _ _ _ Nspec Hi). simpl.
    rewrite Nat.sub_0_r, Hpi. simpl.
    apply list_elem_of_lookup in Hprior as [j Hj].
    assert (Hj' : (cs_Name <$> pod_ContainerStatuses pod) !! j
                  = Some (cs_Name priorStatus))
      by now rewrite list_lookup_fmap, Hj.
    rewrite (nameToIndex_NoDup _ _ _ Nstat Hj'). simpl. rewrite Hj. simpl.
    now destruct (cs_Terminated priorStatus).
  - intros s [started finished] Hw. unfold processContainerStatus. simpl.
    rewrite Hterm, Hw. simpl. eexists. split; [reflexivity|].
    unfold containerStartTimes, containerEndTimmes, containerToDuration. simpl.
    now rewrite !lookup_insert_eq.
  - vm_compute. reflexivity.
Qed.

Lemma container_window_start_witness :
  containerWindow twoStepPod (terminatedAt "app" 63800000000 63800000012)
    {| StartedAt := seconds 63800000000; FinishedAt := seconds 63800000012 |}
  = Some (seconds 63800000005, seconds 63800000012).
Proof.
  assert (Nspec : NoDup (pod_SpecContainers twoStepPod)).
  { change (NoDup ["init"; "app"]). apply NoDup_cons. split.
    - intros H. apply list_elem_of_singleton in H. discriminate.
    - apply NoDup_singleton. }
  assert (Nstat : NoDup (cs_Name <$> pod_ContainerStatuses twoStepPod)) by exact Nspec.
  destruct (container_window_start twoStepPod
              (terminatedAt "app" 63800000000 63800000012)
              {| StartedAt := seconds 63800000000; FinishedAt := seconds 63800000012 |}
              Nspec Nstat) as (_ & H & _).
  - right. left.
  - reflexivity.
  - apply (H 0%nat (terminatedAt "init" 63800000000 63800000005)).
    + reflexivity.
    + left.
    + reflexivity.
Defined.

(** C4 as stated fails: [app] is the second container of the spec, the
    container before it has no [finishedAt], and the window of [app]
    starts at its own [startedAt]: it is measured at 9 seconds. *)
Lemma unterminated_predecessor_keeps_own_start :
  ignorePod evictedPod "" = false
  /\ pod_SpecContainers evictedPod !! 1%nat = Some "app"
  /\ pod_SpecContainers evictedPod !! 0%nat <> Some "app"
  /\ containerWindow evictedPod (terminatedAt "app" 63800000003 63800000012)
       {| StartedAt := seconds 63800000003; FinishedAt := seconds 63800000012 |}
     = Some (seconds 63800000003, seconds 63800000012)
  /\ ((fun r : Result * State => (retS r.1, retF r.1))
        <$> parsePodList inOrder (oneFile [evictedPod]) "pods.json" ""
              {| prTables := emptyTables; trTables := emptyTables;
                 podTables := emptyTables; containerTables := emptyTables;
                 containerOnly := true; stderr := [] |})
     = Some (["ns:p-app"], [9%float]).
Proof.
  split; [vm_compute; reflexivity|]. split; [reflexivity|].
  split; [discriminate|]. split; vm_compute; reflexivity.
Qed.

(** ** Two analyses in one process *)

(** The table of the durations of the keys does not depend on the slice of
    the distinct durations. *)
Lemma recordAll_ToDuration es t t' :
  ToDuration t = ToDuration t' ->
  ToDuration (recordAll es t) = ToDuration (recordAll es t').
Proof.
  revert t t'. induction es as [|e es IH]; intros t t' H; simpl; [assumption|].
  apply IH. simpl. now rewrite H.
Qed.

(** What the analysis of one kind returns when it starts on the tables
    [t0], left by earlier analyses, and records the entries [es]. *)
Lemma ranked_from o (es : list Entry) t0 conc :
  TablesOK t0 ->
  let t := sortDurations (recordAll es t0) in
  let rows := rankRows o (Durations t) (ToDuration t) conc in
  TablesOK t
  /\ StronglySorted floatLt (Durations t)
  /\ NoDup (retS (resultOf rows))
  /\ (forall k, k ∈ retS (resultOf rows)
                <-> is_Some (ToDuration t0 !! k) \/ k ∈ es.*1)
  /\ (forall k v c, (k, v, c) ∈ rows -> ToDuration (recordAll es t0) !! k = Some v).
Proof.
  intros OK0 t rows.
  pose proof (TablesOK_sortDurations _ (recordAll_OK es t0 OK0)) as OK.
  assert (P : Permutation rows
                ((fun e => (e.1, e.2, conc e.1)) <$> map_to_list (ToDuration t))).
  { apply rankRows_Permutation; apply OK. }
  split; [exact OK|]. split; [apply sortDurations_ascending, recordAll_OK, OK0|].
  split; [|split].
  - change (retS (resultOf rows)) with ((fun r => r.1.1) <$> rows).
    rewrite P, <- list_fmap_compose.
    apply (NoDup_fst_map_to_list (ToDuration t)).
  - intros k. change (retS (resultOf rows)) with ((fun r => r.1.1) <$> rows).
    rewrite P, <- list_fmap_compose.
    change (k ∈ (map_to_list (ToDuration t)).*1
            <-> is_Some (ToDuration t0 !! k) \/ k ∈ es.*1).
    rewrite <- recordAll_dom. split.
    + intros ([k' v] & -> & H)%list_elem_of_fmap.
      apply elem_of_map_to_list in H. eauto.
    + intros [v H]. apply list_elem_of_fmap. exists (k, v).
      split; [reflexivity|]. now apply elem_of_map_to_list.
  - intros k v c H. rewrite P in H.
    apply list_elem_of_fmap in H as ([k' v'] & [= -> -> ->] & H).
    now apply elem_of_map_to_list in H.
Qed.

(** C5, as the code has it. The tables are variables of the package:
    a second run of [parsePipelineRunList] in one process works on
    what the first one left, whatever the range orders of the two runs.
    It returns every key once, and as keys the keys of the runs that pass
    the filter in the input of the first run together with those in its
    own input, each with the duration of a run of that key from one of
    the two inputs. Its distinct durations are those of the runs that pass
    the filter in the two inputs, in strict ascending order, and its rows
    are the concatenation of one group per distinct duration, in that
    order, every row of a group with a duration [==] to that of the
    group. *)
Theorem second_run_accumulates (o1 o2 : RangeOracle)
    (tree1 tree2 : FileTree PipelineRun) (file1 file2 filter1 filter2 : string) :
  let items1 := walkedItems pr_Kind "PipelineRun" (tree1 file1) in
  let items2 := walkedItems pr_Kind "PipelineRun" (tree2 file2) in
  let eligible1 := fun pr => pr ∈ items1 /\ ignorePipelineRun pr filter1 = false in
  let eligible2 := fun pr => pr ∈ items2 /\ ignorePipelineRun pr filter2 = false in
  (forall pr, eligible1 pr \/ eligible2 pr -> is_Some (pr_CompletionTime pr)) ->
  exists r1 s1 r2 s2,
    parsePipelineRunList o1 tree1 file1 filter1 initState = Some (r1, s1)
    /\ parsePipelineRunList o2 tree2 file2 filter2 s1 = Some (r2, s2)
    /\ StronglySorted floatLt (prDurations s2)
    /\ NoDup (retS r2)
    /\ (forall k, k ∈ retS r2
                  <-> (exists pr, eligible1 pr /\ prKeyOf pr = k)
                      \/ (exists pr, eligible2 pr /\ prKeyOf pr = k))
    /\ (forall k v c, (k, v, c) ∈ rowsOf r2 ->
          exists pr, (eligible1 pr \/ eligible2 pr)
                     /\ prKeyOf pr = k /\ prSeconds pr = Some v)
    /\ (forall d, d ∈ prDurations s2 ->
          exists pr, (eligible1 pr \/ eligible2 pr) /\ prSeconds pr = Some d)
    /\ (forall pr v, eligible1 pr \/ eligible2 pr -> prSeconds pr = Some v ->
          knownTo (prDurations s2) v)
    /\ (exists groups,
           rowsOf r2 = concat groups
           /\ Forall2 (fun d g => Forall (fun row => PrimFloat.eqb row.1.2 d = true) g)
                      (prDurations s2) groups).
Proof.
  intros items1 items2 eligible1 eligible2 Hc.
  set (ignore1 := fun pr => ignorePipelineRun pr filter1).
  set (ignore2 := fun pr => ignorePipelineRun pr filter2).
  assert (C1 : complete ignore1 prEntry items1).
  { intros pr Hpr I. apply (eligible_prEntry pr filter1 I), Hc. left. now split. }
  assert (C2 : complete ignore2 prEntry items2).
  { intros pr Hpr I. apply (eligible_prEntry pr filter2 I), Hc. right. now split. }
  destruct (parsePipelineRunList_run o1 tree1 file1 filter1 initState C1)
    as (s1 & E1 & Ht1).
  destruct (parsePipelineRunList_run o2 tree2 file2 filter2 s1 C2)
    as (s2 & E2 & Ht2).
  fold items1 in Ht1. fold ignore1 in Ht1. fold items2 in Ht2. fold ignore2 in Ht2.
  change (prTables initState) with emptyTables in Ht1.
  set (es1 := entriesOf ignore1 prEntry items1) in *.
  set (es2 := entriesOf ignore2 prEntry items2) in *.
  assert (Hkey : forall pr e, prEntry pr = Some e -> e.1 = prKeyOf pr).
  { intros pr e H. unfold prEntry in H.
    destruct (pr_CompletionTime pr), (pr_StartTime pr); simpl in H; try discriminate.
    now injection H as <-. }
  assert (Hkeys : forall ignore items k,
            complete ignore prEntry items ->
            k ∈ (entriesOf ignore prEntry items).*1
            <-> exists pr, (pr ∈ items /\ ignore pr = false) /\ prKeyOf pr = k).
  { intros ignore items k C. split.
    - intros (e & -> & He)%list_elem_of_fmap.
      apply entriesOf_elem in He as (pr & Hpr & I & He).
      exists pr. split; [now split|]. symmetry. now apply Hkey.
    - intros (pr & [Hpr I] & <-). destruct (C pr Hpr I) as [e He].
      rewrite <- (Hkey pr e He). apply list_elem_of_fmap_2, entriesOf_elem.
      now exists pr. }
  destruct (ranked_from o1 es1 emptyTables (determinePRConcurrency o1 s1) TablesOK_empty)
    as (OK1 & _).
  rewrite <- Ht1 in OK1.
  destruct (ranked_from o2 es2 (prTables s1) (determinePRConcurrency o2 s2) OK1)
    as (_ & S & N & K & V).
  rewrite <- Ht2 in S, N, K, V.
  assert (Hentry : forall e, e ∈ es1 \/ e ∈ es2 ->
            exists pr, (eligible1 pr \/ eligible2 pr)
                       /\ prKeyOf pr = e.1 /\ prSeconds pr = Some (entrySeconds e)).
  { intros e [He|He]; apply entriesOf_elem in He as (pr & Hpr & I & He);
      exists pr; (split; [|split; [symmetry; now apply Hkey
                                  |unfold prSeconds; now rewrite He]]).
    - left. now split.
    - right. now split. }
  eexists _, s1, _, s2. split; [exact E1|]. split; [exact E2|].
  split; [exact S|]. split; [exact N|].
  split; [|split; [|split; [|split]]].
  - intros k. split.
    + intros H. apply K in H. destruct H as [H|H].
      * left. apply (Hkeys ignore1 items1 k C1).
        rewrite Ht1 in H. simpl in H. apply recordAll_dom in H as [[? H]|H]; [|exact H].
        simpl in H. rewrite lookup_empty in H. discriminate.
      * right. apply (Hkeys ignore2 items2 k C2). exact H.
    + intros [H|H]; apply K.
      * left. rewrite Ht1. simpl. apply recordAll_dom. right.
        apply (Hkeys ignore1 items1 k C1). exact H.
      * right. apply (Hkeys ignore2 items2 k C2). exact H.
  - intros k v c H. rewrite rowsOf_resultOf in H. apply V in H.
    assert (Hcases : exists e, (e ∈ es1 \/ e ∈ es2) /\ e.1 = k /\ v = entrySeconds e).
    { apply recordAll_lookup in H as [H|(e & He & Hk & Hv & _)].
      - rewrite Ht1 in H. simpl in H.
        apply recordAll_lookup in H as [H|(e & He & Hk & Hv & _)].
        + simpl in H. rewrite lookup_empty in H. discriminate.
        + exists e. auto.
      - exists e. auto. }
    destruct Hcases as (e & He & <- & ->). now apply Hentry.
  - intros d Hd. unfold prDurations in Hd. rewrite Ht2 in Hd. simpl in Hd.
    rewrite Float64s_Permutation in Hd.
    assert (Hcases : exists e, (e ∈ es1 \/ e ∈ es2) /\ d = entrySeconds e).
    { apply recordAll_durations in Hd as [Hd|(e & He & ->)]; [|eauto].
      rewrite Ht1 in Hd. simpl in Hd. rewrite Float64s_Permutation in Hd.
      apply recordAll_durations in Hd as [Hd|(e & He & ->)]; [inversion Hd|eauto]. }
    destruct Hcases as (e & He & ->).
    destruct (Hentry e He) as (pr & Hpr & _ & Hv). eauto.
  - intros pr v Hpr Hv. unfold prSeconds in Hv.
    destruct (prEntry pr) as [e|] eqn:He; [|discriminate]. injection Hv as <-.
    unfold prDurations. rewrite Ht2.
    apply (knownTo_Permutation (Durations (recordAll es2 (prTables s1))));
      [symmetry; apply Float64s_Permutation|].
    destruct Hpr as [[Hpr I]|[Hpr I]].
    + assert (H1 : knownTo (Durations (prTables s1)) (entrySeconds e)).
      { rewrite Ht1.
        apply (knownTo_Permutation (Durations (recordAll es1 emptyTables)));
          [symmetry; apply Float64s_Permutation|].
        apply recordAll_known; [apply TablesOK_empty|].
        apply entriesOf_elem. now exists pr. }
      destruct H1 as (d & Hd & Ed). exists d. split; [|exact Ed].
      now apply recordAll_durations_mono.
    + apply recordAll_known; [exact OK1|]. apply entriesOf_elem. now exists pr.
  - rewrite rowsOf_resultOf. eexists. apply rankRows_groups.
Qed.

(** C5 as stated fails: run after the analysis of the first dump, the
    analysis of the second dump returns the key of the first dump too;
    run alone, it returns its own key only. *)
Lemma second_run_returns_keys_of_first :
  exists s1,
    (snd <$> parsePipelineRunList inOrder twoDumps "first.json" "" initState) = Some s1
    /\ (keysAndDurations <$> parsePipelineRunList inOrder twoDumps "second.json" "" s1)
       = Some (["ns:quick"; "ns:build"], [10%float; 100%float])
    /\ (keysAndDurations
          <$> parsePipelineRunList inOrder twoDumps "second.json" "" initState)
       = Some (["ns:quick"], [10%float]).
Proof. eexists. split; [vm_compute; reflexivity|]. split; vm_compute; reflexivity. Qed.

Lemma second_run_accumulates_witness :
  exists r1 s1 r2 s2,
    parsePipelineRunList inOrder twoDumps "first.json" "" initState = Some (r1, s1)
    /\ parsePipelineRunList backwards twoDumps "second.json" "" s1 = Some (r2, s2)
    /\ StronglySorted floatLt (prDurations s2)
    /\ NoDup (retS r2)
    /\ (forall k, k ∈ retS r2
          <-> (exists pr,
                  (pr ∈ [mkPR "ns" "build" 63800000000 63800000100]
                   /\ ignorePipelineRun pr "" = false) /\ prKeyOf pr = k)
              \/ (exists pr,
                     (pr ∈ [mkPR "ns" "quick" 63800000200 63800000210]
                      /\ ignorePipelineRun pr "" = false) /\ prKeyOf pr = k))
    /\ (exists groups,
           rowsOf r2 = concat groups
           /\ Forall2 (fun d g => Forall (fun row => PrimFloat.eqb row.1.2 d = true) g)
                      (prDurations s2) groups).
Proof.
  destruct (second_run_accumulates inOrder backwards twoDumps twoDumps
              "first.json" "second.json" "" "")
    as (r1 & s1 & r2 & s2 & E1 & E2 & S & N & K & _ & _ & _ & G).
  - intros pr [[Hpr _]|[Hpr _]].
    + change (pr ∈ [mkPR "ns" "build" 63800000000 63800000100]) in Hpr.
      apply list_elem_of_singleton in Hpr as ->. eexists. reflexivity.
    + change (pr ∈ [mkPR "ns" "quick" 63800000200 63800000210]) in Hpr.
      apply list_elem_of_singleton in Hpr as ->. eexists. reflexivity.
  - exists r1, s1, r2, s2.
    split; [exact E1|]. split; [exact E2|]. split; [exact S|]. split; [exact N|].
    split; [exact K|exact G].
Defined.

(** ** A source that cannot be read *)

(** In the revision with directory walks no [parseXList] ever takes its
    error branch: the walk returns nil whatever it meets. *)
Lemma parsePipelineRunList_never_fails o tree fileName prFilter s r s' :
  parsePipelineRunList o tree fileName prFilter s = Some (r, s') -> ok r = true.
Proof.
  unfold parsePipelineRunList, processPRFiles.
  destruct (walkFiles_items pr_Kind "PipelineRun" (tree fileName) s) as (s1 & -> & _).
  destruct (processAll _ _ _ s1); simpl; [|discriminate].
  now intros [= <- _].
Qed.

(** In the revision that reads one file per kind, a pipeline run file that
    cannot be read ends the [all] command: nothing is printed, and the
    message on [os.Stderr] names the file. *)
Lemma ReadFile_all_aborts o fs prFileName trFileName podFileName rest msg s :
  ReadFile.prFile fs prFileName = ReadError msg ->
  ReadFile.ParseAllThreeLists o fs (prFileName :: trFileName :: podFileName :: rest) s
  = Some ([], writeStderr ["ERROR: problem reading file " +:+ prFileName +:+ ": "
                           +:+ msg +:+ newline] s).
Proof.
  intros H. unfold ReadFile.ParseAllThreeLists, ReadFile.parsePipelineRunList,
    ReadFile.parseList. now rewrite H.
Qed.

(** C2 at a failing input: the [all] command on a pipeline run file, a task
    run file that cannot be read and a pod file. The command with nested
    loops prints a line per pipeline run, with no task run and no pod
    under it, and writes nothing to [os.Stderr]. The command with
    directory walks writes the error of the walk to [os.Stderr] and prints
    a line per pipeline run all the same, with the pods and without the
    task runs. The command that reads one file per kind prints nothing and
    writes a message that names the file. *)
Theorem unreadable_source_still_reports :
  ((fun r : list Inline.Line * list string => (trHalfInline <$> r.1, r.2))
     <$> Inline.ParseAllThreeLists inOrder (fun _ => Loaded samplePRs) unreadable
           (fun _ => Loaded samplePods) sampleArgs)
  = Some ([("ns:quick", 10, 0, 10, 0); ("ns:build", 100, 0, 100, 0)]%float, [])
  /\ ((fun r : list AggregateRow * State =>
         ((fun row => (row_prkey row, row_totalTRDuration row, row_totalPodDuration row))
            <$> r.1, stderr r.2))
        <$> ParseAllThreeLists inOrder missingTaskRuns sampleArgs initState)
     = Some ([("ns:quick", 0, 0); ("ns:build", 0, 20)]%float,
             ["filepath walk error: lstat trs.json: no such file or directory"
              +:+ newline])
  /\ ((fun r : list AggregateRow * State => (r.1, stderr r.2))
        <$> ReadFile.ParseAllThreeLists inOrder
              {| ReadFile.prFile := fun _ => Loaded samplePRs;
                 ReadFile.trFile := unreadable;
                 ReadFile.podFile := fun _ => Loaded samplePods |}
              sampleArgs initState)
     = Some ([], ["ERROR: problem reading file trs.json: "
                  +:+ "open trs.json: no such file or directory" +:+ newline]).
Proof. repeat split; vm_compute; reflexivity. Qed.

(** ** The [all] command, end to end *)

Lemma eligible_trEntry tr prFilter :
  ignoreTaskRun tr prFilter = false -> is_Some (tr_CompletionTime tr) ->
  is_Some (trEntry tr).
Proof.
  unfold ignoreTaskRun, tr_HasStarted, startedAt, trEntry.
  intros I [c ->].
  destruct (tr_StartTime tr) as [t|]; simpl in *; [eauto|discriminate].
Qed.

Lemma parsePipelineRunList_flag o tree fileName prFilter s :
  complete (fun pr => ignorePipelineRun pr prFilter) prEntry
           (walkedItems pr_Kind "PipelineRun" (tree fileName)) ->
  exists rows s',
    parsePipelineRunList o tree fileName prFilter s = Some (resultOf rows, s')
    /\ containerOnly s' = containerOnly s.
Proof.
  intros C. unfold parsePipelineRunList, processPRFiles.
  destruct (walkFiles_items pr_Kind "PipelineRun" (tree fileName) s)
    as (s1 & -> & _ & _ & _ & _ & Hc).
  rewrite (processAll_entries _ processPipelineRun prEntry withPr
             processPipelineRun_entry (fun f g s => eq_refl) withPr_id _ s1 C).
  simpl. eexists _, _. split; [reflexivity|]. exact Hc.
Qed.

Lemma parseTaskRunList_flag o tree fileName prFilter s :
  complete (fun tr => ignoreTaskRun tr prFilter) trEntry
           (walkedItems tr_Kind "TaskRun" (tree fileName)) ->
  exists rows s',
    parseTaskRunList o tree fileName prFilter s = Some (resultOf rows, s')
    /\ containerOnly s' = containerOnly s.
Proof.
  intros C. unfold parseTaskRunList, processTRFiles.
  destruct (walkFiles_items tr_Kind "TaskRun" (tree fileName) s)
    as (s1 & -> & _ & _ & _ & _ & Hc).
  rewrite (processAll_entries _ processTaskRun trEntry withTr
             processTaskRun_entry (fun f g s => eq_refl) withTr_id _ s1 C).
  simpl. eexists _, _. split; [reflexivity|]. exact Hc.
Qed.

(** With three files that hold what [processX] dereferences, the [all]
    command runs the three analyses one after the other and prints, for
    every row of the pipeline runs, the line [attribution] describes. *)
Lemma ParseAllThreeLists_rows o fs prFileName trFileName podFileName rest s :
  statOf fs prFileName = inr false ->
  containerOnly s = false ->
  complete (fun pr => ignorePipelineRun pr "") prEntry
           (walkedItems pr_Kind "PipelineRun" (prFiles fs prFileName)) ->
  complete (fun tr => ignoreTaskRun tr "") trEntry
           (walkedItems tr_Kind "TaskRun" (trFiles fs trFileName)) ->
  exists r1 s1 r2 s2 r3 s3,
    parsePipelineRunList o (prFiles fs) prFileName "" s = Some (r1, s1)
    /\ parseTaskRunList o (trFiles fs) trFileName "" s1 = Some (r2, s2)
    /\ parsePodList o (podFiles fs) podFileName "" s2 = Some (r3, s3)
    /\ ParseAllThreeLists o fs (prFileName :: trFileName :: podFileName :: rest) s
       = Some (attribution (rowsOf r2) (rowsOf r3) <$> rowsOf r1, s3).
Proof.
  intros Hstat Hflag C1 C2.
  destruct (parsePipelineRunList_flag o (prFiles fs) prFileName "" s C1)
    as (rows1 & s1 & E1 & F1).
  destruct (parseTaskRunList_flag o (trFiles fs) trFileName "" s1 C2)
    as (rows2 & s2 & E2 & F2).
  destruct (parsePodList_run o (podFiles fs) podFileName "" s2
              ltac:(congruence)) as (s3 & E3 & _).
  eexists _, s1, _, s2, _, s3.
  split; [exact E1|]. split; [exact E2|]. split; [exact E3|].
  unfold ParseAllThreeLists. rewrite Hstat. simpl.
  rewrite E1. simpl. rewrite E2. simpl. rewrite E3. simpl.
  rewrite aggregateRows_rows. simpl. now rewrite !rowsOf_resultOf.
Qed.

(** * Further properties of the code *)

(** ** Concurrency counts *)

Lemma tally_le_length {A : Type} (f : A -> bool) l : tally f l <= Z.of_nat (length l).
Proof. induction l as [|x l IH]; simpl length; simpl tally; [lia|]. destruct (f x); lia. Qed.

Lemma counted_self key starts ends t : counted key starts ends (key, t) = false.
Proof. unfold counted. simpl. now rewrite String.eqb_refl. Qed.

(** The test of the loop does not depend on which of the two windows is the
    one looked at. *)
Lemma countsAgainst_sym s1 e1 s2 e2 :
  countsAgainst s1 e1 s2 e2 = countsAgainst s2 e2 s1 e1.
Proof.
  unfold countsAgainst, Equal, Before, After.
  rewrite (Z.eqb_sym s2 s1), (Z.eqb_sym e2 e1).
  destruct (s1 =? s2), (e1 =? e2); simpl; try reflexivity; apply andb_comm.
Qed.

(** Taking another entry out of the tables lowers the count by one when
    that entry was counted, and leaves it as it was otherwise. *)
Lemma innerConcurrency_delete_split o key other starts ends start :
  other <> key -> starts !! other = Some start ->
  innerConcurrency o key starts ends
  = innerConcurrency o key (delete other starts) (delete other ends)
    + (if counted key starts ends (other, start) then 1 else 0).
Proof.
  intros Hne Hin. rewrite !innerConcurrency_tally.
  rewrite <- (tally_Permutation _ _ _ (map_to_list_delete starts other start Hin)).
  simpl.
  assert (E : tally (counted key starts ends) (map_to_list (delete other starts))
              = tally (counted key (delete other starts) (delete other ends))
                      (map_to_list (delete other starts))).
  { apply tally_ext. intros [k t] Hk. apply elem_of_map_to_list in Hk.
    unfold counted, timeAt. simpl.
    rewrite !(lookup_delete_ne _ other key) by exact Hne.
    destruct (decide (k = other)) as [->|Hk'].
    - rewrite lookup_delete_eq in Hk. discriminate.
    - now rewrite (lookup_delete_ne ends other k) by congruence. }
  rewrite E. lia.
Qed.

(** X1. The concurrency [innerConcurrency] returns for a key is at least 1
    and at most one more than the number of entries of the start table; for
    a key that is in the table it is at most the number of entries. *)
Theorem innerConcurrency_bounds (o : RangeOracle) (key : string)
    (starts ends : gmap string Time) :
  1 <= innerConcurrency o key starts ends <= 1 + Z.of_nat (size starts)
  /\ (is_Some (starts !! key) ->
      innerConcurrency o key starts ends <= Z.of_nat (size starts)).
Proof.
  rewrite innerConcurrency_tally.
  pose proof (tally_nonneg (counted key starts ends) (map_to_list starts)) as H0.
  pose proof (tally_le_length (counted key starts ends) (map_to_list starts)) as H1.
  rewrite length_map_to_list in H1. split; [lia|].
  intros [t Ht].
  rewrite <- (tally_Permutation _ _ _ (map_to_list_delete starts key t Ht)).
  simpl. rewrite counted_self.
  pose proof (tally_le_length (counted key starts ends)
                (map_to_list (delete key starts))) as H2.
  rewrite length_map_to_list in H2.
  pose proof (Permutation_length (map_to_list_delete starts key t Ht)) as H3.
  simpl in H3. rewrite !length_map_to_list in H3. lia.
Qed.

(** X2. The concurrency of a key does not depend on the order in which the
    range over the start table yields its entries. *)
Theorem innerConcurrency_any_order (o1 o2 : RangeOracle) (key : string)
    (starts ends : gmap string Time) :
  innerConcurrency o1 key starts ends = innerConcurrency o2 key starts ends.
Proof.
  unfold innerConcurrency. rewrite !innerConcurrency_fold. f_equal.
  apply tally_Permutation. unfold range.
  transitivity (map_to_list starts); [|symmetry]; apply range_order_perm.
Qed.

(** X3. Two keys of the start table count each other or neither does: what
    the entry of [B] adds to the concurrency of [A] is what the entry of
    [A] adds to the concurrency of [B]. *)
Theorem concurrency_is_mutual (o : RangeOracle) (A B : string)
    (starts ends : gmap string Time) (sA sB : Time) :
  A <> B -> starts !! A = Some sA -> starts !! B = Some sB ->
  innerConcurrency o A starts ends
  - innerConcurrency o A (delete B starts) (delete B ends)
  = innerConcurrency o B starts ends
    - innerConcurrency o B (delete A starts) (delete A ends).
Proof.
  intros Hne HA HB.
  rewrite (innerConcurrency_delete_split o A B starts ends sB) by congruence.
  rewrite (innerConcurrency_delete_split o B A starts ends sA) by congruence.
  assert (E : counted A starts ends (B, sB) = counted B starts ends (A, sA)).
  { unfold counted, timeAt. simpl. rewrite HA, HB. simpl.
    rewrite countsAgainst_sym.
    destruct (String.eqb_spec B A), (String.eqb_spec A B); congruence. }
  rewrite E. lia.
Qed.

Lemma concurrency_is_mutual_witness :
  let starts : gmap string Time := {["ns:a" := 0; "ns:b" := 5; "ns:c" := 20]} in
  let ends : gmap string Time := {["ns:a" := 10; "ns:b" := 15; "ns:c" := 25]} in
  innerConcurrency inOrder "ns:a" starts ends
  - innerConcurrency inOrder "ns:a" (delete "ns:b" starts) (delete "ns:b" ends)
  = innerConcurrency inOrder "ns:b" starts ends
    - innerConcurrency inOrder "ns:b" (delete "ns:a" starts) (delete "ns:a" ends).
Proof.
  intros starts ends.
  apply (concurrency_is_mutual inOrder "ns:a" "ns:b" starts ends 0 5).
  - discriminate.
  - reflexivity.
  - reflexivity.
Defined.

(** ** Invariants of the tables *)

Lemma distinct_by_index l :
  Forall isNumber l ->
  NoDup (floatKey <$> l)
  <-> (forall i j x y, l !! i = Some x -> l !! j = Some y ->
                       PrimFloat.eqb x y = true -> i = j).
Proof.
  intros N. rewrite NoDup_alt. split.
  - intros H i j x y Hi Hj E. apply eqb_floatKey in E as (k & Kx & Ky).
    apply (H i j (Some k)); rewrite list_lookup_fmap; [rewrite Hi|rewrite Hj];
      simpl; congruence.
  - intros H i j k Hi Hj. rewrite list_lookup_fmap in Hi, Hj.
    destruct (l !! i) as [x|] eqn:Ex; [|discriminate].
    destruct (l !! j) as [y|] eqn:Ey; [|discriminate].
    simpl in Hi, Hj. apply (H i j x y Ex Ey).
    assert (Nx : isNumber x)
      by (eapply (proj1 (Forall_forall _ _) N), list_elem_of_lookup_2; eassumption).
    destruct (isNumber_floatKey x Nx) as [kx Kx].
    apply eqb_floatKey. exists kx. split; congruence.
Qed.

Lemma tablesInvariant_OK t : tablesInvariant t <-> TablesOK t /\ consistent t.
Proof.
  split.
  - intros (N & D & P & K & C). split; [|exact C].
    split; [exact N|now apply distinct_by_index|exact P|exact K].
  - intros [[N D P K] C]. split; [exact N|]. split; [now apply distinct_by_index|].
    auto.
Qed.

Lemma consistent_empty : consistent emptyTables.
Proof.
  intros k. simpl. rewrite !lookup_empty.
  split; [split; intros [? H]; discriminate|].
  split; [split; intros [? H]; discriminate|]. discriminate.
Qed.

Lemma consistent_recordInterval key start finish t :
  consistent t ->
  consistent (recordInterval key start finish (Seconds (Sub finish start)) t).
Proof.
  intros C k. simpl. destruct (decide (k = key)) as [->|Hk].
  - rewrite !lookup_insert_eq. split; [split; eauto|]. split; [split; eauto|].
    now intros s e v [= <-] [= <-] [= <-].
  - rewrite !lookup_insert_ne by congruence. apply C.
Qed.

Lemma consistent_sortDurations t : consistent t -> consistent (sortDurations t).
Proof. intros C k. apply C. Qed.

Lemma tablesInvariant_empty : tablesInvariant emptyTables.
Proof. apply tablesInvariant_OK. split; [apply TablesOK_empty|apply consistent_empty]. Qed.

Lemma tablesInvariant_recordInterval key start finish t :
  tablesInvariant t ->
  tablesInvariant (recordInterval key start finish (Seconds (Sub finish start)) t).
Proof.
  rewrite !tablesInvariant_OK. intros [H C]. split.
  - apply TablesOK_recordInterval; [apply Seconds_not_nan|exact H].
  - now apply consistent_recordInterval.
Qed.

Lemma tablesInvariant_sortDurations t :
  tablesInvariant t -> tablesInvariant (sortDurations t).
Proof.
  rewrite !tablesInvariant_OK. intros [H C]. split.
  - now apply TablesOK_sortDurations.
  - now apply consistent_sortDurations.
Qed.

(** What holds before a run of [processX] over a list and is kept by every
    [processX] holds after the run. *)
Lemma processAll_invariant {T : Type} (ignore : T -> bool)
    (process : T -> State -> option (Duration * State)) (P : State -> Prop) :
  (forall x s d s', process x s = Some (d, s') -> P s -> P s') ->
  forall items s s', P s -> processAll ignore process items s = Some s' -> P s'.
Proof.
  intros Hstep items. unfold processAll.
  induction items as [|x items IH]; intros s s' HP H; simpl in H.
  - now injection H as <-.
  - destruct (ignore x); [now apply (IH s)|].
    destruct (process x s) as [[d s1]|] eqn:E; simpl in H.
    + apply (IH s1); [|exact H]. now apply (Hstep x s d s1).
    + exfalso. clear -H. induction items as [|y items IH]; simpl in H;
        [discriminate|now apply IH].
Qed.

Lemma processPipelineRun_invariant pr s d s' :
  processPipelineRun pr s = Some (d, s') -> stateInvariant s -> stateInvariant s'.
Proof.
  unfold processPipelineRun.
  destruct (pr_CompletionTime pr), (pr_StartTime pr); simpl; try discriminate.
  intros [= _ <-] (H1 & H2 & H3 & H4).
  refine (conj _ (conj _ (conj _ _))); simpl; try assumption;
    now apply tablesInvariant_recordInterval.
Qed.

Lemma processTaskRun_invariant tr s d s' :
  processTaskRun tr s = Some (d, s') -> stateInvariant s -> stateInvariant s'.
Proof.
  unfold processTaskRun.
  destruct (tr_CompletionTime tr), (tr_StartTime tr); simpl; try discriminate.
  intros [= _ <-] (H1 & H2 & H3 & H4).
  refine (conj _ (conj _ (conj _ _))); simpl; try assumption;
    now apply tablesInvariant_recordInterval.
Qed.

Lemma processPod_invariant pod s d s' :
  processPod pod s = Some (d, s') -> stateInvariant s -> stateInvariant s'.
Proof.
  unfold processPod. destruct (pod_StartTime pod); simpl; try discriminate.
  intros [= _ <-] (H1 & H2 & H3 & H4).
  refine (conj _ (conj _ (conj _ _))); simpl; try assumption;
    now apply tablesInvariant_recordInterval.
Qed.

Lemma processContainerStatus_invariant pod s cstatus s' :
  processContainerStatus pod (Some s) cstatus = Some s' ->
  stateInvariant s -> stateInvariant s'.
Proof.
  unfold processContainerStatus. simpl.
  destruct (cs_Terminated cstatus) as [terminated|]; [|now intros [= <-]].
  destruct (containerWindow pod cstatus terminated) as [[started finished]|];
    simpl; [|discriminate].
  intros [= <-] (H1 & H2 & H3 & H4).
  refine (conj _ (conj _ (conj _ _))); simpl; try assumption;
    now apply tablesInvariant_recordInterval.
Qed.

Lemma processContainerStatus_None pod l :
  fold_left (processContainerStatus pod) l None = None.
Proof. induction l as [|c l IH]; [reflexivity|exact IH]. Qed.

Lemma processContainerStatuses_invariant pod l s s' :
  fold_left (processContainerStatus pod) l (Some s) = Some s' ->
  stateInvariant s -> stateInvariant s'.
Proof.
  revert s. induction l as [|c l IH]; intros s H I.
  - now injection H as <-.
  - cbn [fold_left] in H.
    destruct (processContainerStatus pod (Some s) c) as [s1|] eqn:E.
    + apply (IH s1 H). now apply (processContainerStatus_invariant pod s c s1).
    + rewrite processContainerStatus_None in H. discriminate.
Qed.

Lemma processContainers_invariant pod s d s' :
  processContainers pod s = Some (d, s') -> stateInvariant s -> stateInvariant s'.
Proof.
  unfold processContainers.
  destruct (fold_left _ _ (Some s)) as [s1|] eqn:E; simpl; [|discriminate].
  intros [= _ <-]. exact (processContainerStatuses_invariant pod _ s s1 E).
Qed.

Lemma withPr_sort_invariant s : stateInvariant s -> stateInvariant (withPr sortDurations s).
Proof.
  intros (H1 & H2 & H3 & H4).
  refine (conj _ (conj _ (conj _ _))); simpl; try assumption;
    now apply tablesInvariant_sortDurations.
Qed.
Lemma withTr_sort_invariant s : stateInvariant s -> stateInvariant (withTr sortDurations s).
Proof.
  intros (H1 & H2 & H3 & H4).
  refine (conj _ (conj _ (conj _ _))); simpl; try assumption;
    now apply tablesInvariant_sortDurations.
Qed.
Lemma withPod_sort_invariant s : stateInvariant s -> stateInvariant (withPod sortDurations s).
Proof.
  intros (H1 & H2 & H3 & H4).
  refine (conj _ (conj _ (conj _ _))); simpl; try assumption;
    now apply tablesInvariant_sortDurations.
Qed.
Lemma withContainer_sort_invariant s :
  stateInvariant s -> stateInvariant (withContainer sortDurations s).
Proof.
  intros (H1 & H2 & H3 & H4).
  refine (conj _ (conj _ (conj _ _))); simpl; try assumption;
    now apply tablesInvariant_sortDurations.
Qed.

Lemma walkFiles_invariant {T : Type} (kindOf : T -> string) kind entries s items err s' :
  walkFiles kindOf kind entries s = (items, err, s') ->
  stateInvariant s -> stateInvariant s' /\ containerOnly s' = containerOnly s.
Proof.
  destruct (walkFiles_items kindOf kind entries s) as (s1 & -> & E1 & E2 & E3 & E4 & E5).
  intros [= _ _ <-] I. unfold stateInvariant. rewrite E1, E2, E3, E4. now split.
Qed.

Lemma writeStderr_invariant lines s : stateInvariant s -> stateInvariant (writeStderr lines s).
Proof. intros H. exact H. Qed.

Lemma parsePipelineRunList_invariant o tree fileName prFilter s r s' :
  parsePipelineRunList o tree fileName prFilter s = Some (r, s') ->
  stateInvariant s -> stateInvariant s'.
Proof.
  unfold parsePipelineRunList, processPRFiles. intros H I.
  destruct (walkFiles _ _ _ s) as [[items err] s1] eqn:W.
  apply walkFiles_invariant in W as [I1 _]; [|exact I].
  destruct err; [now injection H as _ <-|].
  destruct (processAll _ _ items s1) as [s2|] eqn:E; simpl in H; [|discriminate].
  injection H as _ <-. apply withPr_sort_invariant.
  eapply processAll_invariant; [|exact I1|exact E].
  intros x. apply processPipelineRun_invariant.
Qed.

Lemma parseTaskRunList_invariant o tree fileName prFilter s r s' :
  parseTaskRunList o tree fileName prFilter s = Some (r, s') ->
  stateInvariant s -> stateInvariant s'.
Proof.
  unfold parseTaskRunList, processTRFiles. intros H I.
  destruct (walkFiles _ _ _ s) as [[items err] s1] eqn:W.
  apply walkFiles_invariant in W as [I1 _]; [|exact I].
  destruct err; [now injection H as _ <-|].
  destruct (processAll _ _ items s1) as [s2|] eqn:E; simpl in H; [|discriminate].
  injection H as _ <-. apply withTr_sort_invariant.
  eapply processAll_invariant; [|exact I1|exact E].
  intros x. apply processTaskRun_invariant.
Qed.

Lemma parsePodList_invariant o tree fileName prFilter s r s' :
  parsePodList o tree fileName prFilter s = Some (r, s') ->
  stateInvariant s -> stateInvariant s'.
Proof.
  unfold parsePodList, processPodFiles. intros H I.
  destruct (walkFiles _ _ _ s) as [[items err] s1] eqn:W.
  apply walkFiles_invariant in W as [I1 _]; [|exact I].
  destruct err; [now injection H as _ <-|].
  destruct (processAll _ _ items s1) as [s2|] eqn:E; simpl in H; [|discriminate].
  assert (I2 : stateInvariant s2).
  { eapply processAll_invariant; [|exact I1|exact E].
    intros x s0 d s0'. unfold processPodOrContainers.
    destruct (negb (containerOnly s1)); [apply processPod_invariant|].
    destruct (processContainers x s0) as [[ds s3]|] eqn:Ec; simpl; [|discriminate].
    intros [= _ <-]. now apply (processContainers_invariant x s0 ds s3). }
  destruct (negb (containerOnly s2)); injection H as _ <-.
  - now apply withPod_sort_invariant.
  - now apply withContainer_sort_invariant.
Qed.

Lemma stateInvariant_init : stateInvariant initState.
Proof. repeat split; apply tablesInvariant_empty. Qed.

Lemma ParseAllThreeLists_invariant o fs args s rows s' :
  ParseAllThreeLists o fs args s = Some (rows, s') ->
  stateInvariant s -> stateInvariant s'.
Proof.
  unfold ParseAllThreeLists. intros H I.
  destruct args as [|arg0 rest]; [now injection H as _ <-|].
  destruct (statOf fs arg0) as [e|isDir]; [now injection H as _ <-|].
  destruct (_ && _); [now injection H as _ <-|].
  destruct (if negb isDir then _ else _) as [[[prFileName trFileName] podFileName]|];
    simpl in H; [|discriminate].
  destruct (parsePipelineRunList o (prFiles fs) prFileName "" s) as [[r1 s1]|] eqn:E1;
    simpl in H; [|discriminate].
  apply parsePipelineRunList_invariant in E1; [|exact I].
  destruct (negb (ok r1)); [now injection H as _ <-|].
  destruct (parseTaskRunList o (trFiles fs) trFileName "" s1) as [[r2 s2]|] eqn:E2;
    simpl in H; [|discriminate].
  apply parseTaskRunList_invariant in E2; [|exact E1].
  destruct (negb (ok r2)); [now injection H as _ <-|].
  destruct (parsePodList o (podFiles fs) podFileName "" s2) as [[r3 s3]|] eqn:E3;
    simpl in H; [|discriminate].
  apply parsePodList_invariant in E3; [|exact E2].
  destruct (negb (ok r3)); [now injection H as _ <-|].
  destruct (aggregateRows r1 r2 r3); simpl in H; [|discriminate].
  now injection H as _ <-.
Qed.

(** X4. The analyses keep the tables of every kind well formed. The
    tables as the program initialises them are such that, in the tables of
    each kind, no distinct duration is NaN, no two of them are [==], the
    slice and the set of distinct durations hold the same values, every
    key has a duration [==] to one of them, the start, end and duration
    tables hold the same keys and every duration is the seconds from the
    start to the end of its key; and when this holds, it holds again after
    [parsePipelineRunList], [parseTaskRunList], [parsePodList] (in either
    mode) and the [all] command, whatever they read. *)
Theorem analyses_keep_tables_well_formed (s : State) :
  stateInvariant initState
  /\ (stateInvariant s ->
      (forall o tree fileName prFilter r s',
          parsePipelineRunList o tree fileName prFilter s = Some (r, s') ->
          stateInvariant s')
      /\ (forall o tree fileName prFilter r s',
             parseTaskRunList o tree fileName prFilter s = Some (r, s') ->
             stateInvariant s')
      /\ (forall o tree fileName prFilter r s',
             parsePodList o tree fileName prFilter s = Some (r, s') ->
             stateInvariant s')
      /\ (forall o fs args rows s',
             ParseAllThreeLists o fs args s = Some (rows, s') -> stateInvariant s')).
Proof.
  split; [apply stateInvariant_init|].
  intros I. split; [|split; [|split]].
  - intros o tree fileName prFilter r s' H.
    exact (parsePipelineRunList_invariant o tree fileName prFilter s r s' H I).
  - intros o tree fileName prFilter r s' H.
    exact (parseTaskRunList_invariant o tree fileName prFilter s r s' H I).
  - intros o tree fileName prFilter r s' H.
    exact (parsePodList_invariant o tree fileName prFilter s r s' H I).
  - intros o fs args rows s' H.
    exact (ParseAllThreeLists_invariant o fs args s rows s' H I).
Qed.

Lemma analyses_keep_tables_well_formed_witness :
  exists rows s',
    ParseAllThreeLists inOrder sampleFS sampleArgs initState = Some (rows, s')
    /\ stateInvariant s'.
Proof.
  destruct (ParseAllThreeLists inOrder sampleFS sampleArgs initState)
    as [[rows s']|] eqn:E; [|vm_compute in E; discriminate].
  exists rows, s'. split; [reflexivity|].
  destruct (analyses_keep_tables_well_formed initState) as [I H].
  destruct (H I) as (_ & _ & _ & F).
  exact (F inOrder sampleFS sampleArgs rows s' E).
Defined.

(** ** Nil dereferences and indexing *)

Lemma nameToIndex_bound names name i :
  nameToIndex names !! name = Some i -> (i < length names)%nat.
Proof. intros H. eapply lookup_lt_Some, nameToIndex_lookup, H. Qed.

(** The two slices [processContainers] indexes are indexed within their
    range, for every status of the pod. *)
Lemma containerWindow_total pod cstatus terminated :
  cstatus ∈ pod_ContainerStatuses pod ->
  is_Some (containerWindow pod cstatus terminated).
Proof.
  intros Hin. unfold containerWindow.
  destruct (nameToIndex (pod_SpecContainers pod) !! cs_Name cstatus) as [i|] eqn:Ei;
    simpl; [|eauto].
  destruct i as [|i]; simpl; [eauto|].
  apply nameToIndex_bound in Ei. rewrite Nat.sub_0_r.
  destruct (lookup_lt_is_Some_2 (pod_SpecContainers pod) i ltac:(lia)) as [prior ->].
  simpl.
  assert (Hj : is_Some (pod_ContainerStatuses pod
                          !! default 0%nat
                               (nameToIndex (cs_Name <$> pod_ContainerStatuses pod)
                                  !! prior))).
  { destruct (nameToIndex (cs_Name <$> pod_ContainerStatuses pod) !! prior)
      as [j|] eqn:Ej; simpl.
    - apply nameToIndex_bound in Ej. rewrite length_fmap in Ej.
      now apply lookup_lt_is_Some_2.
    - apply lookup_lt_is_Some_2. apply list_elem_of_lookup in Hin as [n Hn].
      apply lookup_lt_Some in Hn. lia. }
  destruct Hj as [priorStatus ->]. simpl.
  destruct (cs_Terminated priorStatus); simpl; eauto.
Qed.

Lemma processContainerStatuses_total pod l s :
  l ⊆ pod_ContainerStatuses pod ->
  is_Some (fold_left (processContainerStatus pod) l (Some s)).
Proof.
  revert s. induction l as [|c l IH]; intros s Hl; [simpl; eauto|].
  cbn [fold_left].
  assert (Hc : c ∈ pod_ContainerStatuses pod) by (apply Hl; left).
  assert (Hl' : l ⊆ pod_ContainerStatuses pod) by (intros x Hx; apply Hl; now right).
  unfold processContainerStatus at 2. simpl.
  destruct (cs_Terminated c) as [terminated|]; [|now apply IH].
  destruct (containerWindow_total pod c terminated Hc) as [[started finished] ->].
  simpl. now apply IH.
Qed.

Lemma processContainers_total pod s : is_Some (processContainers pod s).
Proof.
  unfold processContainers.
  destruct (processContainerStatuses_total pod (pod_ContainerStatuses pod) s)
    as [s' ->]; [reflexivity|]. simpl. eauto.
Qed.

(** A run of [processX] over a list returns when every [processX] does on
    the items that pass the filter. *)
Lemma processAll_total {T : Type} (ignore : T -> bool)
    (process : T -> State -> option (Duration * State)) items :
  (forall x s, x ∈ items -> ignore x = false -> is_Some (process x s)) ->
  forall s, is_Some (processAll ignore process items s).
Proof.
  unfold processAll. induction items as [|x items IH]; intros H s; simpl; [eauto|].
  assert (H' : forall y s, y ∈ items -> ignore y = false -> is_Some (process y s))
    by (intros y s0 Hy; apply H; now right).
  destruct (ignore x) eqn:I; [now apply IH|].
  destruct (H x s ltac:(left) I) as [[d s1] ->]. simpl. now apply IH.
Qed.

(** X5. The analysis of the pods never panics and never reports a failure,
    with or without [--containers-only], whatever the walk finds and
    whatever the tables hold: [processPod] dereferences only the start time
    the filter has checked, and [processContainers] indexes the containers
    of the spec and the statuses of the pod within their range. *)
Theorem pod_analysis_never_panics (o : RangeOracle) (tree : FileTree Pod)
    (fileName prFilter : string) (s : State) :
  exists r s',
    parsePodList o tree fileName prFilter s = Some (r, s')
    /\ ok r = true
    /\ length (retF r) = length (retS r) /\ length (retI r) = length (retS r).
Proof.
  unfold parsePodList, processPodFiles.
  destruct (walkFiles_items pod_Kind "Pod" (tree fileName) s) as (s1 & -> & _).
  destruct (processAll_total (fun pod => ignorePod pod prFilter)
              (processPodOrContainers (containerOnly s1))
              (walkedItems pod_Kind "Pod" (tree fileName))) with (s := s1)
    as [s2 ->].
  { intros pod s0 _ I. unfold processPodOrContainers.
    destruct (negb (containerOnly s1)).
    - rewrite processPod_entry.
      destruct (eligible_podEntry pod prFilter I) as [e ->]. simpl. eauto.
    - destruct (processContainers_total pod s0) as [[ds s3] ->]. simpl. eauto. }
  simpl. destruct (negb (containerOnly s2)); eexists _, _;
    (split; [reflexivity|]); simpl; rewrite !length_fmap; auto.
Qed.

Lemma complete_dec {T : Type} (ignore : T -> bool) (entry : T -> option Entry) items :
  complete ignore entry items
  \/ exists x, x ∈ items /\ ignore x = false /\ entry x = None.
Proof.
  induction items as [|x items IH].
  - left. intros y Hy. inversion Hy.
  - destruct IH as [C|(y & Hy & I & E)].
    + destruct (ignore x) eqn:I.
      * left. intros y [->|Hy]%elem_of_cons Iy; [congruence|now apply C].
      * destruct (entry x) as [e|] eqn:E.
        -- left. intros y [->|Hy]%elem_of_cons Iy; [eauto|now apply C].
        -- right. exists x. split; [left|]. auto.
    + right. exists y. split; [now right|]. auto.
Qed.

Lemma prEntry_None pr prFilter :
  ignorePipelineRun pr prFilter = false ->
  prEntry pr = None <-> pr_CompletionTime pr = None.
Proof.
  intros I. split.
  - intros E. destruct (pr_CompletionTime pr) as [c|] eqn:Ec; [|reflexivity].
    destruct (eligible_prEntry pr prFilter I) as [e He]; [rewrite Ec; eauto|congruence].
  - unfold prEntry. now intros ->.
Qed.

Lemma trEntry_None tr prFilter :
  ignoreTaskRun tr prFilter = false ->
  trEntry tr = None <-> tr_CompletionTime tr = None.
Proof.
  intros I. split.
  - intros E. destruct (tr_CompletionTime tr) as [c|] eqn:Ec; [|reflexivity].
    destruct (eligible_trEntry tr prFilter I) as [e He]; [rewrite Ec; eauto|congruence].
  - unfold trEntry. now intros ->.
Qed.

(** X6. The analysis of the pipeline runs panics exactly when the walk
    hands on a pipeline run that passes the filter (it has started and its
    [Succeeded] condition is known) and has no completion time:
    [processPipelineRun] dereferences it unchecked. The same holds of the
    task runs. In every other case they return. *)
Theorem missing_completion_time_panics (o : RangeOracle)
    (prTree : FileTree PipelineRun) (trTree : FileTree TaskRun)
    (fileName prFilter : string) (s : State) :
  (parsePipelineRunList o prTree fileName prFilter s = None
   <-> exists pr, pr ∈ walkedItems pr_Kind "PipelineRun" (prTree fileName)
                  /\ ignorePipelineRun pr prFilter = false
                  /\ pr_CompletionTime pr = None)
  /\ (parseTaskRunList o trTree fileName prFilter s = None
      <-> exists tr, tr ∈ walkedItems tr_Kind "TaskRun" (trTree fileName)
                     /\ ignoreTaskRun tr prFilter = false
                     /\ tr_CompletionTime tr = None).
Proof.
  split.
  - destruct (complete_dec (fun pr => ignorePipelineRun pr prFilter) prEntry
                (walkedItems pr_Kind "PipelineRun" (prTree fileName)))
      as [C|(pr & Hpr & I & E)].
    + destruct (parsePipelineRunList_run o prTree fileName prFilter s C)
        as (s' & -> & _).
      split; [discriminate|]. intros (pr & Hpr & I & E).
      destruct (C pr Hpr I) as [e He].
      apply (prEntry_None pr prFilter I) in E. congruence.
    + split.
      * intros _. exists pr. split; [exact Hpr|]. split; [exact I|].
        now apply (prEntry_None pr prFilter I).
      * intros _. unfold parsePipelineRunList, processPRFiles.
        destruct (walkFiles_items pr_Kind "PipelineRun" (prTree fileName) s)
          as (s1 & -> & _).
        now rewrite (processAll_panics (fun pr => ignorePipelineRun pr prFilter)
                       processPipelineRun prEntry withPr processPipelineRun_entry
                       _ s1 pr Hpr I E).
  - destruct (complete_dec (fun tr => ignoreTaskRun tr prFilter) trEntry
                (walkedItems tr_Kind "TaskRun" (trTree fileName)))
      as [C|(tr & Htr & I & E)].
    + destruct (parseTaskRunList_flag o trTree fileName prFilter s C)
        as (rows & s' & -> & _).
      split; [discriminate|]. intros (tr & Htr & I & E).
      destruct (C tr Htr I) as [e He].
      apply (trEntry_None tr prFilter I) in E. congruence.
    + split.
      * intros _. exists tr. split; [exact Htr|]. split; [exact I|].
        now apply (trEntry_None tr prFilter I).
      * intros _. unfold parseTaskRunList, processTRFiles.
        destruct (walkFiles_items tr_Kind "TaskRun" (trTree fileName) s)
          as (s1 & -> & _).
        now rewrite (processAll_panics (fun tr => ignoreTaskRun tr prFilter)
                       processTaskRun trEntry withTr processTaskRun_entry
                       _ s1 tr Htr I E).
Qed.

(** ** Walks *)

Lemma writeStderr_nil s : writeStderr [] s = s.
Proof. destruct s. unfold writeStderr. simpl. now rewrite app_nil_r. Qed.

Lemma writeStderr_app l1 l2 s :
  writeStderr l2 (writeStderr l1 s) = writeStderr (l1 ++ l2) s.
Proof. unfold writeStderr. simpl. now rewrite app_assoc. Qed.

Lemma walkFiles_spec {T : Type} (kindOf : T -> string) kind entries s :
  walkFiles kindOf kind entries s
  = (walkedItems kindOf kind entries, None, writeStderr (walkMessages entries) s).
Proof.
  unfold walkFiles.
  set (step := fun (acc : list T * State) (e : WalkEntry T) => _).
  assert (G : forall items s,
             fold_left step entries (items, s)
             = (items ++ walkedItems kindOf kind entries,
                writeStderr (walkMessages entries) s)).
  { induction entries as [|e entries IH]; intros items s0.
    - simpl. now rewrite app_nil_r, writeStderr_nil.
    - cbn [fold_left]. destruct e as [msg| |path msg| |l]; simpl step.
      + rewrite IH. simpl. now rewrite writeStderr_app.
      + rewrite IH. reflexivity.
      + rewrite IH. simpl. now rewrite writeStderr_app.
      + rewrite IH. reflexivity.
      + rewrite IH. simpl. now rewrite <- app_assoc. }
  now rewrite G.
Qed.


(** ** What an analysis leaves alone *)

Lemma processAll_pr_frame prFilter items s s' :
  processAll (fun pr => ignorePipelineRun pr prFilter) processPipelineRun items s
  = Some s' ->
  trTables s' = trTables s /\ podTables s' = podTables s
  /\ containerTables s' = containerTables s
  /\ containerOnly s' = containerOnly s /\ stderr s' = stderr s.
Proof.
  apply (processAll_invariant _ _
           (fun s' => trTables s' = trTables s /\ podTables s' = podTables s
                      /\ containerTables s' = containerTables s
                      /\ containerOnly s' = containerOnly s /\ stderr s' = stderr s));
    [|auto].
  intros pr s1 d s2. unfold processPipelineRun.
  destruct (pr_CompletionTime pr), (pr_StartTime pr); simpl; try discriminate.
  now intros [= _ <-].
Qed.

Lemma processAll_tr_frame prFilter items s s' :
  processAll (fun tr => ignoreTaskRun tr prFilter) processTaskRun items s = Some s' ->
  prTables s' = prTables s /\ podTables s' = podTables s
  /\ containerTables s' = containerTables s
  /\ containerOnly s' = containerOnly s /\ stderr s' = stderr s.
Proof.
  apply (processAll_invariant _ _
           (fun s' => prTables s' = prTables s /\ podTables s' = podTables s
                      /\ containerTables s' = containerTables s
                      /\ containerOnly s' = containerOnly s /\ stderr s' = stderr s));
    [|auto].
  intros tr s1 d s2. unfold processTaskRun.
  destruct (tr_CompletionTime tr), (tr_StartTime tr); simpl; try discriminate.
  now intros [= _ <-].
Qed.

Lemma processContainerStatuses_frame pod l s s' :
  fold_left (processContainerStatus pod) l (Some s) = Some s' ->
  prTables s' = prTables s /\ trTables s' = trTables s /\ podTables s' = podTables s
  /\ containerOnly s' = containerOnly s /\ stderr s' = stderr s.
Proof.
  revert s. induction l as [|c l IH]; intros s H.
  - now injection H as <-.
  - cbn [fold_left] in H.
    destruct (processContainerStatus pod (Some s) c) as [s1|] eqn:E.
    + apply IH in H. revert E. unfold processContainerStatus. simpl.
      destruct (cs_Terminated c) as [terminated|]; [|now intros [= <-]].
      destruct (containerWindow pod c terminated) as [[started finished]|];
        simpl; [|discriminate].
      intros [= <-]. exact H.
    + rewrite processContainerStatus_None in H. discriminate.
Qed.

Lemma processAll_pod_frame flag prFilter items s s' :
  processAll (fun pod => ignorePod pod prFilter) (processPodOrContainers flag) items s
  = Some s' ->
  prTables s' = prTables s /\ trTables s' = trTables s
  /\ (if flag then podTables s' = podTables s
      else containerTables s' = containerTables s)
  /\ containerOnly s' = containerOnly s /\ stderr s' = stderr s.
Proof.
  apply (processAll_invariant _ _
           (fun s' => prTables s' = prTables s /\ trTables s' = trTables s
                      /\ (if flag then podTables s' = podTables s
                          else containerTables s' = containerTables s)
                      /\ containerOnly s' = containerOnly s /\ stderr s' = stderr s)).
  - intros pod s1 d s2. unfold processPodOrContainers. destruct flag; simpl.
    + unfold processContainers.
      destruct (fold_left _ _ (Some s1)) as [s3|] eqn:E; simpl; [|discriminate].
      intros [= _ <-] (H1 & H2 & H3 & H4 & H5).
      apply processContainerStatuses_frame in E as (E1 & E2 & E3 & E4 & E5).
      repeat split; congruence.
    + unfold processPod. destruct (pod_StartTime pod); simpl; [|discriminate].
      now intros [= _ <-].
  - destruct flag; auto.
Qed.

(** X8. Each analysis writes only to the tables of its own kind. The
    analysis of the pipeline runs leaves the tables of the task runs, of
    the pods and of the containers as they were, and so on; the analysis
    of the pods leaves the tables of the containers alone, and with
    [--containers-only] those of the pods. None of them changes the
    [--containers-only] flag, and all any of them writes to [os.Stderr] are
    the lines of its walk. *)
Theorem analyses_touch_only_their_tables (o : RangeOracle)
    (fileName prFilter : string) (s : State) :
  (forall tree r s',
      parsePipelineRunList o tree fileName prFilter s = Some (r, s') ->
      trTables s' = trTables s /\ podTables s' = podTables s
      /\ containerTables s' = containerTables s
      /\ containerOnly s' = containerOnly s
      /\ stderr s' = stderr s ++ walkMessages (tree fileName))
  /\ (forall tree r s',
         parseTaskRunList o tree fileName prFilter s = Some (r, s') ->
         prTables s' = prTables s /\ podTables s' = podTables s
         /\ containerTables s' = containerTables s
         /\ containerOnly s' = containerOnly s
         /\ stderr s' = stderr s ++ walkMessages (tree fileName))
  /\ (forall tree r s',
         parsePodList o tree fileName prFilter s = Some (r, s') ->
         prTables s' = prTables s /\ trTables s' = trTables s
         /\ (if containerOnly s then podTables s' = podTables s
             else containerTables s' = containerTables s)
         /\ containerOnly s' = containerOnly s
         /\ stderr s' = stderr s ++ walkMessages (tree fileName)).
Proof.
  split; [|split].
  - intros tree r s'. unfold parsePipelineRunList, processPRFiles.
    rewrite walkFiles_spec.
    destruct (processAll _ _ _ _) as [s2|] eqn:E; simpl; [|discriminate].
    intros [= _ <-]. apply processAll_pr_frame in E as (E1 & E2 & E3 & E4 & E5).
    simpl. rewrite E1, E2, E3, E4, E5. auto.
  - intros tree r s'. unfold parseTaskRunList, processTRFiles.
    rewrite walkFiles_spec.
    destruct (processAll _ _ _ _) as [s2|] eqn:E; simpl; [|discriminate].
    intros [= _ <-]. apply processAll_tr_frame in E as (E1 & E2 & E3 & E4 & E5).
    simpl. rewrite E1, E2, E3, E4, E5. auto.
  - intros tree r s'. unfold parsePodList, processPodFiles.
    rewrite walkFiles_spec.
    destruct (processAll _ _ _ _) as [s2|] eqn:E; simpl; [|discriminate].
    apply processAll_pod_frame in E as (E1 & E2 & E3 & E4 & E5).
    simpl in E3, E4, E5. rewrite E4.
    destruct (containerOnly s); simpl; intros [= _ <-]; simpl;
      rewrite E1, E2, E3, E4, E5; auto.
Qed.

Lemma analyses_touch_only_their_tables_witness :
  exists r s',
    parsePipelineRunList inOrder (oneFile samplePRs) "prs.json" "" initState
    = Some (r, s')
    /\ trTables s' = emptyTables /\ podTables s' = emptyTables
    /\ containerTables s' = emptyTables /\ containerOnly s' = false
    /\ stderr s' = [].
Proof.
  destruct (parsePipelineRunList inOrder (oneFile samplePRs) "prs.json" "" initState)
    as [[r s']|] eqn:E; [|vm_compute in E; discriminate].
  exists r, s'. split; [reflexivity|].
  destruct (analyses_touch_only_their_tables inOrder "prs.json" "" initState)
    as (F & _ & _).
  exact (F (oneFile samplePRs) r s' E).
Defined.

(** ** Range orders *)

Lemma groupsOf_any_order o1 o2 ds (m : gmap string float) (c1 c2 : string -> Z) :
  (forall k, c1 k = c2 k) ->
  Forall2 Permutation (groupsOf o1 ds m c1) (groupsOf o2 ds m c2).
Proof.
  intros Hc. unfold groupsOf. apply Forall2_fmap, Forall_Forall2_diag, Forall_forall.
  intros d _. unfold rankRows, range. simpl. rewrite !app_nil_r.
  etransitivity;
    [apply flat_map_Permutation_arg, range_order_perm|].
  etransitivity;
    [|symmetry; apply flat_map_Permutation_arg, range_order_perm].
  erewrite flat_map_ext; [reflexivity|]. intros [k v]. now rewrite Hc.
Qed.

Lemma groupsOf_equal_durations o ds (m : gmap string float) (c : string -> Z) :
  Forall (fun g => forall x y : string * float * Z,
              x ∈ g -> y ∈ g -> PrimFloat.eqb x.1.2 y.1.2 = true)
         (groupsOf o ds m c).
Proof.
  destruct (rankRows_groups o ds m c) as [_ G].
  induction G as [|d g ds gs Hg _ IH]; constructor; [|exact IH].
  intros x y Hx Hy.
  pose proof (proj1 (Forall_forall _ _) Hg x Hx) as Ex.
  pose proof (proj1 (Forall_forall _ _) Hg y Hy) as Ey.
  simpl in Ex, Ey. apply eqb_sym in Ey. exact (eqb_trans _ _ _ Ex Ey).
Qed.

Lemma ranked_any_order o1 o2 ds (m : gmap string float) (c1 c2 : string -> Z) s :
  (forall k, c1 k = c2 k) ->
  sameUpToOrder (Some (resultOf (rankRows o1 ds m c1), s))
                (Some (resultOf (rankRows o2 ds m c2), s)).
Proof.
  intros Hc. split; [reflexivity|]. split; [reflexivity|].
  exists (groupsOf o1 ds m c1), (groupsOf o2 ds m c2). rewrite !rowsOf_resultOf.
  split; [apply rankRows_groups|]. split; [apply rankRows_groups|].
  split; [now apply groupsOf_any_order|apply groupsOf_equal_durations].
Qed.

(** X9. What an analysis does depends on the order of Go's ranges over
    its maps only in the order of the rows that have [==] durations: under
    any two range orders the analysis of a kind either panics in both, or
    leaves the same tables and returns the same groups of rows, one per
    distinct duration and in the same order, each group of the one an
    arrangement of the same group of the other. *)
Theorem range_order_only_permutes_groups (o1 o2 : RangeOracle)
    (fileName prFilter : string) (s : State) :
  (forall tree,
      sameUpToOrder (parsePipelineRunList o1 tree fileName prFilter s)
                    (parsePipelineRunList o2 tree fileName prFilter s))
  /\ (forall tree,
         sameUpToOrder (parseTaskRunList o1 tree fileName prFilter s)
                       (parseTaskRunList o2 tree fileName prFilter s))
  /\ (forall tree,
         sameUpToOrder (parsePodList o1 tree fileName prFilter s)
                       (parsePodList o2 tree fileName prFilter s)).
Proof.
  split; [|split]; intros tree.
  - unfold parsePipelineRunList, processPRFiles. rewrite walkFiles_spec.
    destruct (processAll _ _ _ _) as [s2|]; simpl; [|exact I].
    apply ranked_any_order. intros k. unfold determinePRConcurrency.
    now rewrite !innerConcurrency_tally.
  - unfold parseTaskRunList, processTRFiles. rewrite walkFiles_spec.
    destruct (processAll _ _ _ _) as [s2|]; simpl; [|exact I].
    apply ranked_any_order. intros k. unfold determineTRConcurrency.
    now rewrite !innerConcurrency_tally.
  - unfold parsePodList, processPodFiles. rewrite walkFiles_spec.
    destruct (processAll _ _ _ _) as [s2|]; simpl; [|exact I].
    destruct (negb (containerOnly s2)); apply ranked_any_order; intros k.
    + unfold determinePodConcurrency. now rewrite !innerConcurrency_tally.
    + unfold determineContainerConcurrency. now rewrite !innerConcurrency_tally.
Qed.

(** ** What every analysis returns *)

(** The result of an analysis is what the emission loops make of the
    tables of its kind, once the distinct durations are sorted. *)
Lemma parsePipelineRunList_ranked o tree fileName prFilter s r s' :
  parsePipelineRunList o tree fileName prFilter s = Some (r, s') ->
  stateInvariant s ->
  exists t, tablesInvariant t
            /\ r = resultOf (rankRows o (Durations (sortDurations t))
                                      (ToDuration (sortDurations t))
                                      (fun k => innerConcurrency o k
                                                  (StartTimes (sortDurations t))
                                                  (EndTimes (sortDurations t)))).
Proof.
  unfold parsePipelineRunList, processPRFiles. rewrite walkFiles_spec.
  intros H I.
  destruct (processAll _ _ _ _) as [s2|] eqn:E; simpl in H; [|discriminate].
  injection H as <- _. exists (prTables s2). split; [|reflexivity].
  apply (processAll_invariant _ _ stateInvariant) in E; [apply E| |exact I].
  intros x. apply processPipelineRun_invariant.
Qed.

Lemma parseTaskRunList_ranked o tree fileName prFilter s r s' :
  parseTaskRunList o tree fileName prFilter s = Some (r, s') ->
  stateInvariant s ->
  exists t, tablesInvariant t
            /\ r = resultOf (rankRows o (Durations (sortDurations t))
                                      (ToDuration (sortDurations t))
                                      (fun k => innerConcurrency o k
                                                  (StartTimes (sortDurations t))
                                                  (EndTimes (sortDurations t)))).
Proof.
  unfold parseTaskRunList, processTRFiles. rewrite walkFiles_spec.
  intros H I.
  destruct (processAll _ _ _ _) as [s2|] eqn:E; simpl in H; [|discriminate].
  injection H as <- _. exists (trTables s2). split; [|reflexivity].
  apply (processAll_invariant _ _ stateInvariant) in E; [apply E| |exact I].
  intros x. apply processTaskRun_invariant.
Qed.

Lemma parsePodList_ranked o tree fileName prFilter s r s' :
  parsePodList o tree fileName prFilter s = Some (r, s') ->
  stateInvariant s ->
  exists t, tablesInvariant t
            /\ r = resultOf (rankRows o (Durations (sortDurations t))
                                      (ToDuration (sortDurations t))
                                      (fun k => innerConcurrency o k
                                                  (StartTimes (sortDurations t))
                                                  (EndTimes (sortDurations t)))).
Proof.
  unfold parsePodList, processPodFiles. rewrite walkFiles_spec.
  intros H I.
  destruct (processAll _ _ _ _) as [s2|] eqn:E; simpl in H; [|discriminate].
  assert (I2 : stateInvariant s2).
  { apply (processAll_invariant _ _ stateInvariant) in E; [exact E| |exact I].
    intros x s0 d s0'. unfold processPodOrContainers.
    destruct (negb (containerOnly (writeStderr (walkMessages (tree fileName)) s)));
      [apply processPod_invariant|].
    destruct (processContainers x s0) as [[ds s3]|] eqn:Ec; simpl; [|discriminate].
    intros [= _ <-]. now apply (processContainers_invariant x s0 ds s3). }
  destruct (negb (containerOnly s2)); injection H as <- _.
  - exists (podTables s2). split; [apply I2|reflexivity].
  - exists (containerTables s2). split; [apply I2|reflexivity].
Qed.

Lemma consistent_size t : consistent t -> size (StartTimes t) = size (ToDuration t).
Proof.
  intros C.
  rewrite <- (size_dom (D := gset string) (StartTimes t)).
  rewrite <- (size_dom (D := gset string) (ToDuration t)).
  f_equal. apply set_eq. intros k. rewrite !elem_of_dom. apply C.
Qed.

Lemma innerConcurrency_le_size o key starts ends :
  is_Some (starts !! key) ->
  1 <= innerConcurrency o key starts ends <= Z.of_nat (size starts).
Proof.
  intros [t Ht]. rewrite innerConcurrency_tally.
  rewrite <- (tally_Permutation _ _ _ (map_to_list_delete starts key t Ht)).
  simpl. rewrite counted_self.
  pose proof (tally_nonneg (counted key starts ends)
                (map_to_list (delete key starts))) as H0.
  pose proof (tally_le_length (counted key starts ends)
                (map_to_list (delete key starts))) as H2.
  rewrite length_map_to_list in H2.
  pose proof (Permutation_length (map_to_list_delete starts key t Ht)) as H3.
  simpl in H3. rewrite !length_map_to_list in H3. lia.
Qed.

Lemma ranked_concurrency o t :
  tablesInvariant t ->
  let r := resultOf (rankRows o (Durations (sortDurations t))
                              (ToDuration (sortDurations t))
                              (fun k => innerConcurrency o k
                                          (StartTimes (sortDurations t))
                                          (EndTimes (sortDurations t)))) in
  Forall (fun c => 1 <= c <= Z.of_nat (length (retS r))) (retI r).
Proof.
  intros I r.
  apply tablesInvariant_sortDurations, tablesInvariant_OK in I as [OK C].
  set (t' := sortDurations t) in *.
  set (conc := fun k => innerConcurrency o k (StartTimes t') (EndTimes t')) in *.
  pose proof (rankRows_Permutation o (Durations t') (ToDuration t') conc
                (ok_numbers _ OK) (ok_distinct _ OK) (ok_known _ OK)) as P.
  assert (L : length (retS r) = size (StartTimes t')).
  { unfold r, resultOf. cbn [retS].
    rewrite length_fmap, (Permutation_length P), length_fmap.
    rewrite length_map_to_list. symmetry. now apply consistent_size. }
  rewrite L. unfold r, resultOf. cbn [retI]. apply Forall_fmap, Forall_forall.
  intros row Hrow. rewrite P in Hrow.
  apply list_elem_of_fmap in Hrow as ([k v] & -> & Hkv). simpl.
  apply elem_of_map_to_list in Hkv. apply innerConcurrency_le_size.
  apply (C k). eauto.
Qed.

(** X10. Every concurrency an analysis returns is at least 1 and at most
    the number of rows it returns, whenever the tables were well formed
    before the analysis (as they are when the program starts): a reported
    concurrency never exceeds the number of reported records. *)
Theorem reported_concurrency_within_rows (o : RangeOracle)
    (fileName prFilter : string) (s : State) :
  stateInvariant s ->
  (forall tree r s',
      parsePipelineRunList o tree fileName prFilter s = Some (r, s') ->
      Forall (fun c => 1 <= c <= Z.of_nat (length (retS r))) (retI r))
  /\ (forall tree r s',
         parseTaskRunList o tree fileName prFilter s = Some (r, s') ->
         Forall (fun c => 1 <= c <= Z.of_nat (length (retS r))) (retI r))
  /\ (forall tree r s',
         parsePodList o tree fileName prFilter s = Some (r, s') ->
         Forall (fun c => 1 <= c <= Z.of_nat (length (retS r))) (retI r)).
Proof.
  intros I. split; [|split]; intros tree r s' H.
  - destruct (parsePipelineRunList_ranked o tree fileName prFilter s r s' H I)
      as (t & It & ->). now apply ranked_concurrency.
  - destruct (parseTaskRunList_ranked o tree fileName prFilter s r s' H I)
      as (t & It & ->). now apply ranked_concurrency.
  - destruct (parsePodList_ranked o tree fileName prFilter s r s' H I)
      as (t & It & ->). now apply ranked_concurrency.
Qed.

Lemma reported_concurrency_within_rows_witness :
  exists r s',
    parseTaskRunList inOrder (oneFile sampleTRs) "trs.json" "" initState = Some (r, s')
    /\ Forall (fun c => 1 <= c <= Z.of_nat (length (retS r))) (retI r).
Proof.
  destruct (parseTaskRunList inOrder (oneFile sampleTRs) "trs.json" "" initState)
    as [[r s']|] eqn:E; [|vm_compute in E; discriminate].
  exists r, s'. split; [reflexivity|].
  assert (I : stateInvariant initState).
  { unfold stateInvariant, tablesInvariant, consistent. simpl.
    repeat split; try (intros [? H]; rewrite lookup_empty in H; discriminate);
      try constructor; intros *; rewrite ?lookup_empty; discriminate. }
  destruct (reported_concurrency_within_rows inOrder "trs.json" "" initState I)
    as (_ & F & _).
  exact (F (oneFile sampleTRs) r s' E).
Defined.

Lemma eqb_floatLe x y : PrimFloat.eqb x y = true -> floatLe x y.
Proof.
  intros E. apply eqb_floatKey in E as (k & Kx & Ky). exists k, k. auto.
Qed.

Lemma rankRows_elem o ds (m : gmap string float) conc k v c :
  (k, v, c) ∈ rankRows o ds m conc ->
  exists d, d ∈ ds /\ PrimFloat.eqb v d = true.
Proof.
  unfold rankRows. intros H.
  apply list_elem_of_In, in_flat_map in H as (d & Hd & H).
  apply in_flat_map in H as ([k' v'] & _ & H).
  destruct (PrimFloat.eqb v' d) eqn:E; [|inversion H].
  destruct H as [[= -> -> _]|[]]. exists d. split; [now apply list_elem_of_In|exact E].
Qed.

Lemma ranked_ascending o ds (m : gmap string float) conc :
  StronglySorted floatLe ds ->
  StronglySorted floatLe (retF (resultOf (rankRows o ds m conc))).
Proof.
  unfold resultOf. cbn [retF]. induction 1 as [|d ds S IH F]; [constructor|].
  assert (E : rankRows o (d :: ds) m conc
              = (rankRows o [d] m conc ++ rankRows o ds m conc)%list).
  { unfold rankRows. simpl. now rewrite app_nil_r. }
  rewrite E, fmap_app. apply StronglySorted_app_2; [| |exact IH].
  - intros x1 x2 H1 H2.
    apply list_elem_of_fmap in H1 as ([[k1 v1] c1] & -> & H1).
    apply list_elem_of_fmap in H2 as ([[k2 v2] c2] & -> & H2).
    apply rankRows_elem in H1 as (d1 & Hd1 & E1).
    apply rankRows_elem in H2 as (d2 & Hd2 & E2).
    apply list_elem_of_singleton in Hd1 as ->. simpl.
    apply (floatLe_trans _ d); [now apply eqb_floatLe|].
    apply (floatLe_trans _ d2); [exact (proj1 (Forall_forall _ _) F d2 Hd2)|].
    now apply eqb_floatLe, eqb_sym.
  - assert (G : forall x y, x ∈ (fun r : string * float * Z => r.1.2)
                                  <$> rankRows o [d] m conc ->
                            y ∈ (fun r : string * float * Z => r.1.2)
                                  <$> rankRows o [d] m conc -> floatLe x y).
    { intros x y H1 H2.
      apply list_elem_of_fmap in H1 as ([[k1 v1] c1] & -> & H1).
      apply list_elem_of_fmap in H2 as ([[k2 v2] c2] & -> & H2).
      apply rankRows_elem in H1 as (d1 & Hd1 & E1).
      apply rankRows_elem in H2 as (d2 & Hd2 & E2).
      apply list_elem_of_singleton in Hd1 as ->.
      apply list_elem_of_singleton in Hd2 as ->. simpl.
      apply eqb_floatLe. apply eqb_sym in E2. exact (eqb_trans _ _ _ E1 E2). }
    revert G. generalize ((fun r : string * float * Z => r.1.2)
                            <$> rankRows o [d] m conc).
    induction l as [|x l IHl]; intros G; constructor.
    + apply IHl. intros a b Ha Hb. apply G; now right.
    + apply Forall_forall. intros y Hy. apply G; [left|now right].
Qed.

Lemma ranked_numbers o ds (m : gmap string float) conc :
  Forall isNumber (retF (resultOf (rankRows o ds m conc))).
Proof.
  unfold resultOf. cbn [retF]. apply Forall_fmap, Forall_forall.
  intros [[k v] c] H. apply rankRows_elem in H as (d & _ & E). simpl.
  apply eqb_floatKey in E as (kv & Kv & _).
  apply is_nan_floatKey. rewrite Kv. eauto.
Qed.

(** X11. Every analysis returns its rows in ascending order of duration:
    in the slice of durations it returns, each value is less than or equal
    to every value after it, and none is NaN, whenever the tables were
    well formed before the analysis. *)
Theorem rows_ascend_by_duration (o : RangeOracle)
    (fileName prFilter : string) (s : State) :
  stateInvariant s ->
  (forall tree r s',
      parsePipelineRunList o tree fileName prFilter s = Some (r, s') ->
      StronglySorted floatLe (retF r) /\ Forall isNumber (retF r))
  /\ (forall tree r s',
         parseTaskRunList o tree fileName prFilter s = Some (r, s') ->
         StronglySorted floatLe (retF r) /\ Forall isNumber (retF r))
  /\ (forall tree r s',
         parsePodList o tree fileName prFilter s = Some (r, s') ->
         StronglySorted floatLe (retF r) /\ Forall isNumber (retF r)).
Proof.
  intros I.
  assert (G : forall t, tablesInvariant t ->
                        StronglySorted floatLe (Durations (sortDurations t))).
  { intros t (N & _). simpl. now apply Float64s_sorted. }
  split; [|split]; intros tree r s' H.
  - destruct (parsePipelineRunList_ranked o tree fileName prFilter s r s' H I)
      as (t & It & ->).
    split; [apply ranked_ascending, G, It|apply ranked_numbers].
  - destruct (parseTaskRunList_ranked o tree fileName prFilter s r s' H I)
      as (t & It & ->).
    split; [apply ranked_ascending, G, It|apply ranked_numbers].
  - destruct (parsePodList_ranked o tree fileName prFilter s r s' H I)
      as (t & It & ->).
    split; [apply ranked_ascending, G, It|apply ranked_numbers].
Qed.

Lemma rows_ascend_by_duration_witness :
  exists r s',
    parsePodList inOrder (oneFile samplePods) "pods.json" "" initState = Some (r, s')
    /\ StronglySorted floatLe (retF r) /\ Forall isNumber (retF r).
Proof.
  destruct (parsePodList inOrder (oneFile samplePods) "pods.json" "" initState)
    as [[r s']|] eqn:E; [|vm_compute in E; discriminate].
  exists r, s'. split; [reflexivity|].
  assert (I : stateInvariant initState).
  { unfold stateInvariant, tablesInvariant, consistent. simpl.
    repeat split; try (intros [? H]; rewrite lookup_empty in H; discriminate);
      try constructor; intros *; rewrite ?lookup_empty; discriminate. }
  destruct (rows_ascend_by_duration inOrder "pods.json" "" initState I)
    as (_ & _ & F).
  exact (F (oneFile samplePods) r s' E).
Defined.

(** ** Keys *)

Lemma append_inj_r (a x y : string) : a +:+ x = a +:+ y -> x = y.
Proof.
  induction a as [|c a IH]; [auto|]. rewrite !append_cons. intros [= H]. auto.
Qed.

(** X12. The key [namespace:name] identifies the record: two records whose
    namespaces hold no colon (as Kubernetes namespaces do) and whose keys
    are equal have the same namespace and the same name, so that two
    different records never share an entry of the tables. *)
Theorem keys_identify_records (ns1 name1 ns2 name2 : string) :
  colonFree ns1 = true -> colonFree ns2 = true ->
  keyOf ns1 name1 = keyOf ns2 name2 -> ns1 = ns2 /\ name1 = name2.
Proof.
  intros H1 H2 E. unfold keyOf in E.
  assert (N : ns1 = ns2) by exact (colonFree_split ns1 ns2 name1 name2 H1 H2 E).
  subst ns2. split; [reflexivity|].
  apply append_inj_r in E. now injection E.
Qed.

Lemma keys_identify_records_witness :
  ("ns" : string) = "ns" /\ ("build" : string) = "build".
Proof.
  apply (keys_identify_records "ns" "build" "ns" "build"); reflexivity.
Defined.

(** X13. The test by which the [all] command on tables matches a child to
    a pipeline run, [strings.HasPrefix] on their keys, accepts the pairs
    [prOwns] accepts on namespaces and names (the same namespace, and the
    name of the pipeline run a prefix of the name of the child), and no
    other, for namespaces that hold no colon. *)
Theorem key_prefix_test_is_prOwns (kidns kidname prns prname : string) :
  colonFree kidns = true -> colonFree prns = true ->
  HasPrefix (keyOf kidns kidname) (keyOf prns prname) = true
  <-> ReadFile.prOwns kidns kidname prns prname = true.
Proof.
  intros H1 H2. now rewrite (HasPrefix_keys_prOwns kidns kidname prns prname H1 H2).
Qed.

Lemma key_prefix_test_is_prOwns_witness :
  HasPrefix (keyOf "ns" "build-a") (keyOf "ns" "build") = true
  <-> ReadFile.prOwns "ns" "build-a" "ns" "build" = true.
Proof.
  apply (key_prefix_test_is_prOwns "ns" "build-a" "ns" "build"); reflexivity.
Defined.

(** ** Overlapping windows *)

(** X14. Two entries whose windows overlap, each one starting before the
    other ends, count for each other: the concurrency of each is one more
    than it is with the other taken out of the tables. *)
Theorem overlapping_windows_are_counted (o : RangeOracle) (A B : string)
    (starts ends : gmap string Time) (sA eA sB eB : Time) :
  A <> B ->
  starts !! A = Some sA -> ends !! A = Some eA ->
  starts !! B = Some sB -> ends !! B = Some eB ->
  sA < eB -> sB < eA ->
  innerConcurrency o A starts ends
  = innerConcurrency o A (delete B starts) (delete B ends) + 1
  /\ innerConcurrency o B starts ends
     = innerConcurrency o B (delete A starts) (delete A ends) + 1.
Proof.
  intros Hne HsA HeA HsB HeB L1 L2.
  assert (C : forall s1 e1 s2 e2, s1 < e2 -> s2 < e1 ->
                                  countsAgainst s1 e1 s2 e2 = true).
  { intros s1 e1 s2 e2 G1 G2. unfold countsAgainst, Before, After.
    destruct (_ && _); [reflexivity|].
    apply andb_true_intro. split; apply Z.ltb_lt; lia. }
  split.
  - rewrite (innerConcurrency_delete_split o A B starts ends sB) by congruence.
    unfold counted, timeAt. simpl. rewrite HsA, HeA, HeB. simpl.
    rewrite (C sA eA sB eB L1 L2).
    destruct (String.eqb_spec B A); [congruence|reflexivity].
  - rewrite (innerConcurrency_delete_split o B A starts ends sA) by congruence.
    unfold counted, timeAt. simpl. rewrite HsB, HeB, HeA. simpl.
    rewrite (C sB eB sA eA L2 L1).
    destruct (String.eqb_spec A B); [congruence|reflexivity].
Qed.

Lemma overlapping_windows_are_counted_witness :
  let starts : gmap string Time := {["ns:a" := 0; "ns:b" := 5; "ns:c" := 20]} in
  let ends : gmap string Time := {["ns:a" := 10; "ns:b" := 15; "ns:c" := 25]} in
  innerConcurrency inOrder "ns:a" starts ends
  = innerConcurrency inOrder "ns:a" (delete "ns:b" starts) (delete "ns:b" ends) + 1
  /\ innerConcurrency inOrder "ns:b" starts ends
     = innerConcurrency inOrder "ns:b" (delete "ns:a" starts) (delete "ns:a" ends) + 1.
Proof.
  intros starts ends.
  apply (overlapping_windows_are_counted inOrder "ns:a" "ns:b" starts ends 0 10 5 15).
  - discriminate.
  - reflexivity.
  - reflexivity.
  - reflexivity.
  - reflexivity.
  - lia.
  - lia.
Defined.

(** ** The end of a pod, whatever the order of its statuses *)

(** X15. For a pod that has its start time, [processPod] records as its end
    a time no [finishedAt] of a terminated status exceeds, which is one of
    them as soon as one is not before Go's zero time (and the zero time
    otherwise), whatever the order of the statuses; the duration it
    returns and records is the one from the start of the pod to that end. *)
Theorem pod_end_is_latest_finish (pod : Pod) (s : State) (start : Time) :
  pod_StartTime pod = Some start ->
  exists finish s',
    processPod pod s = Some (Sub finish start, s')
    /\ podStartTimes s' !! podKeyOf pod = Some start
    /\ podEndTimes s' !! podKeyOf pod = Some finish
    /\ podToDuration s' !! podKeyOf pod = Some (Seconds (Sub finish start))
    /\ (forall f, f ∈ finishedAts (pod_ContainerStatuses pod) -> f <= finish)
    /\ (finish = zeroTime \/ finish ∈ finishedAts (pod_ContainerStatuses pod))
    /\ ((exists f, f ∈ finishedAts (pod_ContainerStatuses pod) /\ zeroTime <= f) ->
        finish ∈ finishedAts (pod_ContainerStatuses pod))
    /\ (forall statuses',
           Permutation (pod_ContainerStatuses pod) statuses' ->
           terminatedTimeOf statuses' = finish).
Proof.
  intros H. destruct (processPod_records pod s start H) as (s' & E & Hs & He & Hd).
  destruct (terminatedTimeOf_latest (pod_ContainerStatuses pod)) as (U & W & L & P).
  exists (terminatedTimeOf (pod_ContainerStatuses pod)), s'.
  repeat (split; [assumption|]). exact P.
Qed.

Lemma pod_end_is_latest_finish_witness :
  exists s',
    processPod sidecarPod initState = Some (seconds 50, s')
    /\ podEndTimes s' !! "ns:build-a-pod" = Some (seconds 63800000050).
Proof.
  destruct (pod_end_is_latest_finish sidecarPod initState (seconds 63800000000)
              eq_refl) as (finish & s' & E & _ & He & _ & U & W & _).
  assert (F : finish = seconds 63800000050).
  { assert (B : seconds 63800000050 <= finish) by (apply U; left).
    destruct W as [->|W]; [vm_compute in B; now destruct B|].
    apply list_elem_of_In in W. destruct W as [W|[W|[]]]; [now symmetry|].
    subst finish. vm_compute in B. now destruct B. }
  subst finish. exists s'. split; [exact E|exact He].
Defined.

(** ** The concurrency columns of the report *)

(** X16. In a line of the report of the [all] command, the column of the
    task runs carries the maximum of the concurrency values of the task
    runs matched to the pipeline run: an upper bound of them that is one
    of them, or 0 when there is none. The column of the pods carries the
    sum of the concurrency values of the matched pods, as long as the
    values are not negative and the sum fits an [int]. *)
Theorem child_concurrency_columns (rows1 rows2 rows3 : list (string * float * Z)) :
  Forall (fun c => 0 <= c) (concurrenciesOf rows3) ->
  sumZ (concurrenciesOf rows3) < 2 ^ 63 ->
  exists out,
    aggregateRows (resultOf rows1) (resultOf rows2) (resultOf rows3) = Some out
    /\ forall i prkey D C,
        rows1 !! i = Some (prkey, D, C) ->
        exists row,
          out !! i = Some row
          /\ row_prConcurency row = C
          /\ (forall c, c ∈ concurrenciesOf (matched prkey rows2) ->
                        c <= row_maxTRConcurrency row)
          /\ (row_maxTRConcurrency row ∈ concurrenciesOf (matched prkey rows2)
              \/ row_maxTRConcurrency row = 0)
          /\ (matched prkey rows2 = [] -> row_maxTRConcurrency row = 0)
          /\ row_maxPodConcurrency row = sumZ (concurrenciesOf (matched prkey rows3)).
Proof.
  intros Hpos Hsum.
  exists (attribution rows2 rows3 <$> rows1). split; [apply aggregateRows_rows|].
  intros i prkey D C H. exists (attribution rows2 rows3 (prkey, D, C)).
  split; [now rewrite list_lookup_fmap, H|]. simpl.
  destruct (maxConcurrency_spec (concurrenciesOf (matched prkey rows2)))
    as (_ & U & W).
  split; [reflexivity|]. split; [exact U|]. split; [tauto|]. split.
  - now intros ->.
  - destruct (sumZ_matched_le prkey rows3 Hpos) as [Hm Hle].
    apply podConcurrencyFold_sum; [exact Hm|lia].
Qed.

Lemma child_concurrency_columns_witness :
  exists out,
    aggregateRows (resultOf [("ns:build", 100%float, 1)])
                  (resultOf [("ns:build-a", 30%float, 1); ("ns:build-b", 40%float, 1)])
                  (resultOf [("ns:build-a-pod", 10%float, 1);
                             ("ns:build-b-pod", 10%float, 1)])
    = Some out
    /\ (row_maxTRConcurrency <$> out) = [1]
    /\ (row_maxPodConcurrency <$> out) = [2].
Proof.
  destruct (child_concurrency_columns
              [("ns:build", 100%float, 1)]
              [("ns:build-a", 30%float, 1); ("ns:build-b", 40%float, 1)]
              [("ns:build-a-pod", 10%float, 1); ("ns:build-b-pod", 10%float, 1)])
    as (out & E & _).
  - repeat constructor; discriminate.
  - reflexivity.
  - exists out. split; [exact E|].
    vm_compute in E. injection E as <-. split; reflexivity.
Defined.

(** ** The analyses of the pods and of the task runs *)

Lemma HasPrefix_empty s : HasPrefix s "" = true.
Proof. unfold HasPrefix. now destruct s. Qed.

Lemma filter_off prFilter :
  (0 <? Z.of_nat (String.length prFilter)) = false -> prFilter = "".
Proof.
  destruct prFilter as [|c f]; [reflexivity|]. intros H.
  apply Z.ltb_ge in H. simpl in H. lia.
Qed.

Lemma ignorePod_prefix pod prFilter :
  ignorePod pod prFilter = false -> HasPrefix (podKeyOf pod) prFilter = true.
Proof.
  unfold ignorePod. destruct (pod_StartTime pod); [|discriminate].
  destruct (negb (terminalPhase (pod_Phase pod))); [discriminate|].
  destruct (pod_Labels pod !! _); [|discriminate].
  destruct (0 <? Z.of_nat (String.length prFilter)) eqn:F; simpl.
  - now destruct (HasPrefix (podKeyOf pod) prFilter).
  - intros _. apply filter_off in F as ->. apply HasPrefix_empty.
Qed.

Lemma ignoreTaskRun_prefix tr prFilter :
  ignoreTaskRun tr prFilter = false -> HasPrefix (trKeyOf tr) prFilter = true.
Proof.
  unfold ignoreTaskRun. destruct (negb (tr_HasStarted tr)); [discriminate|].
  destruct (negb (tr_Done tr)); [discriminate|].
  destruct (0 <? Z.of_nat (String.length prFilter)) eqn:F; simpl.
  - now destruct (HasPrefix (trKeyOf tr) prFilter).
  - intros _. apply filter_off in F as ->. apply HasPrefix_empty.
Qed.

Lemma ignorePipelineRun_key pr prFilter :
  prFilter <> "" -> ignorePipelineRun pr prFilter = false -> prKeyOf pr = prFilter.
Proof.
  unfold ignorePipelineRun. intros N.
  destruct (0 <? Z.of_nat (String.length prFilter)) eqn:F; simpl.
  - destruct (String.eqb_spec (prKeyOf pr) prFilter); [auto|discriminate].
  - apply filter_off in F. contradiction.
Qed.

Lemma parseTaskRunList_run o tree fileName prFilter s :
  let items := walkedItems tr_Kind "TaskRun" (tree fileName) in
  let ignore := fun tr => ignoreTaskRun tr prFilter in
  complete ignore trEntry items ->
  exists s',
    parseTaskRunList o tree fileName prFilter s
    = Some (resultOf (rankRows o (trDurations s') (trToDuration s')
                               (determineTRConcurrency o s')), s')
    /\ trTables s' = sortDurations (recordAll (entriesOf ignore trEntry items) (trTables s)).
Proof.
  intros items ignore C. unfold parseTaskRunList, processTRFiles.
  rewrite walkFiles_spec. fold items. fold ignore.
  rewrite (processAll_entries ignore processTaskRun trEntry withTr
             processTaskRun_entry (fun f g s => eq_refl) withTr_id items _ C).
  simpl. eexists. split; reflexivity.
Qed.

(** X17. The analysis of the pods, started on empty tables and without
    [--containers-only], returns every key once; its keys are exactly the
    keys of the pods of the walk that pass the filter; every row carries
    the seconds from the start of a pod of that key to the latest
    [finishedAt] [processPod] finds for it, and the concurrency of its key;
    and every key has the filter as a prefix. *)
Theorem pod_rows_cover_eligible (o : RangeOracle) (tree : FileTree Pod)
    (fileName prFilter : string) :
  let items := walkedItems pod_Kind "Pod" (tree fileName) in
  let eligible := fun pod => pod ∈ items /\ ignorePod pod prFilter = false in
  exists r s',
    parsePodList o tree fileName prFilter initState = Some (r, s')
    /\ NoDup (retS r)
    /\ (forall k, k ∈ retS r <-> exists pod, eligible pod /\ podKeyOf pod = k)
    /\ (forall k v c,
           (k, v, c) ∈ rowsOf r ->
           c = determinePodConcurrency o s' k
           /\ exists pod start,
               eligible pod /\ podKeyOf pod = k /\ pod_StartTime pod = Some start
               /\ v = Seconds (Sub (terminatedTimeOf (pod_ContainerStatuses pod)) start))
    /\ (forall k, k ∈ retS r -> HasPrefix k prFilter = true).
Proof.
  intros items eligible.
  set (ignore := fun pod => ignorePod pod prFilter).
  destruct (parsePodList_run o tree fileName prFilter initState eq_refl)
    as (s' & E & Ht).
  fold items in Ht. fold ignore in Ht.
  set (es := entriesOf ignore podEntry items) in *.
  assert (Hentry : forall pod e, podEntry pod = Some e ->
            e.1 = podKeyOf pod
            /\ exists start, pod_StartTime pod = Some start
                 /\ entrySeconds e
                    = Seconds (Sub (terminatedTimeOf (pod_ContainerStatuses pod)) start)).
  { intros pod e H. unfold podEntry in H.
    destruct (pod_StartTime pod) as [start|]; simpl in H; [|discriminate].
    injection H as <-. split; [reflexivity|]. now exists start. }
  destruct (ranked_from_empty o es (determinePodConcurrency o s'))
    as (_ & _ & _ & S4 & S5 & S6).
  change (podTables initState) with emptyTables in Ht.
  unfold podDurations, podToDuration in E. rewrite Ht in E.
  assert (K : forall k, k ∈ es.*1 <-> exists pod, eligible pod /\ podKeyOf pod = k).
  { intros k. split.
    - intros (e & -> & He)%list_elem_of_fmap.
      apply entriesOf_elem in He as (pod & Hpod & I & He).
      exists pod. split; [now split|]. symmetry. now apply Hentry.
    - intros (pod & [Hpod I] & <-).
      destruct (eligible_podEntry pod prFilter I) as [e He].
      rewrite <- (proj1 (Hentry pod e He)).
      apply list_elem_of_fmap_2, entriesOf_elem. now exists pod. }
  eexists _, s'. split; [exact E|]. rewrite rowsOf_resultOf.
  split; [exact S4|]. split; [|split].
  - intros k. rewrite S5. apply K.
  - intros k v c H. destruct (S6 k v c H) as (-> & e & He & <- & ->).
    split; [reflexivity|].
    apply entriesOf_elem in He as (pod & Hpod & I & He).
    destruct (Hentry pod e He) as (Hk & start & Hs & Hv).
    exists pod, start. split; [now split|]. auto.
  - intros k Hk. apply S5, K in Hk as (pod & [_ I] & <-).
    now apply ignorePod_prefix.
Qed.

(** X18. The analysis of the task runs, started on empty tables, returns
    (when no task run that passes the filter lacks its completion time)
    every key once; its keys are exactly the keys of the task runs of the
    walk that pass the filter; every row carries the seconds from the
    start to the completion of a task run of that key, and the concurrency
    of its key; and every key has the filter as a prefix. *)
Theorem task_run_rows_cover_eligible (o : RangeOracle) (tree : FileTree TaskRun)
    (fileName prFilter : string) :
  let items := walkedItems tr_Kind "TaskRun" (tree fileName) in
  let eligible := fun tr => tr ∈ items /\ ignoreTaskRun tr prFilter = false in
  (forall tr, eligible tr -> is_Some (tr_CompletionTime tr)) ->
  exists r s',
    parseTaskRunList o tree fileName prFilter initState = Some (r, s')
    /\ NoDup (retS r)
    /\ (forall k, k ∈ retS r <-> exists tr, eligible tr /\ trKeyOf tr = k)
    /\ (forall k v c,
           (k, v, c) ∈ rowsOf r ->
           c = determineTRConcurrency o s' k
           /\ exists tr start completion,
               eligible tr /\ trKeyOf tr = k
               /\ tr_StartTime tr = Some start
               /\ tr_CompletionTime tr = Some completion
               /\ v = Seconds (Sub completion start))
    /\ (forall k, k ∈ retS r -> HasPrefix k prFilter = true).
Proof.
  intros items eligible Hc.
  set (ignore := fun tr => ignoreTaskRun tr prFilter).
  assert (C : complete ignore trEntry items).
  { intros tr Htr I. apply (eligible_trEntry tr prFilter I). now apply Hc. }
  destruct (parseTaskRunList_run o tree fileName prFilter initState C)
    as (s' & E & Ht).
  fold items in Ht. fold ignore in Ht.
  set (es := entriesOf ignore trEntry items) in *.
  assert (Hentry : forall tr e, trEntry tr = Some e ->
            e.1 = trKeyOf tr
            /\ exists start completion,
                 tr_StartTime tr = Some start /\ tr_CompletionTime tr = Some completion
                 /\ entrySeconds e = Seconds (Sub completion start)).
  { intros tr e H. unfold trEntry in H.
    destruct (tr_CompletionTime tr) as [completion|]; simpl in H; [|discriminate].
    destruct (tr_StartTime tr) as [start|]; simpl in H; [|discriminate].
    injection H as <-. split; [reflexivity|]. now exists start, completion. }
  destruct (ranked_from_empty o es (determineTRConcurrency o s'))
    as (_ & _ & _ & S4 & S5 & S6).
  change (trTables initState) with emptyTables in Ht.
  unfold trDurations, trToDuration in E. rewrite Ht in E.
  assert (K : forall k, k ∈ es.*1 <-> exists tr, eligible tr /\ trKeyOf tr = k).
  { intros k. split.
    - intros (e & -> & He)%list_elem_of_fmap.
      apply entriesOf_elem in He as (tr & Htr & I & He).
      exists tr. split; [now split|]. symmetry. now apply Hentry.
    - intros (tr & [Htr I] & <-).
      destruct (C tr Htr I) as [e He].
      rewrite <- (proj1 (Hentry tr e He)).
      apply list_elem_of_fmap_2, entriesOf_elem. now exists tr. }
  eexists _, s'. split; [exact E|]. rewrite rowsOf_resultOf.
  split; [exact S4|]. split; [|split].
  - intros k. rewrite S5. apply K.
  - intros k v c H. destruct (S6 k v c H) as (-> & e & He & <- & ->).
    split; [reflexivity|].
    apply entriesOf_elem in He as (tr & Htr & I & He).
    destruct (Hentry tr e He) as (Hk & start & completion & Hs & Hcm & Hv).
    exists tr, start, completion. split; [now split|]. auto.
  - intros k Hk. apply S5, K in Hk as (tr & [_ I] & <-).
    now apply ignoreTaskRun_prefix.
Qed.

Lemma task_run_rows_cover_eligible_witness :
  exists r s',
    parseTaskRunList inOrder (oneFile sampleTRs) "trs.json" "ns:build" initState
    = Some (r, s')
    /\ NoDup (retS r)
    /\ (forall k, k ∈ retS r -> HasPrefix k "ns:build" = true).
Proof.
  destruct (task_run_rows_cover_eligible inOrder (oneFile sampleTRs) "trs.json"
              "ns:build") as (r & s' & E & N & _ & _ & P).
  - intros tr [Htr _]. change (tr ∈ sampleTRs) in Htr.
    apply list_elem_of_In in Htr. simpl in Htr.
    destruct Htr as [<-|[<-|[<-|[]]]]; eexists; reflexivity.
  - exists r, s'. auto.
Defined.

(** X19. With a filter, the analysis of the pipeline runs started on empty
    tables returns at most one row, and its key is the filter: the filter
    of the pipeline runs is an equality on the key, where the one of the
    task runs and of the pods is a prefix. *)
Theorem pipeline_run_filter_selects_one_run (o : RangeOracle)
    (tree : FileTree PipelineRun) (fileName prFilter : string)
    (r : Result) (s' : State) :
  prFilter <> "" ->
  parsePipelineRunList o tree fileName prFilter initState = Some (r, s') ->
  (length (retS r) <= 1)%nat /\ (forall k, k ∈ retS r -> k = prFilter).
Proof.
  intros N H.
  set (items := walkedItems pr_Kind "PipelineRun" (tree fileName)).
  set (ignore := fun pr => ignorePipelineRun pr prFilter).
  assert (C : complete ignore prEntry items).
  { destruct (complete_dec ignore prEntry items) as [C|(pr & Hpr & I & E)];
      [exact C|].
    exfalso. revert H. unfold parsePipelineRunList, processPRFiles.
    rewrite walkFiles_spec.
    now rewrite (processAll_panics ignore processPipelineRun prEntry withPr
                   processPipelineRun_entry items _ pr Hpr I E). }
  destruct (parsePipelineRunList_run o tree fileName prFilter initState C)
    as (s'' & E & Ht).
  rewrite H in E. injection E as Hr Hs. subst s''. subst r.
  fold items in Ht. fold ignore in Ht.
  destruct (ranked_from_empty o (entriesOf ignore prEntry items)
              (determinePRConcurrency o s')) as (_ & _ & _ & S4 & S5 & _).
  change (prTables initState) with emptyTables in Ht.
  unfold prDurations, prToDuration. rewrite Ht.
  assert (K : forall k,
             k ∈ retS (resultOf
                         (rankRows o
                            (Durations (sortDurations
                               (recordAll (entriesOf ignore prEntry items) emptyTables)))
                            (ToDuration (sortDurations
                               (recordAll (entriesOf ignore prEntry items) emptyTables)))
                            (determinePRConcurrency o s'))) -> k = prFilter).
  { intros k Hk. apply S5 in Hk. apply list_elem_of_fmap in Hk as (e & -> & He).
    apply entriesOf_elem in He as (pr & _ & I & He).
    rewrite <- (ignorePipelineRun_key pr prFilter N I).
    unfold prEntry in He.
    destruct (pr_CompletionTime pr), (pr_StartTime pr); simpl in He; try discriminate.
    now injection He as <-. }
  split; [|exact K].
  revert S4 K. generalize (retS (resultOf
                         (rankRows o
                            (Durations (sortDurations
                               (recordAll (entriesOf ignore prEntry items) emptyTables)))
                            (ToDuration (sortDurations
                               (recordAll (entriesOf ignore prEntry items) emptyTables)))
                            (determinePRConcurrency o s')))).
  intros [|k1 [|k2 l]] S4 K; simpl; [lia|lia|]. exfalso.
  apply NoDup_cons in S4 as [S4 _]. apply S4.
  rewrite (K k1) by left. rewrite (K k2) by (right; left). left.
Qed.

Lemma pipeline_run_filter_selects_one_run_witness :
  exists r s',
    parsePipelineRunList inOrder (oneFile samplePRs) "prs.json" "ns:build" initState
    = Some (r, s')
    /\ (length (retS r) <= 1)%nat /\ (forall k, k ∈ retS r -> k = "ns:build").
Proof.
  destruct (parsePipelineRunList inOrder (oneFile samplePRs) "prs.json" "ns:build"
              initState) as [[r s']|] eqn:E; [|vm_compute in E; discriminate].
  exists r, s'. split; [reflexivity|].
  apply (pipeline_run_filter_selects_one_run inOrder (oneFile samplePRs) "prs.json"
           "ns:build" r s'); [discriminate|exact E].
Defined.

(** ** Analysing the same dump again *)

Lemma floatLt_not_less x y : floatLt x y -> float64Less y x = false.
Proof.
  unfold floatLt, float64Less. intros H.
  apply ltb_floatKey in H as (kx & ky & Kx & Ky & L).
  assert (Ny : PrimFloat.is_nan y = false) by (apply is_nan_floatKey; rewrite Ky; eauto).
  rewrite Ny, orb_false_r.
  destruct (PrimFloat.ltb y x) eqn:E; [|reflexivity].
  apply ltb_floatKey in E as (ky' & kx' & Ky' & Kx' & L').
  assert (ky' = ky) as -> by congruence. assert (kx' = kx) as -> by congruence.
  destruct (lexLt_irrefl kx). eapply lexLt_trans; eassumption.
Qed.

(** Sorting a slice that is in strict ascending order leaves it as it is. *)
Lemma Float64s_sorted_id l : StronglySorted floatLt l -> Float64s l = l.
Proof.
  induction 1 as [|x l S IH F]; [reflexivity|].
  simpl. rewrite IH. destruct l as [|y l']; [reflexivity|].
  simpl. inversion F as [|? ? Hxy _]; subst. now rewrite (floatLt_not_less x y Hxy).
Qed.

(** Entries whose durations are all in the set add no distinct duration. *)
Lemma recordAll_known_durations es t :
  (forall e, e ∈ es -> hasFloatKey (entrySeconds e) (DurationsMap t) = true) ->
  Durations (recordAll es t) = Durations t
  /\ DurationsMap (recordAll es t) = DurationsMap t.
Proof.
  revert t. induction es as [|e es IH]; intros t H; [auto|].
  simpl. assert (He : hasFloatKey (entrySeconds e) (DurationsMap t) = true)
    by (apply H; left).
  destruct (IH (recordEntry t e)) as [-> ->].
  - intros e' He'. simpl. rewrite He. apply H. now right.
  - simpl. now rewrite He.
Qed.

Lemma last_entry_of_key (es : list Entry) k :
  k ∈ es.*1 -> exists l1 e l2, es = l1 ++ e :: l2 /\ e.1 = k /\ k ∉ l2.*1.
Proof.
  induction es as [|e es IH]; intros H; [inversion H|].
  destruct (decide (k ∈ es.*1)) as [Hin|Hout].
  - destruct (IH Hin) as (l1 & e' & l2 & -> & Hk & Hl).
    now exists (e :: l1), e', l2.
  - rewrite fmap_cons in H. apply elem_of_cons in H as [->|H]; [|contradiction].
    now exists [], e, es.
Qed.

(** Recording the same entries again leaves the three maps as they are. *)
Lemma recordAll_maps_again es t t' :
  StartTimes t' = StartTimes (recordAll es t) ->
  EndTimes t' = EndTimes (recordAll es t) ->
  ToDuration t' = ToDuration (recordAll es t) ->
  StartTimes (recordAll es t') = StartTimes t'
  /\ EndTimes (recordAll es t') = EndTimes t'
  /\ ToDuration (recordAll es t') = ToDuration t'.
Proof.
  intros Hs He Hd.
  assert (G : forall k,
             StartTimes (recordAll es t') !! k = StartTimes t' !! k
             /\ EndTimes (recordAll es t') !! k = EndTimes t' !! k
             /\ ToDuration (recordAll es t') !! k = ToDuration t' !! k).
  { intros k. destruct (decide (k ∈ es.*1)) as [Hin|Hout].
    - destruct (last_entry_of_key es k Hin) as (l1 & e & l2 & -> & <- & Hl).
      rewrite Hs, He, Hd.
      destruct (recordAll_last l1 e l2 t Hl) as (-> & -> & ->).
      destruct (recordAll_last l1 e l2 t' Hl) as (-> & -> & ->). auto.
    - now apply recordAll_other. }
  repeat split; apply map_eq; intros k; apply G.
Qed.

(** Recording and sorting the same entries again changes nothing. *)
Lemma recordAll_twice es t t' :
  TablesOK t -> t' = sortDurations (recordAll es t) ->
  sortDurations (recordAll es t') = t'.
Proof.
  intros OK Ht'.
  pose proof (recordAll_OK es t OK) as OK1.
  assert (K : forall e, e ∈ es ->
                        hasFloatKey (entrySeconds e) (DurationsMap t') = true).
  { intros e He. apply hasFloatKey_spec. subst t'. simpl.
    apply (knownTo_Permutation _ _ _ (ok_set _ OK1)).
    now apply recordAll_known. }
  destruct (recordAll_known_durations es t' K) as [D1 D2].
  destruct (recordAll_maps_again es t t') as (M1 & M2 & M3);
    [now subst t'|now subst t'|now subst t'|].
  assert (S : Float64s (Durations t') = Durations t').
  { apply Float64s_sorted_id. subst t'. now apply sortDurations_ascending. }
  unfold sortDurations. rewrite D1, D2, M1, M2, M3, S. now destruct t'.
Qed.

Lemma withPr_fixed f s : f (prTables s) = prTables s -> withPr f s = s.
Proof. destruct s. unfold withPr. simpl. now intros ->. Qed.
Lemma withTr_fixed f s : f (trTables s) = trTables s -> withTr f s = s.
Proof. destruct s. unfold withTr. simpl. now intros ->. Qed.
Lemma withPod_fixed f s : f (podTables s) = podTables s -> withPod f s = s.
Proof. destruct s. unfold withPod. simpl. now intros ->. Qed.

Lemma parsePipelineRunList_complete o tree fileName prFilter s r s' :
  parsePipelineRunList o tree fileName prFilter s = Some (r, s') ->
  complete (fun pr => ignorePipelineRun pr prFilter) prEntry
           (walkedItems pr_Kind "PipelineRun" (tree fileName)).
Proof.
  intros H.
  destruct (complete_dec (fun pr => ignorePipelineRun pr prFilter) prEntry
              (walkedItems pr_Kind "PipelineRun" (tree fileName)))
    as [C|(pr & Hpr & I & E)]; [exact C|].
  exfalso. revert H. unfold parsePipelineRunList, processPRFiles.
  rewrite walkFiles_spec.
  now rewrite (processAll_panics (fun pr => ignorePipelineRun pr prFilter)
                 processPipelineRun prEntry withPr processPipelineRun_entry
                 _ _ pr Hpr I E).
Qed.

Lemma parseTaskRunList_complete o tree fileName prFilter s r s' :
  parseTaskRunList o tree fileName prFilter s = Some (r, s') ->
  complete (fun tr => ignoreTaskRun tr prFilter) trEntry
           (walkedItems tr_Kind "TaskRun" (tree fileName)).
Proof.
  intros H.
  destruct (complete_dec (fun tr => ignoreTaskRun tr prFilter) trEntry
              (walkedItems tr_Kind "TaskRun" (tree fileName)))
    as [C|(tr & Htr & I & E)]; [exact C|].
  exfalso. revert H. unfold parseTaskRunList, processTRFiles.
  rewrite walkFiles_spec.
  now rewrite (processAll_panics (fun tr => ignoreTaskRun tr prFilter)
                 processTaskRun trEntry withTr processTaskRun_entry
                 _ _ tr Htr I E).
Qed.

Lemma tablesInvariant_TablesOK t : tablesInvariant t -> TablesOK t.
Proof. intros H. now apply tablesInvariant_OK in H as [H _]. Qed.

(** Under one and the same range order, the second analysis of a dump
    returns what the first returned. *)
Lemma reanalysis_same_order (o : RangeOracle)
    (fileName prFilter : string) (s : State) :
  stateInvariant s ->
  (forall tree r s',
      parsePipelineRunList o tree fileName prFilter s = Some (r, s') ->
      parsePipelineRunList o tree fileName prFilter s'
      = Some (r, writeStderr (walkMessages (tree fileName)) s'))
  /\ (forall tree r s',
         parseTaskRunList o tree fileName prFilter s = Some (r, s') ->
         parseTaskRunList o tree fileName prFilter s'
         = Some (r, writeStderr (walkMessages (tree fileName)) s'))
  /\ (forall tree r s',
         containerOnly s = false ->
         parsePodList o tree fileName prFilter s = Some (r, s') ->
         parsePodList o tree fileName prFilter s'
         = Some (r, writeStderr (walkMessages (tree fileName)) s')).
Proof.
  intros (I1 & I2 & I3 & _). split; [|split].
  - intros tree r s' H.
    pose proof (parsePipelineRunList_complete o tree fileName prFilter s r s' H) as C.
    revert H. unfold parsePipelineRunList, processPRFiles. rewrite !walkFiles_spec.
    rewrite !(processAll_entries _ processPipelineRun prEntry withPr
                processPipelineRun_entry (fun f g s => eq_refl) withPr_id _ _ C).
    simpl. intros [= <- <-].
    set (es := entriesOf _ prEntry _).
    set (s1 := withPr sortDurations (withPr (recordAll es) (writeStderr _ s))).
    assert (F : withPr sortDurations
                  (withPr (recordAll es) (writeStderr (walkMessages (tree fileName)) s1))
                = writeStderr (walkMessages (tree fileName)) s1).
    { change (withPr (fun t => sortDurations (recordAll es t))
                (writeStderr (walkMessages (tree fileName)) s1)
              = writeStderr (walkMessages (tree fileName)) s1).
      apply withPr_fixed.
      apply (recordAll_twice es (prTables s)); [|reflexivity].
      now apply tablesInvariant_TablesOK. }
    rewrite F. reflexivity.
  - intros tree r s' H.
    pose proof (parseTaskRunList_complete o tree fileName prFilter s r s' H) as C.
    revert H. unfold parseTaskRunList, processTRFiles. rewrite !walkFiles_spec.
    rewrite !(processAll_entries _ processTaskRun trEntry withTr
                processTaskRun_entry (fun f g s => eq_refl) withTr_id _ _ C).
    simpl. intros [= <- <-].
    set (es := entriesOf _ trEntry _).
    set (s1 := withTr sortDurations (withTr (recordAll es) (writeStderr _ s))).
    assert (F : withTr sortDurations
                  (withTr (recordAll es) (writeStderr (walkMessages (tree fileName)) s1))
                = writeStderr (walkMessages (tree fileName)) s1).
    { change (withTr (fun t => sortDurations (recordAll es t))
                (writeStderr (walkMessages (tree fileName)) s1)
              = writeStderr (walkMessages (tree fileName)) s1).
      apply withTr_fixed.
      apply (recordAll_twice es (trTables s)); [|reflexivity].
      now apply tablesInvariant_TablesOK. }
    rewrite F. reflexivity.
  - intros tree r s' Hc H.
    assert (C : complete (fun pod => ignorePod pod prFilter) podEntry
                         (walkedItems pod_Kind "Pod" (tree fileName))).
    { intros pod _ I. now apply (eligible_podEntry pod prFilter). }
    revert H. unfold parsePodList, processPodFiles. rewrite !walkFiles_spec.
    cbv beta iota.
    change (containerOnly (writeStderr (walkMessages (tree fileName)) s))
      with (containerOnly s). rewrite Hc.
    change (processPodOrContainers false) with processPod.
    rewrite (processAll_entries _ processPod podEntry withPod
               processPod_entry (fun f g s => eq_refl) withPod_id _ _ C).
    simpl. rewrite Hc. simpl. intros [= <- <-].
    set (es := entriesOf _ podEntry _).
    set (s1 := withPod sortDurations (withPod (recordAll es) (writeStderr _ s))).
    change (containerOnly s1) with (containerOnly s). rewrite Hc.
    change (processPodOrContainers false) with processPod.
    rewrite (processAll_entries _ processPod podEntry withPod
               processPod_entry (fun f g s => eq_refl) withPod_id _ _ C).
    simpl. rewrite Hc. simpl. fold es.
    assert (F : withPod sortDurations
                  (withPod (recordAll es) (writeStderr (walkMessages (tree fileName)) s1))
                = writeStderr (walkMessages (tree fileName)) s1).
    { change (withPod (fun t => sortDurations (recordAll es t))
                (writeStderr (walkMessages (tree fileName)) s1)
              = writeStderr (walkMessages (tree fileName)) s1).
      apply withPod_fixed.
      apply (recordAll_twice es (podTables s)); [|reflexivity].
      now apply tablesInvariant_TablesOK. }
    rewrite F. reflexivity.
Qed.

Lemma parsePipelineRunList_any_order o1 o2 tree fileName prFilter s :
  sameUpToOrder (parsePipelineRunList o1 tree fileName prFilter s)
                (parsePipelineRunList o2 tree fileName prFilter s).
Proof.
  unfold parsePipelineRunList, processPRFiles. rewrite walkFiles_spec.
  destruct (processAll _ _ _ _) as [s2|]; simpl; [|exact I].
  apply ranked_any_order. intros k. unfold determinePRConcurrency.
  now rewrite !innerConcurrency_tally.
Qed.

Lemma parseTaskRunList_any_order o1 o2 tree fileName prFilter s :
  sameUpToOrder (parseTaskRunList o1 tree fileName prFilter s)
                (parseTaskRunList o2 tree fileName prFilter s).
Proof.
  unfold parseTaskRunList, processTRFiles. rewrite walkFiles_spec.
  destruct (processAll _ _ _ _) as [s2|]; simpl; [|exact I].
  apply ranked_any_order. intros k. unfold determineTRConcurrency.
  now rewrite !innerConcurrency_tally.
Qed.

Lemma parsePodList_any_order o1 o2 tree fileName prFilter s :
  sameUpToOrder (parsePodList o1 tree fileName prFilter s)
                (parsePodList o2 tree fileName prFilter s).
Proof.
  unfold parsePodList, processPodFiles. rewrite walkFiles_spec.
  destruct (processAll _ _ _ _) as [s2|]; simpl; [|exact I].
  destruct (negb (containerOnly s2)); apply ranked_any_order; intros k.
  - unfold determinePodConcurrency. now rewrite !innerConcurrency_tally.
  - unfold determineContainerConcurrency. now rewrite !innerConcurrency_tally.
Qed.

(** X20. Analysing the same dump a second time changes nothing but,
    possibly, the order of the rows that have [==] durations. After an
    analysis that returned, on tables that were well formed, the same
    analysis of the same files, under whatever order its ranges over the
    maps take this time, leaves the same tables and returns the same
    groups of rows, one per distinct duration and in the same order, each
    group an arrangement of the group the first analysis returned; it
    only writes the lines of its walk to [os.Stderr] again. So for the
    pipeline runs, for the task runs, and for the pods without
    [--containers-only]. *)
Theorem reanalysis_changes_nothing (o1 o2 : RangeOracle)
    (fileName prFilter : string) (s : State) :
  stateInvariant s ->
  (forall tree r s',
      parsePipelineRunList o1 tree fileName prFilter s = Some (r, s') ->
      sameUpToOrder (parsePipelineRunList o2 tree fileName prFilter s')
                    (Some (r, writeStderr (walkMessages (tree fileName)) s')))
  /\ (forall tree r s',
         parseTaskRunList o1 tree fileName prFilter s = Some (r, s') ->
         sameUpToOrder (parseTaskRunList o2 tree fileName prFilter s')
                       (Some (r, writeStderr (walkMessages (tree fileName)) s')))
  /\ (forall tree r s',
         containerOnly s = false ->
         parsePodList o1 tree fileName prFilter s = Some (r, s') ->
         sameUpToOrder (parsePodList o2 tree fileName prFilter s')
                       (Some (r, writeStderr (walkMessages (tree fileName)) s'))).
Proof.
  intros I.
  destruct (reanalysis_same_order o1 fileName prFilter s I) as (F1 & F2 & F3).
  split; [|split].
  - intros tree r s' H. rewrite <- (F1 tree r s' H).
    apply parsePipelineRunList_any_order.
  - intros tree r s' H. rewrite <- (F2 tree r s' H).
    apply parseTaskRunList_any_order.
  - intros tree r s' Hc H. rewrite <- (F3 tree r s' Hc H).
    apply parsePodList_any_order.
Qed.

Lemma reanalysis_changes_nothing_witness :
  exists r s',
    parsePipelineRunList inOrder (oneFile instantRuns) "prs.json" "" initState
    = Some (r, s')
    /\ sameUpToOrder
         (parsePipelineRunList backwards (oneFile instantRuns) "prs.json" "" s')
         (Some (r, s')).
Proof.
  destruct (parsePipelineRunList inOrder (oneFile instantRuns) "prs.json" "" initState)
    as [[r s']|] eqn:E; [|vm_compute in E; discriminate].
  exists r, s'. split; [reflexivity|].
  assert (I : stateInvariant initState).
  { unfold stateInvariant, tablesInvariant, consistent. simpl.
    repeat split; try (intros [? H]; rewrite lookup_empty in H; discriminate);
      try constructor; intros *; rewrite ?lookup_empty; discriminate. }
  destruct (reanalysis_changes_nothing inOrder backwards "prs.json" "" initState I)
    as (F & _ & _).
  pose proof (F (oneFile instantRuns) r s' E) as H.
  change (walkMessages (oneFile instantRuns "prs.json")) with (@nil string) in H.
  now rewrite writeStderr_nil in H.
Defined.

(** ** Printing *)

Lemma String_length_append (a b : string) :
  String.length (a +:+ b) = (String.length a + String.length b)%nat.
Proof. induction a as [|c a IH]; [reflexivity|]. simpl. now rewrite IH. Qed.

Lemma printHeader_fold rest pre h :
  (0 < String.length (pre +:+ h))%nat ->
  fold_left
    (fun out h =>
       if (0 <? Z.of_nat (String.length out))%Z then out +:+ ";" +:+ h else h)
    rest (pre +:+ h)
  = pre +:+ String.concat ";" (h :: rest).
Proof.
  revert pre h. induction rest as [|h' rest IH]; intros pre h L; [reflexivity|].
  cbn [fold_left].
  destruct (Z.ltb_spec 0 (Z.of_nat (String.length (pre +:+ h)))) as [_|G]; [|lia].
  replace ((pre +:+ h) +:+ ";" +:+ h') with ((pre +:+ h +:+ ";") +:+ h')
    by now rewrite !append_assoc.
  rewrite IH.
  - change (String.concat ";" (h :: h' :: rest))
      with (h +:+ ";" +:+ String.concat ";" (h' :: rest)).
    now rewrite !append_assoc.
  - rewrite !String_length_append in *. simpl. lia.
Qed.

(** X21. [printHeader] prints nothing unless the output type is [csv]. For
    [csv] it prints one line: the headers joined by semicolons when the
    first header is not empty; an empty header at the front is dropped,
    separator and all; without any header the line is empty. *)
Theorem csv_header_joins_with_semicolons :
  (forall outputType headers,
      outputType <> OutputTypeCsv -> printHeader outputType headers = [])
  /\ (forall h rest,
         h <> "" ->
         printHeader OutputTypeCsv (h :: rest)
         = [String.concat ";" (h :: rest) +:+ newline])
  /\ (forall headers,
         printHeader OutputTypeCsv ("" :: headers) = printHeader OutputTypeCsv headers)
  /\ printHeader OutputTypeCsv [] = [newline]
  /\ printHeader OutputTypeCsv ["PipelineRun"; "Duration"; "Concurrency"]
     = ["PipelineRun;Duration;Concurrency" +:+ newline]
  /\ printHeader OutputTypeText ["PipelineRun"; "Duration"; "Concurrency"] = [].
Proof.
  split; [|split; [|split; [|split; [|split]]]]; try reflexivity.
  - intros outputType headers N. unfold printHeader.
    destruct (String.eqb_spec outputType OutputTypeCsv); [contradiction|reflexivity].
  - intros h rest N. unfold printHeader. simpl String.eqb. cbn [fold_left].
    cbn [String.length Z.of_nat Z.ltb Z.compare].
    assert (L : (0 < String.length ("" +:+ h))%nat)
      by (destruct h; [contradiction|simpl; lia]).
    pose proof (printHeader_fold rest "" h L) as F.
    f_equal. f_equal. exact F.
Qed.

Lemma printRows_resultOf rows :
  printRows (retS (resultOf rows)) (retF (resultOf rows)) (retI (resultOf rows))
  = Some rows.
Proof.
  unfold printRows. apply mapM_Some.
  apply Forall2_same_length_lookup_2.
  - unfold indexed. simpl. now rewrite length_imap, length_fmap.
  - intros i [j key] row Hi Hrow. unfold indexed in Hi. simpl in Hi.
    rewrite list_lookup_imap in Hi. rewrite list_lookup_fmap in Hi.
    simpl. rewrite !list_lookup_fmap.
    destruct (rows !! i) as [[[k d] c]|] eqn:E; [|discriminate].
    simpl in Hi. injection Hi as <- <-. rewrite ?E. simpl.
    injection Hrow as <-. reflexivity.
Qed.

Lemma parsePipelineRunList_rows o tree fileName prFilter s r s' :
  parsePipelineRunList o tree fileName prFilter s = Some (r, s') ->
  r = resultOf (rowsOf r).
Proof.
  unfold parsePipelineRunList, processPRFiles. rewrite walkFiles_spec.
  destruct (processAll _ _ _ _); simpl; [|discriminate].
  intros [= <- _]. now rewrite rowsOf_resultOf.
Qed.

Lemma parseTaskRunList_rows o tree fileName prFilter s r s' :
  parseTaskRunList o tree fileName prFilter s = Some (r, s') ->
  r = resultOf (rowsOf r).
Proof.
  unfold parseTaskRunList, processTRFiles. rewrite walkFiles_spec.
  destruct (processAll _ _ _ _); simpl; [|discriminate].
  intros [= <- _]. now rewrite rowsOf_resultOf.
Qed.

Lemma parsePodList_rows o tree fileName prFilter s r s' :
  parsePodList o tree fileName prFilter s = Some (r, s') ->
  r = resultOf (rowsOf r).
Proof.
  unfold parsePodList, processPodFiles. rewrite walkFiles_spec.
  destruct (processAll _ _ _ _) as [s2|]; simpl; [|discriminate].
  destruct (negb (containerOnly s2)); intros [= <- _]; now rewrite rowsOf_resultOf.
Qed.

(** X22. Given a path, each of the commands [prlist], [trlist] and
    [podlist] prints the header of [printList] and then one row for every
    row its analysis returns, in the same order, and leaves the state the
    analysis leaves; it panics only when the analysis does. The messages
    for a failed analysis are never written, and the missing [return] of
    [prlist] after them is never reached. *)
Theorem list_commands_print_every_row (o : RangeOracle) (outputType : string)
    (fileName : string) (rest : list string) (s : State) :
  (forall tree,
      ParsePipelineRunList o outputType tree (fileName :: rest) s
      = (fun out : Result * State =>
           (printHeader outputType ["PipelineRun"; "Duration"; "Concurrency"],
            rowsOf out.1, out.2))
          <$> parsePipelineRunList o tree fileName "" s)
  /\ (forall tree,
         ParseTaskRunList o outputType tree (fileName :: rest) s
         = (fun out : Result * State =>
              (printHeader outputType ["TaskRun"; "Duration"; "Concurrency"],
               rowsOf out.1, out.2))
             <$> parseTaskRunList o tree fileName "" s)
  /\ (forall tree,
         ParsePodList o outputType tree (fileName :: rest) s
         = (fun out : Result * State =>
              (printHeader outputType ["Pod"; "Duration"; "Concurrency"],
               rowsOf out.1, out.2))
             <$> parsePodList o tree fileName "" s).
Proof.
  split; [|split]; intros tree.
  - unfold ParsePipelineRunList.
    destruct (parsePipelineRunList o tree fileName "" s) as [[r s']|] eqn:E;
      [|reflexivity].
    pose proof (parsePipelineRunList_rows _ _ _ _ _ _ _ E) as R.
    revert R. generalize (rowsOf r). intros rows ->.
    cbn [mbind option_bind fmap option_fmap option_map].
    change (ok (resultOf rows)) with true. cbn [negb].
    unfold printList. rewrite printRows_resultOf.
    cbn [mbind option_bind fst snd]. now rewrite rowsOf_resultOf.
  - unfold ParseTaskRunList.
    destruct (parseTaskRunList o tree fileName "" s) as [[r s']|] eqn:E;
      [|reflexivity].
    pose proof (parseTaskRunList_rows _ _ _ _ _ _ _ E) as R.
    revert R. generalize (rowsOf r). intros rows ->.
    cbn [mbind option_bind fmap option_fmap option_map].
    change (ok (resultOf rows)) with true. cbn [negb].
    unfold printList. rewrite printRows_resultOf.
    cbn [mbind option_bind fst snd]. now rewrite rowsOf_resultOf.
  - unfold ParsePodList.
    destruct (parsePodList o tree fileName "" s) as [[r s']|] eqn:E;
      [|reflexivity].
    pose proof (parsePodList_rows _ _ _ _ _ _ _ E) as R.
    revert R. generalize (rowsOf r). intros rows ->.
    cbn [mbind option_bind fmap option_fmap option_map].
    change (ok (resultOf rows)) with true. cbn [negb].
    unfold printList. rewrite printRows_resultOf.
    cbn [mbind option_bind fst snd]. now rewrite rowsOf_resultOf.
Qed.

(** ** The list commands of the revision that reads one file per kind *)

(** X23. In the revision that reads one file per kind, [prlist] on a file
    that cannot be read or does not decode panics: after the messages of
    the failed analysis it does not return, and its loop over the one
    message indexes the nil slice of durations. On such a file [trlist]
    and [podlist] write the message that names the file to [os.Stderr],
    print nothing and leave the tables as they were. *)
Theorem prlist_falls_through_after_error (o : RangeOracle) (fs : ReadFile.FileSystem)
    (fileName : string) (rest : list string) (s : State) :
  ((forall items, ReadFile.prFile fs fileName <> Loaded items) ->
   ReadFile.ParsePipelineRunList o fs (fileName :: rest) s = None)
  /\ (forall e,
         ReadFile.trFile fs fileName = ReadError e ->
         ReadFile.ParseTaskRunList o fs (fileName :: rest) s
         = Some ([], [],
                 writeStderr ["ERROR: problem reading file " +:+ fileName +:+ ": "
                              +:+ e +:+ newline] s))
  /\ (forall e partial,
         ReadFile.trFile fs fileName = UnmarshalError e partial ->
         ReadFile.ParseTaskRunList o fs (fileName :: rest) s
         = Some ([], [],
                 writeStderr ["ERROR: file " +:+ fileName
                              +:+ " not marshalling into a TaskRun list: "
                              +:+ e +:+ newline] s))
  /\ (forall e,
         ReadFile.podFile fs fileName = ReadError e ->
         ReadFile.ParsePodList o fs (fileName :: rest) s
         = Some ([], [],
                 writeStderr ["ERROR: problem reading file " +:+ fileName +:+ ": "
                              +:+ e +:+ newline] s))
  /\ (forall e partial,
         ReadFile.podFile fs fileName = UnmarshalError e partial ->
         ReadFile.ParsePodList o fs (fileName :: rest) s
         = Some ([], [],
                 writeStderr ["ERROR: file " +:+ fileName
                              +:+ " not marshalling into a Pod list: "
                              +:+ e +:+ newline] s)).
Proof.
  split; [|split; [|split; [|split]]].
  - intros N. unfold ReadFile.ParsePipelineRunList, ReadFile.parsePipelineRunList,
      ReadFile.parseList.
    destruct (ReadFile.prFile fs fileName) as [e|e partial|items];
      [reflexivity|reflexivity|]. now destruct (N items).
  - intros e H. unfold ReadFile.ParseTaskRunList, ReadFile.parseTaskRunList,
      ReadFile.parseList. now rewrite H.
  - intros e partial H. unfold ReadFile.ParseTaskRunList, ReadFile.parseTaskRunList,
      ReadFile.parseList. now rewrite H.
  - intros e H. unfold ReadFile.ParsePodList, ReadFile.parsePodList,
      ReadFile.parseList. now rewrite H.
  - intros e partial H. unfold ReadFile.ParsePodList, ReadFile.parsePodList,
      ReadFile.parseList. now rewrite H.
Qed.

Lemma prlist_falls_through_after_error_witness :
  ReadFile.ParsePipelineRunList inOrder
    {| ReadFile.prFile := unreadable; ReadFile.trFile := unreadable;
       ReadFile.podFile := unreadable |} ["prs.json"] initState = None
  /\ (stderr <$> (snd <$> ReadFile.ParseTaskRunList inOrder
        {| ReadFile.prFile := unreadable; ReadFile.trFile := unreadable;
           ReadFile.podFile := unreadable |} ["trs.json"] initState))
     = Some ["ERROR: problem reading file trs.json: "
             +:+ "open trs.json: no such file or directory" +:+ newline].
Proof.
  destruct (prlist_falls_through_after_error inOrder
              {| ReadFile.prFile := unreadable; ReadFile.trFile := unreadable;
                 ReadFile.podFile := unreadable |} "prs.json" [] initState)
    as (P & _).
  split; [apply P; discriminate|reflexivity].
Defined.

(** ** The list commands, from the first revision on *)

Lemma fmap_flat_map {A B C : Type} (f : B -> C) (g : A -> list B) l :
  f <$> flat_map g l = flat_map (fun x => f <$> g x) l.
Proof.
  induction l as [|x l IH]; [reflexivity|]. simpl. now rewrite fmap_app, IH.
Qed.

(** Without the concurrency, the emission loops over the package-level
    tables print what the loops over the local variables print. *)
Lemma printed_rankRows o t conc :
  keyAndDuration <$> rankRows o (Durations (sortDurations t))
                              (ToDuration (sortDurations t)) conc
  = Inline.printed o (localsOf t).
Proof.
  unfold rankRows, Inline.printed. simpl. rewrite fmap_flat_map.
  apply flat_map_ext. intros d. rewrite fmap_flat_map.
  apply flat_map_ext. intros [k v]. now destruct (PrimFloat.eqb v d).
Qed.

Lemma prListLoop_tables items acc :
  fold_left
    (fun acc pr =>
       l ← acc;
       if negb (pr_HasStarted pr) then Some l
       else if negb (pr_Done pr) then Some l
       else
         completion ← pr_CompletionTime pr;
         start ← pr_StartTime pr;
         let duration := Sub completion start in
         Some (Inline.recordDuration (prKeyOf pr) (Seconds duration) l))
    items ((fun s => localsOf (prTables s)) <$> acc)
  = (fun s => localsOf (prTables s))
      <$> fold_left
            (fun acc item =>
               s ← acc;
               if ignorePipelineRun item "" then Some s
               else snd <$> processPipelineRun item s)
            items acc.
Proof.
  revert acc. induction items as [|pr items IH]; intros acc; [reflexivity|].
  cbn [fold_left]. rewrite <- IH. f_equal.
  destruct acc as [s|]; [|reflexivity]. simpl.
  unfold ignorePipelineRun, processPipelineRun. simpl.
  destruct (negb (pr_HasStarted pr)); [reflexivity|].
  destruct (negb (pr_Done pr)); [reflexivity|].
  destruct (pr_CompletionTime pr); [|reflexivity].
  destruct (pr_StartTime pr); reflexivity.
Qed.

Lemma trListLoop_tables items acc :
  fold_left
    (fun acc tr =>
       l ← acc;
       if negb (tr_HasStarted tr) then Some l
       else if negb (tr_Done tr) then Some l
       else
         completion ← tr_CompletionTime tr;
         start ← tr_StartTime tr;
         let duration := Sub completion start in
         Some (Inline.recordDuration (trKeyOf tr) (Seconds duration) l))
    items ((fun s => localsOf (trTables s)) <$> acc)
  = (fun s => localsOf (trTables s))
      <$> fold_left
            (fun acc item =>
               s ← acc;
               if ignoreTaskRun item "" then Some s
               else snd <$> processTaskRun item s)
            items acc.
Proof.
  revert acc. induction items as [|tr items IH]; intros acc; [reflexivity|].
  cbn [fold_left]. rewrite <- IH. f_equal.
  destruct acc as [s|]; [|reflexivity]. simpl.
  unfold ignoreTaskRun, processTaskRun. simpl.
  destruct (negb (tr_HasStarted tr)); [reflexivity|].
  destruct (negb (tr_Done tr)); [reflexivity|].
  destruct (tr_CompletionTime tr); [|reflexivity].
  destruct (tr_StartTime tr); reflexivity.
Qed.

(** X24. Moving the loops of [prlist] and [trlist] into
    [parsePipelineRunList] and [parseTaskRunList], with package-level
    tables, did not change what the commands print for a file that
    decodes: started on the tables as initialised, the later revision
    prints the keys and durations the first revision prints, in the same
    order, next to the concurrency it adds, and panics on the same inputs. *)
Theorem list_commands_agree_across_revisions (o : RangeOracle)
    (fs : ReadFile.FileSystem) (fileName : string) (rest : list string) :
  (forall items,
      ReadFile.prFile fs fileName = Loaded items ->
      ((fun out : list (string * float * Z) * list (string * float * Z) * State =>
          (keyAndDuration <$> out.1.1, stderr out.2))
         <$> ReadFile.ParsePipelineRunList o fs (fileName :: rest) initState)
      = Inline.ParsePipelineRunList o (ReadFile.prFile fs) (fileName :: rest))
  /\ (forall items,
         ReadFile.trFile fs fileName = Loaded items ->
         ((fun out : list (string * float * Z) * list (string * float * Z) * State =>
             (keyAndDuration <$> out.1.1, stderr out.2))
            <$> ReadFile.ParseTaskRunList o fs (fileName :: rest) initState)
         = Inline.ParseTaskRunList o (ReadFile.trFile fs) (fileName :: rest)).
Proof.
  split; intros items H.
  - unfold ReadFile.ParsePipelineRunList, ReadFile.parsePipelineRunList,
      ReadFile.parseList, Inline.ParsePipelineRunList, Inline.listCommand,
      Inline.prListLoop, processAll.
    rewrite H.
    change (Some Inline.noListLocals)
      with ((fun s => localsOf (prTables s)) <$> Some initState).
    rewrite prListLoop_tables.
    destruct (fold_left _ items (Some initState)) as [s2|] eqn:E; [|reflexivity].
    cbn [mbind option_bind fmap option_fmap option_map].
    change (ok (resultOf ?rows)) with true. cbn [negb].
    rewrite printRows_resultOf. cbn [mbind option_bind fmap option_fmap option_map].
    cbn [fst snd]. f_equal. f_equal.
    + apply (printed_rankRows o (prTables s2)).
    + apply (processAll_pr_frame "" items initState s2) in E as (_ & _ & _ & _ & E).
      exact E.
  - unfold ReadFile.ParseTaskRunList, ReadFile.parseTaskRunList,
      ReadFile.parseList, Inline.ParseTaskRunList, Inline.listCommand,
      Inline.trListLoop, processAll.
    rewrite H.
    change (Some Inline.noListLocals)
      with ((fun s => localsOf (trTables s)) <$> Some initState).
    rewrite trListLoop_tables.
    destruct (fold_left _ items (Some initState)) as [s2|] eqn:E; [|reflexivity].
    cbn [mbind option_bind fmap option_fmap option_map].
    change (ok (resultOf ?rows)) with true. cbn [negb].
    rewrite printRows_resultOf. cbn [mbind option_bind fmap option_fmap option_map].
    cbn [fst snd]. f_equal. f_equal.
    + apply (printed_rankRows o (trTables s2)).
    + apply (processAll_tr_frame "" items initState s2) in E as (_ & _ & _ & _ & E).
      exact E.
Qed.

Lemma list_commands_agree_across_revisions_witness :
  ((fun out : list (string * float * Z) * list (string * float * Z) * State =>
      (keyAndDuration <$> out.1.1, stderr out.2))
     <$> ReadFile.ParsePipelineRunList inOrder
           {| ReadFile.prFile := fun _ => Loaded samplePRs;
              ReadFile.trFile := fun _ => Loaded sampleTRs;
              ReadFile.podFile := fun _ => Loaded samplePods |}
           ["prs.json"] initState)
  = Inline.ParsePipelineRunList inOrder (fun _ => Loaded samplePRs) ["prs.json"].
Proof.
  destruct (list_commands_agree_across_revisions inOrder
              {| ReadFile.prFile := fun _ => Loaded samplePRs;
                 ReadFile.trFile := fun _ => Loaded sampleTRs;
                 ReadFile.podFile := fun _ => Loaded samplePods |}
              "prs.json" []) as [P _].
  exact (P samplePRs eq_refl).
Defined.

(** ** One file, read or walked *)

Lemma walkedItems_oneFile {T : Type} (kindOf : T -> string) kind (items : list T) :
  Forall (fun item => kindOf item = kind) items ->
  walkedItems kindOf kind [Decoded items] = items.
Proof.
  intros H. simpl. rewrite app_nil_r.
  induction H as [|x l Hx _ IH]; [reflexivity|].
  rewrite filter_cons_True by (now apply String.eqb_eq). now f_equal.
Qed.

(** X25. The analyses of the revision that walks directories do on a
    single file what those of the revision before did, when every item of
    the file has the kind of its list: same result, same tables, nothing
    on [os.Stderr]. (Items of another kind are what the walk leaves out.) *)
Theorem walk_of_one_file_is_the_read (o : RangeOracle) (fs : ReadFile.FileSystem)
    (fileName prFilter : string) (s : State) :
  (forall tree items,
      ReadFile.prFile fs fileName = Loaded items ->
      tree fileName = [Decoded items] ->
      Forall (fun pr => pr_Kind pr = "PipelineRun") items ->
      parsePipelineRunList o tree fileName prFilter s
      = ReadFile.parsePipelineRunList o fs fileName prFilter s)
  /\ (forall tree items,
         ReadFile.trFile fs fileName = Loaded items ->
         tree fileName = [Decoded items] ->
         Forall (fun tr => tr_Kind tr = "TaskRun") items ->
         parseTaskRunList o tree fileName prFilter s
         = ReadFile.parseTaskRunList o fs fileName prFilter s)
  /\ (forall tree items,
         ReadFile.podFile fs fileName = Loaded items ->
         tree fileName = [Decoded items] ->
         Forall (fun pod => pod_Kind pod = "Pod") items ->
         containerOnly s = false ->
         parsePodList o tree fileName prFilter s
         = ReadFile.parsePodList o fs fileName prFilter s).
Proof.
  split; [|split].
  - intros tree items H Ht K.
    unfold parsePipelineRunList, processPRFiles, ReadFile.parsePipelineRunList,
      ReadFile.parseList.
    rewrite walkFiles_spec, H, Ht, (walkedItems_oneFile pr_Kind _ items K).
    simpl walkMessages. now rewrite writeStderr_nil.
  - intros tree items H Ht K.
    unfold parseTaskRunList, processTRFiles, ReadFile.parseTaskRunList,
      ReadFile.parseList.
    rewrite walkFiles_spec, H, Ht, (walkedItems_oneFile tr_Kind _ items K).
    simpl walkMessages. now rewrite writeStderr_nil.
  - intros tree items H Ht K Hc.
    unfold parsePodList, processPodFiles, ReadFile.parsePodList,
      ReadFile.parseList.
    rewrite walkFiles_spec, H, Ht, (walkedItems_oneFile pod_Kind _ items K).
    simpl walkMessages. rewrite writeStderr_nil. cbv beta iota. rewrite Hc.
    change (processPodOrContainers false) with processPod.
    destruct (processAll _ processPod items s) as [s2|] eqn:E; [|reflexivity].
    apply (processAll_pod_frame false prFilter items s s2) in E
      as (_ & _ & _ & E & _).
    simpl. now rewrite E, Hc.
Qed.

Lemma walk_of_one_file_is_the_read_witness :
  parseTaskRunList inOrder (oneFile sampleTRs) "trs.json" "" initState
  = ReadFile.parseTaskRunList inOrder
      {| ReadFile.prFile := fun _ => Loaded samplePRs;
         ReadFile.trFile := fun _ => Loaded sampleTRs;
         ReadFile.podFile := fun _ => Loaded samplePods |}
      "trs.json" "" initState.
Proof.
  destruct (walk_of_one_file_is_the_read inOrder
              {| ReadFile.prFile := fun _ => Loaded samplePRs;
                 ReadFile.trFile := fun _ => Loaded sampleTRs;
                 ReadFile.podFile := fun _ => Loaded samplePods |}
              "trs.json" "" initState) as (_ & P & _).
  apply (P (oneFile sampleTRs) sampleTRs); [reflexivity|reflexivity|].
  repeat constructor.
Defined.

(** ** Growth of the tables *)
















(** ** The analysis of the containers *)

Lemma withContainer_id s : withContainer (fun t => t) s = s.
Proof. now destruct s. Qed.

Lemma processContainerStatus_entry pod s cstatus :
  cstatus ∈ pod_ContainerStatuses pod ->
  processContainerStatus pod (Some s) cstatus
  = Some (withContainer
            (fun t => match containerEntry pod cstatus with
                      | Some e => recordEntry t e
                      | None => t
                      end) s).
Proof.
  intros Hin. unfold processContainerStatus, containerEntry. simpl.
  destruct (cs_Terminated cstatus) as [terminated|]; simpl;
    [|now rewrite withContainer_id].
  destruct (containerWindow_total pod cstatus terminated Hin) as [[started finished] ->].
  reflexivity.
Qed.

Lemma processContainerStatuses_entries pod l s :
  l ⊆ pod_ContainerStatuses pod ->
  fold_left (processContainerStatus pod) l (Some s)
  = Some (withContainer (recordAll (omap (containerEntry pod) l)) s).
Proof.
  revert s. induction l as [|c l IH]; intros s Hl.
  - simpl. now rewrite withContainer_id.
  - cbn [fold_left].
    rewrite processContainerStatus_entry by (apply Hl; left).
    rewrite IH by (intros x Hx; apply Hl; now right).
    f_equal. simpl. destruct (containerEntry pod c); reflexivity.
Qed.

Lemma processAll_containers (ignore : Pod -> bool) pods s :
  processAll ignore (processPodOrContainers true) pods s
  = Some (withContainer (recordAll (containerEntries ignore pods)) s).
Proof.
  unfold processAll. revert s. induction pods as [|pod pods IH]; intros s.
  - simpl. now rewrite withContainer_id.
  - cbn [fold_left].
    assert (Hstep :
              (Some s ≫= fun s0 =>
                 if ignore pod then Some s0
                 else snd <$> processPodOrContainers true pod s0)
              = Some (withContainer
                        (recordAll
                           (if ignore pod then []
                            else omap (containerEntry pod) (pod_ContainerStatuses pod)))
                        s)).
    { simpl. destruct (ignore pod); [now rewrite withContainer_id|].
      unfold processPodOrContainers, processContainers. simpl.
      now rewrite processContainerStatuses_entries by reflexivity. }
    rewrite Hstep, IH. f_equal.
    change (containerEntries ignore (pod :: pods))
      with ((if ignore pod then []
             else omap (containerEntry pod) (pod_ContainerStatuses pod))
            ++ containerEntries ignore pods)%list.
    unfold withContainer. simpl. now rewrite recordAll_app.
Qed.

Lemma containerEntry_spec pod cstatus e :
  containerEntry pod cstatus = Some e
  <-> exists terminated started,
        cs_Terminated cstatus = Some terminated
        /\ containerWindow pod cstatus terminated = Some (started, FinishedAt terminated)
        /\ e = (containerKeyOf pod (cs_Name cstatus), (started, FinishedAt terminated)).
Proof.
  unfold containerEntry. split.
  - destruct (cs_Terminated cstatus) as [terminated|]; simpl; [|discriminate].
    destruct (containerWindow pod cstatus terminated) as [[started finished]|] eqn:W;
      simpl; [|discriminate].
    intros [= <-]. exists terminated, started.
    assert (finished = FinishedAt terminated) as ->.
    { revert W. unfold containerWindow.
      destruct (if (_ =? 0)%nat then _ else _); simpl; [|discriminate].
      now intros [= _ <-]. }
    auto.
  - intros (terminated & started & -> & W & ->). simpl. now rewrite W.
Qed.

Lemma containerEntries_elem (ignore : Pod -> bool) pods e :
  e ∈ containerEntries ignore pods
  <-> exists pod cstatus,
        pod ∈ pods /\ ignore pod = false
        /\ cstatus ∈ pod_ContainerStatuses pod
        /\ containerEntry pod cstatus = Some e.
Proof.
  unfold containerEntries. rewrite list_elem_of_In, in_flat_map. split.
  - intros (pod & Hpod & He). destruct (ignore pod) eqn:I; [inversion He|].
    apply list_elem_of_In, list_elem_of_omap in He as (c & Hc & He).
    exists pod, c. split; [now apply list_elem_of_In|]. auto.
  - intros (pod & c & Hpod & I & Hc & He). exists pod.
    split; [now apply list_elem_of_In|]. rewrite I.
    apply list_elem_of_In, list_elem_of_omap. eauto.
Qed.

(** X27. With [--containers-only], the analysis of the pods started on
    empty tables never fails and returns every key once; its keys are
    exactly the keys [namespace:pod-container] of the statuses in the
    [Terminated] state of the pods of the walk that pass the filter; every
    row carries the seconds from the start to the end of the window
    [processContainers] measures for such a status, whose end is its
    [finishedAt], and the concurrency of its key among the containers.
    The tables of the pods stay empty. *)
Theorem container_rows_cover_terminated (o : RangeOracle) (tree : FileTree Pod)
    (fileName prFilter : string) :
  let items := walkedItems pod_Kind "Pod" (tree fileName) in
  let measured := fun pod cstatus terminated =>
    pod ∈ items /\ ignorePod pod prFilter = false
    /\ cstatus ∈ pod_ContainerStatuses pod
    /\ cs_Terminated cstatus = Some terminated in
  exists r s',
    parsePodList o tree fileName prFilter containersOnly = Some (r, s')
    /\ ok r = true
    /\ NoDup (retS r)
    /\ (forall k,
           k ∈ retS r
           <-> exists pod cstatus terminated,
                 measured pod cstatus terminated
                 /\ containerKeyOf pod (cs_Name cstatus) = k)
    /\ (forall k v c,
           (k, v, c) ∈ rowsOf r ->
           c = determineContainerConcurrency o s' k
           /\ exists pod cstatus terminated started,
               measured pod cstatus terminated
               /\ containerKeyOf pod (cs_Name cstatus) = k
               /\ containerWindow pod cstatus terminated
                  = Some (started, FinishedAt terminated)
               /\ v = Seconds (Sub (FinishedAt terminated) started))
    /\ podTables s' = emptyTables.
Proof.
  intros items measured.
  set (ignore := fun pod => ignorePod pod prFilter).
  set (es := containerEntries ignore items).
  assert (E : exists s',
             parsePodList o tree fileName prFilter containersOnly
             = Some (resultOf (rankRows o
                                 (Durations (sortDurations (recordAll es emptyTables)))
                                 (ToDuration (sortDurations (recordAll es emptyTables)))
                                 (determineContainerConcurrency o s')), s')
             /\ podTables s' = emptyTables).
  { unfold parsePodList, processPodFiles. rewrite walkFiles_spec. cbv beta iota.
    change (containerOnly (writeStderr (walkMessages (tree fileName)) containersOnly))
      with true.
    fold items. fold ignore. rewrite processAll_containers. fold es.
    eexists. split; reflexivity. }
  destruct E as (s' & E & Hpod).
  destruct (ranked_from_empty o es (determineContainerConcurrency o s'))
    as (_ & _ & _ & S4 & S5 & S6).
  assert (K : forall e,
             e ∈ es
             <-> exists pod cstatus terminated started,
                   measured pod cstatus terminated
                   /\ containerWindow pod cstatus terminated
                      = Some (started, FinishedAt terminated)
                   /\ e = (containerKeyOf pod (cs_Name cstatus),
                           (started, FinishedAt terminated))).
  { intros e. unfold es. rewrite containerEntries_elem. split.
    - intros (pod & c & Hpod' & I & Hc & He).
      apply containerEntry_spec in He as (terminated & started & Ht & W & ->).
      exists pod, c, terminated, started. split; [now repeat split|]. auto.
    - intros (pod & c & terminated & started & (Hpod' & I & Hc & Ht) & W & ->).
      exists pod, c. split; [exact Hpod'|]. split; [exact I|]. split; [exact Hc|].
      apply containerEntry_spec. eauto. }
  eexists _, s'. split; [exact E|]. split; [reflexivity|]. rewrite rowsOf_resultOf.
  split; [exact S4|]. split; [|split; [|exact Hpod]].
  - intros k. rewrite S5. split.
    + intros (e & -> & He)%list_elem_of_fmap.
      apply K in He as (pod & c & terminated & started & M & _ & ->).
      now exists pod, c, terminated.
    + intros (pod & c & terminated & M & <-).
      destruct M as (Hpod' & I & Hc & Ht).
      destruct (containerWindow_total pod c terminated Hc) as [[started finished] W].
      assert (He : containerEntry pod c
                   = Some (containerKeyOf pod (cs_Name c), (started, finished)))
        by (unfold containerEntry; rewrite Ht; simpl; now rewrite W).
      apply list_elem_of_fmap.
      exists (containerKeyOf pod (cs_Name c), (started, finished)).
      split; [reflexivity|]. apply containerEntries_elem. now exists pod, c.
  - intros k v c H. destruct (S6 k v c H) as (-> & e & He & <- & ->).
    split; [reflexivity|].
    apply K in He as (pod & cs & terminated & started & M & W & ->).
    exists pod, cs, terminated, started. auto.
Qed.

(** ** The last status, and the latest *)

Lemma podDuration_snoc start d statuses status :
  Inline.podDuration start d (statuses ++ [status])
  = match cs_Terminated status with
    | Some terminated => Sub (FinishedAt terminated) start
    | None => Inline.podDuration start d statuses
    end.
Proof. unfold Inline.podDuration. now rewrite fold_left_app. Qed.

Lemma finishedAts_snoc statuses status :
  finishedAts (statuses ++ [status])
  = finishedAts statuses
    ++ match cs_Terminated status with
       | Some terminated => [FinishedAt terminated]
       | None => []
       end.
Proof.
  unfold finishedAts. rewrite omap_app. simpl.
  now destruct (cs_Terminated status).
Qed.

(** X28. The loop over the container statuses that the first revision has
    inside its commands leaves in [duration] the time from the start of
    the pod to the [finishedAt] of the last status in the [Terminated]
    state, in the order of the statuses, and leaves [duration] as it was
    when there is none. It agrees with [processPod] when that last
    [finishedAt] is also the latest one and is not before Go's zero time. *)
Theorem nested_loop_takes_last_finish (start : Time) (statuses : list ContainerStatus) :
  (forall d,
      Inline.podDuration start d statuses
      = match last (finishedAts statuses) with
        | Some f => Sub f start
        | None => d
        end)
  /\ (forall f,
         last (finishedAts statuses) = Some f ->
         zeroTime <= f ->
         (forall f', f' ∈ finishedAts statuses -> f' <= f) ->
         Inline.podDuration start 0 statuses
         = Sub (terminatedTimeOf statuses) start).
Proof.
  assert (G : forall d,
             Inline.podDuration start d statuses
             = match last (finishedAts statuses) with
               | Some f => Sub f start
               | None => d
               end).
  { intros d. induction statuses as [|status statuses IH] using rev_ind;
      [reflexivity|].
    rewrite podDuration_snoc, finishedAts_snoc.
    destruct (cs_Terminated status) as [terminated|].
    - now rewrite last_snoc.
    - now rewrite app_nil_r. }
  split; [exact G|].
  intros f Hlast Hpos Hmax. rewrite G, Hlast. f_equal.
  destruct (terminatedTimeOf_latest statuses) as (U & _ & L & _).
  assert (Hf : f ∈ finishedAts statuses).
  { revert Hlast. generalize (finishedAts statuses). intros l Hl.
    apply last_Some in Hl as [l' ->]. apply elem_of_app. right. left. }
  pose proof (U f Hf) as B1.
  pose proof (Hmax _ (L (ex_intro _ f (conj Hf Hpos)))) as B2. lia.
Qed.

Lemma nested_loop_takes_last_finish_witness :
  Inline.podDuration (seconds 63800000000) 0 (pod_ContainerStatuses twoStepPod)
  = Sub (terminatedTimeOf (pod_ContainerStatuses twoStepPod)) (seconds 63800000000).
Proof.
  destruct (nested_loop_takes_last_finish (seconds 63800000000)
              (pod_ContainerStatuses twoStepPod)) as [_ H].
  apply (H (seconds 63800000012)).
  - reflexivity.
  - unfold zeroTime, seconds, Second. lia.
  - intros f' Hf'. apply list_elem_of_In in Hf'.
    destruct Hf' as [<-|[<-|[]]]; vm_compute; discriminate.
Defined.

(** ** When the [all] command panics *)

Lemma parsePipelineRunList_panics o tree fileName prFilter s pr :
  pr ∈ walkedItems pr_Kind "PipelineRun" (tree fileName) ->
  ignorePipelineRun pr prFilter = false -> pr_CompletionTime pr = None ->
  parsePipelineRunList o tree fileName prFilter s = None.
Proof.
  intros Hpr I E. apply (prEntry_None pr prFilter I) in E.
  unfold parsePipelineRunList, processPRFiles. rewrite walkFiles_spec.
  now rewrite (processAll_panics (fun pr => ignorePipelineRun pr prFilter)
                 processPipelineRun prEntry withPr processPipelineRun_entry
                 _ _ pr Hpr I E).
Qed.

Lemma parseTaskRunList_panics o tree fileName prFilter s tr :
  tr ∈ walkedItems tr_Kind "TaskRun" (tree fileName) ->
  ignoreTaskRun tr prFilter = false -> tr_CompletionTime tr = None ->
  parseTaskRunList o tree fileName prFilter s = None.
Proof.
  intros Htr I E. apply (trEntry_None tr prFilter I) in E.
  unfold parseTaskRunList, processTRFiles. rewrite walkFiles_spec.
  now rewrite (processAll_panics (fun tr => ignoreTaskRun tr prFilter)
                 processTaskRun trEntry withTr processTaskRun_entry
                 _ _ tr Htr I E).
Qed.

Lemma parsePodList_total o tree fileName prFilter s :
  exists rows s', parsePodList o tree fileName prFilter s = Some (resultOf rows, s').
Proof.
  unfold parsePodList, processPodFiles. rewrite walkFiles_spec. cbv beta iota.
  destruct (processAll_total (fun pod => ignorePod pod prFilter)
              (processPodOrContainers
                 (containerOnly (writeStderr (walkMessages (tree fileName)) s)))
              (walkedItems pod_Kind "Pod" (tree fileName)))
    with (s := writeStderr (walkMessages (tree fileName)) s) as [s2 ->].
  { intros pod s0 _ I. unfold processPodOrContainers.
    destruct (negb (containerOnly (writeStderr (walkMessages (tree fileName)) s))).
    - rewrite processPod_entry.
      destruct (eligible_podEntry pod prFilter I) as [e ->]. simpl. eauto.
    - destruct (processContainers_total pod s0) as [[ds s3] ->]. simpl. eauto. }
  simpl. destruct (negb (containerOnly s2)); eauto.
Qed.

(** X29. Given three arguments of which the first is a path [os.Stat]
    accepts (a file, or a directory, which then stands for all three), the
    [all] command panics exactly when the walk for the pipeline runs hands
    on a pipeline run that passes the filter and has no completion time,
    or the walk for the task runs such a task run. In every other case it
    returns: no pod and no index of its loops makes it panic. *)
Theorem all_panics_only_on_missing_completion_time (o : RangeOracle)
    (fs : FileSystem) (a0 a1 a2 : string) (rest : list string) (isDir : bool)
    (s : State) :
  statOf fs a0 = inr isDir ->
  ParseAllThreeLists o fs (a0 :: a1 :: a2 :: rest) s = None
  <-> (exists pr,
          pr ∈ walkedItems pr_Kind "PipelineRun" (prFiles fs a0)
          /\ ignorePipelineRun pr "" = false /\ pr_CompletionTime pr = None)
      \/ (exists tr,
             tr ∈ walkedItems tr_Kind "TaskRun"
                    (trFiles fs (if isDir then a0 else a1))
             /\ ignoreTaskRun tr "" = false /\ tr_CompletionTime tr = None).
Proof.
  intros Hstat.
  assert (U : ParseAllThreeLists o fs (a0 :: a1 :: a2 :: rest) s
              = '(r1, s) ← parsePipelineRunList o (prFiles fs) a0 "" s;
                if negb (ok r1) then Some ([], writeStderr (retS r1) s)
                else
                  '(r2, s) ← parseTaskRunList o (trFiles fs)
                               (if isDir then a0 else a1) "" s;
                  if negb (ok r2) then Some ([], writeStderr (retS r2) s)
                  else
                    '(r3, s) ← parsePodList o (podFiles fs)
                                 (if isDir then a0 else a2) "" s;
                    if negb (ok r3) then Some ([], writeStderr (retS r3) s)
                    else rows ← aggregateRows r1 r2 r3; Some (rows, s)).
  { unfold ParseAllThreeLists. rewrite Hstat. now destruct isDir. }
  rewrite U. clear U.
  destruct (complete_dec (fun pr => ignorePipelineRun pr "") prEntry
              (walkedItems pr_Kind "PipelineRun" (prFiles fs a0)))
    as [C1|(pr & Hpr & I & E)].
  - destruct (parsePipelineRunList_flag o (prFiles fs) a0 "" s C1)
      as (rows1 & s1 & -> & _).
    cbn [mbind option_bind]. change (ok (resultOf rows1)) with true. cbn [negb].
    destruct (complete_dec (fun tr => ignoreTaskRun tr "") trEntry
                (walkedItems tr_Kind "TaskRun" (trFiles fs (if isDir then a0 else a1))))
      as [C2|(tr & Htr & I & E)].
    + destruct (parseTaskRunList_flag o (trFiles fs) (if isDir then a0 else a1) "" s1 C2)
        as (rows2 & s2 & -> & _).
      cbn [mbind option_bind]. change (ok (resultOf rows2)) with true. cbn [negb].
      destruct (parsePodList_total o (podFiles fs) (if isDir then a0 else a2) "" s2)
        as (rows3 & s3 & ->).
      cbn [mbind option_bind]. change (ok (resultOf rows3)) with true. cbn [negb].
      rewrite aggregateRows_rows. cbn [mbind option_bind].
      split; [discriminate|].
      intros [(pr & Hpr & I & E)|(tr & Htr & I & E)].
      * destruct (C1 pr Hpr I) as [e He].
        apply (prEntry_None pr "" I) in E. congruence.
      * destruct (C2 tr Htr I) as [e He].
        apply (trEntry_None tr "" I) in E. congruence.
    + apply (trEntry_None tr "" I) in E.
      rewrite (parseTaskRunList_panics o (trFiles fs) _ "" s1 tr Htr I E).
      split; [|reflexivity]. intros _. right. now exists tr.
  - apply (prEntry_None pr "" I) in E.
    rewrite (parsePipelineRunList_panics o (prFiles fs) a0 "" s pr Hpr I E).
    split; [|reflexivity]. intros _. left. now exists pr.
Qed.

Lemma all_panics_only_on_missing_completion_time_witness :
  ParseAllThreeLists inOrder sampleFS sampleArgs initState = None
  <-> (exists pr,
          pr ∈ walkedItems pr_Kind "PipelineRun" (prFiles sampleFS "prs.json")
          /\ ignorePipelineRun pr "" = false /\ pr_CompletionTime pr = None)
      \/ (exists tr,
             tr ∈ walkedItems tr_Kind "TaskRun" (trFiles sampleFS "trs.json")
             /\ ignoreTaskRun tr "" = false /\ tr_CompletionTime tr = None).
Proof.
  exact (all_panics_only_on_missing_completion_time inOrder sampleFS
           "prs.json" "trs.json" "pods.json" [] false initState eq_refl).
Defined.
